(** * MegaMolBART: batch assembly, greedy decoding and character accuracy

    A shallow embedding of
      - [nemo_chem/data/augment.py]  (class [MoleculeEnumeration]) and
      - [nemo_chem/models/megamolbart/megamolbart_model.py]
        (methods [decode], [sample_molecules],
        [calculate_character_accuracy], [calculate_molecular_accuracy]
        and [calculate_metrics] of [MegaMolBARTModel]),
    followed by the properties of the padding, masking, trimming and
    accuracy computations.

    Conventions.  Python [int] is [Z]; a Python list is a [list]; list
    lengths are [nat]; an [int64] tensor of rank two is a rectangular
    [list (list Z)].  A raised exception is the [Raise] constructor of
    [result].  The process-wide random state used by [np.random.shuffle]
    and by the tokenizer's masking is threaded explicitly.  RDKit, the
    tokenizer and the network are collaborators of the code: they are
    parameters of the development, bundled in the classes
    [StructureCodec], [RandomSource], [Tokenizer] and [Network]. *)

From Stdlib Require Import String Ascii.
From Stdlib Require Import List ZArith Bool Arith Lia QArith.
Import ListNotations.

Set Implicit Arguments.
Close Scope Q_scope.
Open Scope Z_scope.
Open Scope nat_scope.
Open Scope list_scope.

(** ** Exceptions and the two monads of the embedding *)

Inductive exn : Set :=
| ValueError          (* max() of an empty sequence, ragged or unfit tensor data *)
| RuntimeError        (* RDKit rendering failure, torch shape or range error *)
| AssertionError
| ArgumentError       (* an RDKit function applied to None *)
| AttributeError      (* a method called on None *)
| IndexError
| UnboundLocalError
| ZeroDivisionError.

Inductive result (A : Type) : Type :=
| Ok (a : A)
| Raise (e : exn).

Arguments Ok {A} a.
Arguments Raise {A} e.

Definition rbind {A B} (r : result A) (k : A -> result B) : result B :=
  match r with
  | Ok a => k a
  | Raise e => Raise e
  end.

Declare Scope result_scope.
Delimit Scope result_scope with result.
Notation "x <- r ;; k" := (rbind r (fun x => k))
  (at level 61, r at next level, right associativity) : result_scope.
Notation "' pat <- r ;; k" := (rbind r (fun x => match x with pat => k end))
  (at level 61, pat pattern, r at next level, right associativity) : result_scope.

(** Map a fallible function over a list, left to right, stopping at the
    first exception (a list comprehension whose body may raise). *)
Fixpoint rmap {A B} (f : A -> result B) (l : list A) : result (list B) :=
  match l with
  | [] => Ok []
  | x :: xs =>
      (y <- f x ;; ys <- rmap f xs ;; Ok (y :: ys))%result
  end.

(** Computations that read and advance the random state [S] and may raise. *)
Definition M (S A : Type) : Type := S -> result (A * S).

Definition mret {S A} (a : A) : M S A := fun s => Ok (a, s).

Definition mraise {S A} (e : exn) : M S A := fun _ => Raise e.

Definition mbind {S A B} (m : M S A) (k : A -> M S B) : M S B :=
  fun s => match m s with
           | Ok (a, s') => k a s'
           | Raise e => Raise e
           end.

Definition mlift {S A} (r : result A) : M S A :=
  fun s => match r with
           | Ok a => Ok (a, s)
           | Raise e => Raise e
           end.

Declare Scope m_scope.
Delimit Scope m_scope with M.
Notation "x <- m ;; k" := (mbind m (fun x => k))
  (at level 61, m at next level, right associativity) : m_scope.
Notation "' pat <- m ;; k" := (mbind m (fun x => match x with pat => k end))
  (at level 61, pat pattern, m at next level, right associativity) : m_scope.

Fixpoint mmap {S A B} (f : A -> M S B) (l : list A) : M S (list B) :=
  match l with
  | [] => mret []
  | x :: xs =>
      (y <- f x ;; ys <- mmap f xs ;; mret (y :: ys))%M
  end.

(** ** Python and torch primitives *)

Module Py.

(** [max(l)] on a list of lengths: [ValueError] on the empty list. *)
Definition max (l : list nat) : result nat :=
  match l with
  | [] => Raise ValueError
  | _ :: _ => Ok (list_max l)
  end.

(** [l[:n]] for an arbitrary Python integer [n]: a negative bound
    counts from the end of the list. *)
Definition slice_to {A} (l : list A) (n : Z) : list A :=
  if (0 <=? n)%Z then firstn (Z.to_nat n) l
  else firstn (length l - Z.to_nat (- n)) l.

(** [x in l] and [l.index(x)] on lists of integers. *)
Fixpoint contains (x : Z) (l : list Z) : bool :=
  match l with
  | [] => false
  | y :: ys => if (y =? x)%Z then true else contains x ys
  end.

Fixpoint index (x : Z) (l : list Z) : result nat :=
  match l with
  | [] => Raise ValueError
  | y :: ys =>
      if (y =? x)%Z then Ok 0
      else (i <- index x ys ;; Ok (S i))%result
  end.

(** [int(math.ceil(n / 8) * 8)].  The float quotient [n / 8] is exact
    for every list length, so the result is the integer ceiling. *)
Definition ceil8 (n : nat) : nat := ((n + 7) / 8) * 8.

End Py.

Module Torch.

Definition int64_ok (z : Z) : bool :=
  ((- 2 ^ 63 <=? z) && (z <? 2 ^ 63))%Z.

Definition rectangular {A} (rows : list (list A)) : bool :=
  match rows with
  | [] => true
  | r :: rs => forallb (fun r' => length r' =? length r) rs
  end.

(** [torch.tensor(rows, dtype=torch.int64)] on a list of lists of
    Python integers: ragged data is a [ValueError], an integer outside
    the 64-bit range a [RuntimeError]. *)
Definition tensor (rows : list (list Z)) : result (list (list Z)) :=
  if negb (rectangular rows) then Raise ValueError
  else if negb (forallb (forallb int64_ok) rows) then Raise RuntimeError
  else Ok rows.

(** [t[~mask.to(torch.bool)] = v] for [t] and [mask] of one shape:
    the entries of [t] at the positions where [mask] is zero become
    [v]; a [v] that does not fit the tensor's element type is a
    [ValueError]. *)
Definition fill_where_zero (t mask : list (list Z)) (v : Z)
  : result (list (list Z)) :=
  if negb (int64_ok v) then Raise ValueError
  else Ok (map (fun rm : list Z * list Z =>
                  map (fun xm : Z * Z =>
                         if (snd xm =? 0)%Z then v else fst xm)
                      (combine (fst rm) (snd rm)))
               (combine t mask)).

End Torch.

(** ** The collaborators *)

(** RDKit, as far as [augment.py] uses it.  [MolFromSmiles] answers
    [None] for a string it cannot parse (Python's [None]);
    [MolToSmiles m canonical] answers [None] where RDKit raises
    [RuntimeError].  [RenumberAtoms] is taken on the orders that the
    code builds for a molecule with atoms, a shuffle of
    [range(GetNumAtoms())], where it returns; the [ValueError] that
    RDKit raises for an empty order is not part of the interface. *)
Class StructureCodec : Type := {
  Mol : Type;
  MolFromSmiles : string -> option Mol;
  MolToSmiles : Mol -> bool -> option string;
  GetNumAtoms : Mol -> nat;
  RenumberAtoms : Mol -> list nat -> Mol
}.

(** The random state behind [np.random.shuffle]. *)
Class RandomSource (rng : Type) : Type := {
  shuffle : list nat -> rng -> list nat * rng
}.

(** The dictionary returned by [tokenizer.tokenize]. *)
Record token_output (token : Type) : Type := {
  original_tokens : list (list token);
  masked_tokens : list (list token);
  token_masks : list (list bool)
}.

(** The tokenizer ([nemo_chem.tokenizer.MolEncTokenizer]); its masking
    draws from the random state. *)
Class Tokenizer (rng : Type) : Type := {
  token : Type;
  tokenize : list string -> bool -> bool -> rng -> token_output token * rng;
  token_to_id : token -> Z;
  ids_to_tokens : list (list Z) -> list (list token);
  tokens_to_text : list (list token) -> list string;
  pad_id : Z;
  bos_id : Z;
  eos_id : Z;
  vocab_size : Z
}.

(** Modelled from the spec: [tokenizer.convert_tokens_to_ids], absent
    from the sources; "convert tokens to integer ids via the Tokenizer
    vocabulary", one id for each token, sequence by sequence. *)
Definition convert_tokens_to_ids {rng} `{Tokenizer rng}
  (token_data : list (list token)) : list (list Z) :=
  map (map token_to_id) token_data.

(** ** [MoleculeEnumeration] *)

(** The attributes set by [__init__] (the tokenizer is the class
    instance in scope). *)
Record MoleculeEnumeration : Type := {
  seq_length : Z;
  encoder_augment : bool;
  encoder_mask : bool;
  decoder_augment : bool;
  decoder_mask : bool;
  canonicalize_input : bool;
  pad_size_divisible_by_8 : bool
}.

(** The dictionary returned by [_prepare_tokens]. *)
Record prepared (token : Type) : Type := {
  tokens : list (list token);
  mask : list (list bool);
  target_smiles : list string
}.

(** The dictionary returned by [collate_fn]. *)
Record collate_output : Type := {
  text_enc : list (list Z);
  enc_mask : list (list Z);
  text_dec : list (list Z);
  dec_mask : list (list Z);
  labels : list (list Z);
  loss_mask : list (list Z);
  batch_target_smiles : list string
}.

Section Enumeration.

Context {rng : Type} {RS : RandomSource rng}.
Context {SC : StructureCodec} {TK : Tokenizer rng}.

(** [Chem.MolToSmiles(mol, canonical=...)] where [mol] may be [None]. *)
Definition render (mol : option Mol) (canonical : bool) : result string :=
  match mol with
  | None => Raise ArgumentError
  | Some m =>
      match MolToSmiles m canonical with
      | Some s => Ok s
      | None => Raise RuntimeError
      end
  end.

(** [try: body except RuntimeError: handler], neither of which draws
    from the random state. *)
Definition except_RuntimeError {A} (body handler : result A) : result A :=
  match body with
  | Raise RuntimeError => handler
  | _ => body
  end.

Definition assert (b : bool) : result unit :=
  if b then Ok tt else Raise AssertionError.

Definition _smiles_augmeter_func (self : MoleculeEnumeration)
  (smiles : string) (augment_data : bool) : M rng (string * string) :=
  (let mol := MolFromSmiles smiles in
   canon_smiles <- mlift (if canonicalize_input self
                          then render mol true else Ok smiles) ;;
   aug_smiles <-
     (if augment_data then
        match mol with
        | None => mraise AttributeError
        | Some m =>
            atom_order <- (fun s => Ok (shuffle (seq 0 (GetNumAtoms m)) s)) ;;
            let aug_mol := RenumberAtoms m atom_order in
            mlift (except_RuntimeError
                     (render (Some aug_mol) false)
                     (if canonicalize_input self
                      then Ok canon_smiles else render mol true))
        end
      else mlift (render mol false)) ;;
   _ <- mlift (assert (0 <? String.length aug_smiles)) ;;
   _ <- mlift (assert (0 <? String.length canon_smiles)) ;;
   mret (aug_smiles, canon_smiles))%M.

Definition _check_seq_len {T U} (self : MoleculeEnumeration)
  (tokens : list (list T)) (mask : list (list U))
  : result (list (list T) * list (list U)) :=
  (seq_len <- Py.max (map (@length T) tokens) ;;
   if (seq_length self <? Z.of_nat seq_len)%Z then
     let tokens_short := map (fun ts => Py.slice_to ts (seq_length self)) tokens in
     let mask_short := map (fun ms => Py.slice_to ms (seq_length self)) mask in
     Ok (tokens_short, mask_short)
   else Ok (tokens, mask))%result.

Definition _prepare_tokens (self : MoleculeEnumeration)
  (batch : list string) (augment_data mask_data : bool)
  : M rng (prepared token) :=
  (smiles_list <- mmap (fun smiles =>
                          _smiles_augmeter_func self smiles augment_data)
                       batch ;;
   let smiles := map fst smiles_list in
   let canon_targets := map snd smiles_list in
   token_output <- (fun s => Ok (tokenize smiles false mask_data s)) ;;
   let tokens_mask :=
     if mask_data
     then (masked_tokens token_output, token_masks token_output)
     else (original_tokens token_output,
           map (fun ts => repeat true (length ts))
               (original_tokens token_output)) in
   tm <- mlift (_check_seq_len self (fst tokens_mask) (snd tokens_mask)) ;;
   mret {| tokens := fst tm; mask := snd tm;
           target_smiles := canon_targets |})%M.

Definition _pad_seqs (self : MoleculeEnumeration)
  (seqs : list (list Z)) (pad_token : Z)
  : result (list (list Z) * list (list Z)) :=
  (pad_length <- Py.max (map (@length Z) seqs) ;;
   let pad_length :=
     if pad_size_divisible_by_8 self then Py.ceil8 pad_length
     else pad_length in
   let padded :=
     map (fun seq => seq ++ repeat pad_token (pad_length - length seq)) seqs in
   let masks :=
     map (fun seq => repeat 1%Z (length seq)
                     ++ repeat 0%Z (pad_length - length seq)) seqs in
   Ok (padded, masks))%result.

Definition collate_fn (self : MoleculeEnumeration)
  (batch : list string) (label_pad : Z) : M rng collate_output :=
  ((* Encoder *)
   encoder_dict <- _prepare_tokens self batch
                     (encoder_augment self) (encoder_mask self) ;;
   let encoder_tokens := tokens encoder_dict in
   let enc_token_ids := convert_tokens_to_ids encoder_tokens in
   enc_padded <- mlift (_pad_seqs self enc_token_ids pad_id) ;;
   enc_token_ids <- mlift (Torch.tensor (fst enc_padded)) ;;
   encoder_mask_t <- mlift (Torch.tensor (snd enc_padded)) ;;
   (* Decoder *)
   decoder_dict <- _prepare_tokens self batch
                     (decoder_augment self) (decoder_mask self) ;;
   let decoder_tokens := tokens decoder_dict in
   let dec_token_ids := convert_tokens_to_ids decoder_tokens in
   let label_ids := map (fun example => example ++ [eos_id]) dec_token_ids in
   let dec_token_ids := map (fun example => bos_id :: example) dec_token_ids in
   dec_padded <- mlift (_pad_seqs self dec_token_ids pad_id) ;;
   dec_token_ids <- mlift (Torch.tensor (fst dec_padded)) ;;
   decoder_mask_t <- mlift (Torch.tensor (snd dec_padded)) ;;
   label_padded <- mlift (_pad_seqs self label_ids pad_id) ;;
   label_token_ids <- mlift (Torch.tensor (fst label_padded)) ;;
   loss_mask_t <- mlift (Torch.tensor (snd label_padded)) ;;
   label_token_ids <- mlift (Torch.fill_where_zero
                               label_token_ids loss_mask_t label_pad) ;;
   mret {| text_enc := enc_token_ids;
           enc_mask := encoder_mask_t;
           text_dec := dec_token_ids;
           dec_mask := decoder_mask_t;
           labels := label_token_ids;
           loss_mask := loss_mask_t;
           batch_target_smiles := target_smiles encoder_dict |})%M.

End Enumeration.

(** ** [MegaMolBARTModel]: greedy decoding, trimming, character accuracy *)

(** A logit or log-probability.  Only the order of the float values
    matters to [torch.max]; a finite float is represented by an integer
    rank and the value [-float('Inf')] by [NegInf]. *)
Inductive logit : Set :=
| NegInf
| Fin (z : Z).

Definition logit_ltb (a b : logit) : bool :=
  match a, b with
  | NegInf, Fin _ => true
  | Fin x, Fin y => (x <? y)%Z
  | _, _ => false
  end.

(** The network behind [self(...)] and [nn.functional.log_softmax]
    along the last dimension, a float computation that is left
    abstract.  [token_logits tokens_enc dec_ids enc_mask dec_mask h] is
    the ["token_logits"] entry of the forward pass, indexed by batch
    item, position and vocabulary id. *)
Class Network : Type := {
  hidden : Type;
  enc_output : list (list Z) -> list (list Z) -> hidden;
  token_logits : list (list Z) -> list (list Z) -> list (list Z) ->
                 list (list bool) -> hidden -> list (list (list logit));
  log_softmax : list logit -> list logit
}.

(** The configuration entries read by the methods below. *)
Record MegaMolBARTModel : Type := {
  max_position_embeddings : Z
}.

Module Tensor.

(** The running maximum of [torch.max] along one row: the first
    maximal value is the one reported. *)
Fixpoint max_from (best_i : nat) (best : logit) (i : nat) (l : list logit)
  : logit * nat :=
  match l with
  | [] => (best, best_i)
  | x :: xs =>
      if logit_ltb best x then max_from i x (S i) xs
      else max_from best_i best (S i) xs
  end.

(** [torch.max(row, dim=-1)]: value and index; an empty reduction
    dimension is an error. *)
Definition max (row : list logit) : result (logit * Z) :=
  match row with
  | [] => Raise IndexError
  | x :: xs => let vi := max_from 0 x 1 xs in
               Ok (fst vi, Z.of_nat (snd vi))
  end.

(** [torch.max(t, dim=2)] on a rank-three tensor. *)
Definition max_dim2 (t : list (list (list logit)))
  : result (list (list logit) * list (list Z)) :=
  (vi <- rmap (rmap max) t ;;
   Ok (map (map fst) vi, map (map snd) vi))%result.

(** The first index selected by the slice [[n:]] of a dimension of
    size [len]. *)
Definition slice_start (len : nat) (n : Z) : nat :=
  if (0 <=? n)%Z then Nat.min (Z.to_nat n) len
  else len - Z.to_nat (- n).

(** [t[:, :, n:] = -float('Inf')]. *)
Definition fill_from (n : Z) (t : list (list (list logit)))
  : list (list (list logit)) :=
  map (map (fun row =>
              let k := slice_start (length row) n in
              firstn k row ++ repeat NegInf (length row - k))) t.

(** [t[:, -1]] on a rank-two tensor. *)
Definition last_column (t : list (list Z)) : result (list Z) :=
  rmap (fun row => match row with
                   | [] => Raise IndexError
                   | _ :: _ => Ok (last row 0%Z)
                   end) t.

(** [torch.cat([t, col.unsqueeze(1)], 1)]. *)
Definition cat_column (t : list (list Z)) (col : list Z)
  : result (list (list Z)) :=
  if length t =? length col
  then Ok (map (fun rc : list Z * Z => fst rc ++ [snd rc]) (combine t col))
  else Raise RuntimeError.

(** Pointwise combination of two vectors or two rank-two tensors of
    one shape, the case in which the batches of [collate_fn] reach the
    accuracy computation.  Broadcasting of size-one dimensions is left
    out: operands of different shapes are rejected here, so a
    statement about this operation speaks for the code on operands of
    one shape only. *)
Fixpoint zip_strict {A B C} (f : A -> B -> C) (a : list A) (b : list B)
  : result (list C) :=
  match a, b with
  | [], [] => Ok []
  | x :: a', y :: b' => (r <- zip_strict f a' b' ;; Ok (f x y :: r))%result
  | _, _ => Raise RuntimeError
  end.

Fixpoint map2 {A B C} (f : A -> B -> C)
  (a : list (list A)) (b : list (list B)) : result (list (list C)) :=
  match a, b with
  | [], [] => Ok []
  | r :: a', s :: b' =>
      (row <- zip_strict f r s ;;
       rest <- map2 f a' b' ;;
       Ok (row :: rest))%result
  | _, _ => Raise RuntimeError
  end.

(** [t.sum()]. *)
Definition sum (t : list (list Z)) : Z :=
  fold_right (fun row acc => (fold_right Z.add 0 row + acc)%Z) 0%Z t.

End Tensor.

Section Model.

Context {rng : Type} {TK : Tokenizer rng} {NW : Network}.

(** [predicted_tokens_dec != self.tokenizer.pad_id]. *)
Definition not_pad (predicted_tokens_dec : list (list Z)) : list (list bool) :=
  map (map (fun id => negb (id =? pad_id)%Z)) predicted_tokens_dec.

(** One turn of the loop of [decode].  ([gather_from_tensor_model_
    parallel_region] joins the vocabulary shards of the workers; on
    the joined logits it is the identity.) *)
Definition decode_step (tokens_enc enc_mask : list (list Z))
  (encoder_hidden_states : hidden) (predicted_tokens_dec : list (list Z))
  : result (list (list Z) * list (list logit)) :=
  (let dec_mask := not_pad predicted_tokens_dec in
   let logits := token_logits tokens_enc predicted_tokens_dec
                              enc_mask dec_mask encoder_hidden_states in
   let logits := Tensor.fill_from vocab_size logits in
   lt <- Tensor.max_dim2 (map (map log_softmax) logits) ;;
   col <- Tensor.last_column (snd lt) ;;
   predicted_tokens_dec <- Tensor.cat_column predicted_tokens_dec col ;;
   Ok (predicted_tokens_dec, fst lt))%result.

(** [for _ in range(n)]: the loop carries the token tensor and the
    last [log_probs], unbound before the first turn. *)
Fixpoint decode_loop (n : nat) (tokens_enc enc_mask : list (list Z))
  (encoder_hidden_states : hidden)
  (predicted_tokens_dec : list (list Z))
  (log_probs : option (list (list logit)))
  : result (list (list Z) * option (list (list logit))) :=
  match n with
  | O => Ok (predicted_tokens_dec, log_probs)
  | S n' =>
      (pl <- decode_step tokens_enc enc_mask encoder_hidden_states
                         predicted_tokens_dec ;;
       decode_loop n' tokens_enc enc_mask encoder_hidden_states
                   (fst pl) (Some (snd pl)))%result
  end.

(** The token tensor before the first turn:
    [LongTensor([bos_id] * tokens_enc.size(0)).unsqueeze(1)]. *)
Definition decode_init (tokens_enc : list (list Z)) : list (list Z) :=
  map (fun _ => [bos_id]) tokens_enc.

Definition decode (tokens_enc enc_mask : list (list Z))
  (num_tokens_to_generate : Z)
  : result (list (list Z) * list (list logit)) :=
  (let encoder_hidden_states := enc_output tokens_enc enc_mask in
   let predicted_tokens_dec := decode_init tokens_enc in
   pl <- decode_loop (Z.to_nat num_tokens_to_generate) tokens_enc enc_mask
                     encoder_hidden_states predicted_tokens_dec None ;;
   match snd pl with
   | None => Raise UnboundLocalError
   | Some log_probs => Ok (fst pl, log_probs)
   end)%result.

(** The body of the pruning loop of [sample_molecules], for one
    decoded sequence. *)
Definition prune (predicted_tokens_ : list Z) : result (list Z) :=
  if Py.contains eos_id predicted_tokens_ then
    (idx <- Py.index eos_id predicted_tokens_ ;;
     Ok (firstn idx predicted_tokens_))%result
  else
    Ok (filter (fun id => negb (id =? pad_id)%Z) predicted_tokens_).

(** [sample_molecules] up to the pruned id sequences. *)
Definition sample_token_ids (self : MegaMolBARTModel)
  (tokens_enc enc_mask : list (list Z)) : result (list (list Z)) :=
  (pl <- decode tokens_enc enc_mask (max_position_embeddings self) ;;
   rmap prune (fst pl))%result.

Definition sample_molecules (self : MegaMolBARTModel)
  (tokens_enc enc_mask : list (list Z)) : result (list string) :=
  (predicted_tokens_ids <- sample_token_ids self tokens_enc enc_mask ;;
   let predicted_tokens_text := ids_to_tokens predicted_tokens_ids in
   let sampled_smiles := tokens_to_text predicted_tokens_text in
   Ok sampled_smiles)%result.

End Model.

(** [calculate_character_accuracy] (a static method).  The entries of
    [loss_mask] are the floats 0.0 and 1.0, written as integers; the
    quotient of the two sums is a rational number. *)
Definition calculate_character_accuracy
  (token_logits : list (list (list logit)))
  (loss_mask labels : list (list Z)) : result Q :=
  (lt <- Tensor.max_dim2 token_logits ;;
   let predicted_tokens := snd lt in
   eqs <- Tensor.map2 (fun l p => if (l =? p)%Z then 1%Z else 0%Z)
                      labels predicted_tokens ;;
   correct_tokens <- Tensor.map2 Z.mul eqs loss_mask ;;
   let num_correct := Tensor.sum correct_tokens in
   let total := Tensor.sum loss_mask in
   if (total =? 0)%Z then Raise ZeroDivisionError
   else Ok (inject_Z num_correct / inject_Z total)%Q)%result.

(** ** Vocabulary of the statements *)

(** Entry [(i, j)] of a rank-two tensor, and the list of its positions
    in row-major order. *)
Definition entry {A} (t : list (list A)) (i j : nat) : option A :=
  match nth_error t i with
  | Some row => nth_error row j
  | None => None
  end.

Definition positions {A} (t : list (list A)) : list (nat * nat) :=
  flat_map (fun i => map (pair i) (seq 0 (length (nth i t []))))
           (seq 0 (length t)).

(** The width of a rank-two tensor: the length of its first row. *)
Definition width {A} (t : list (list A)) : nat :=
  match t with
  | [] => 0
  | row :: _ => length row
  end.

(** A position is active when the loss mask is 1 there; a prediction is
    correct at a position when it equals the label. *)
Definition active (loss_mask : list (list Z)) (p : nat * nat) : bool :=
  match entry loss_mask (fst p) (snd p) with
  | Some m => (m =? 1)%Z
  | None => false
  end.

Definition correct (predicted labels : list (list Z)) (p : nat * nat) : bool :=
  match entry predicted (fst p) (snd p), entry labels (fst p) (snd p) with
  | Some a, Some b => (a =? b)%Z
  | _, _ => false
  end.

Definition active_count (loss_mask : list (list Z)) : nat :=
  length (filter (active loss_mask) (positions loss_mask)).

Definition correct_count (predicted labels loss_mask : list (list Z)) : nat :=
  length (filter (fun p => active loss_mask p && correct predicted labels p)
                 (positions loss_mask)).

Definition binary (loss_mask : list (list Z)) : Prop :=
  Forall (Forall (fun m => m = 0%Z \/ m = 1%Z)) loss_mask.

Definition same_shape {A B} (a : list (list A)) (b : list (list B)) : Prop :=
  map (@length A) a = map (@length B) b.

(** A mask row or a boolean row that is active everywhere. *)
Definition all_active (row : list bool) : Prop :=
  Forall (fun b => b = true) row.

(** The reading of the decode loop under which no pad id is ever
    appended: after any number of turns, no sequence holds the pad id
    behind its first position and the recomputed mask is active
    everywhere. *)
Definition pad_never_appended : Prop :=
  forall (rng : Type) (TK : Tokenizer rng) (NW : Network)
         (tokens_enc enc_mask : list (list Z)) (k : nat)
         (predicted : list (list Z)) (lp : option (list (list logit))),
    decode_loop k tokens_enc enc_mask (enc_output tokens_enc enc_mask)
                (decode_init tokens_enc) None = Ok (predicted, lp) ->
    Forall (fun row => ~ In pad_id (tl row)) predicted /\
    Forall all_active (not_pad predicted).

(** The reading of trimming under which it is idempotent. *)
Definition prune_idempotent : Prop :=
  forall (rng : Type) (TK : Tokenizer rng) (l r : list Z),
    prune l = Ok r -> prune r = Ok r.

(** ** A small instance of the collaborators

    Strings stand for molecules, characters for tokens.  It is used to
    run the definitions on concrete batches. *)

Module Toy.

Definition canon (s : string) : string :=
  if String.eqb s "OCC" then "CCO"%string else s.

(** A molecule is its string and a flag telling that its atoms were
    renumbered; a renumbered molecule has no non-canonical rendering. *)
#[export] Instance codec : StructureCodec := {|
  Mol := string * bool;
  MolFromSmiles := fun s => if String.eqb s "" then None else Some (s, false);
  MolToSmiles := fun m canonical =>
    if canonical then Some (canon (fst m))
    else if snd m then None else Some (fst m);
  GetNumAtoms := fun m => String.length (fst m);
  RenumberAtoms := fun m _ => (fst m, true)
|}.

#[export] Instance random : RandomSource nat := {|
  shuffle := fun l s => (rev l, S s)
|}.

Definition id_of (c : ascii) : Z :=
  if Ascii.eqb c "C" then 4
  else if Ascii.eqb c "O" then 5
  else if Ascii.eqb c "c" then 6
  else if Ascii.eqb c "1" then 7
  else 1.

Definition char_of (z : Z) : ascii :=
  if (z =? 4)%Z then "C"
  else if (z =? 5)%Z then "O"
  else if (z =? 6)%Z then "c"
  else if (z =? 7)%Z then "1"
  else "?".

#[export] Instance tokenizer : Tokenizer nat := {|
  token := ascii;
  tokenize := fun smiles _ _ s =>
    let toks := map list_ascii_of_string smiles in
    ({| original_tokens := toks;
        masked_tokens := toks;
        token_masks := map (map (fun _ => false)) toks |}, s);
  token_to_id := id_of;
  ids_to_tokens := map (map char_of);
  tokens_to_text := map string_of_list_ascii;
  pad_id := 0;
  bos_id := 2;
  eos_id := 3;
  vocab_size := 8
|}.

(** A degenerate network: at every position the pad id has the
    largest logit among the vocabulary ids; the two ids beyond the
    vocabulary carry larger logits still. *)
Definition degenerate : Network := {|
  hidden := unit;
  enc_output := fun _ _ => tt;
  token_logits := fun _ dec_ids _ _ _ =>
    map (map (fun _ => [Fin 5; Fin 1; Fin 0; Fin 2; Fin 0;
                        Fin 0; Fin 0; Fin 0; Fin 9; Fin 9])) dec_ids;
  log_softmax := fun row => row
|}.

Definition one_hot (k : nat) : list logit :=
  map (fun i => if i =? k then Fin 1 else Fin 0) (seq 0 10).

(** A network that spells C, C, O and then the end-of-sequence id. *)
Definition speller : Network := {|
  hidden := unit;
  enc_output := fun _ _ => tt;
  token_logits := fun _ dec_ids _ _ _ =>
    map (fun row =>
           map (fun p => one_hot (match p with
                                  | 0 | 1 => 4
                                  | 2 => 5
                                  | _ => 3
                                  end)) (seq 0 (length row))) dec_ids;
  log_softmax := fun row => row
|}.

Definition enumeration : MoleculeEnumeration := {|
  seq_length := 4;
  encoder_augment := false;
  encoder_mask := false;
  decoder_augment := true;
  decoder_mask := false;
  canonicalize_input := true;
  pad_size_divisible_by_8 := true
|}.

Definition model : MegaMolBARTModel := {| max_position_embeddings := 5 |}.

(** A batch for the accuracy computation: ten active positions, the
    prediction wrong at position (1, 2) only. *)
Definition accuracy_labels : list (list Z) :=
  [[4; 4; 5; 3; 3; -1]; [6; 7; 6; 3; 3; -1]]%Z.

Definition accuracy_mask : list (list Z) :=
  [[1; 1; 1; 1; 1; 0]; [1; 1; 1; 1; 1; 0]]%Z.

Definition accuracy_logits : list (list (list logit)) :=
  [map one_hot [4; 4; 5; 3; 3; 0]; map one_hot [6; 7; 4; 3; 3; 0]].

End Toy.

(** The width to which [_pad_seqs] pads a non-empty batch, and the
    integers that fit an [int64] tensor. *)
Definition pad_width (self : MoleculeEnumeration) (seqs : list (list Z)) : nat :=
  let m := list_max (map (@length Z) seqs) in
  if pad_size_divisible_by_8 self then Py.ceil8 m else m.

Definition int64_ids {rng} (TK : Tokenizer rng) : Prop :=
  (forall t : token, Torch.int64_ok (token_to_id t) = true) /\
  Torch.int64_ok pad_id = true /\
  Torch.int64_ok bos_id = true /\
  Torch.int64_ok eos_id = true.

(** The rows that [_pad_seqs] builds for a sequence padded to width
    [W], and a label row whose padding carries the sentinel. *)
Definition pad_row (W : nat) (pad_token : Z) (seq : list Z) : list Z :=
  seq ++ repeat pad_token (W - length seq).

Definition mask_row (W : nat) (seq : list Z) : list Z :=
  repeat 1%Z (length seq) ++ repeat 0%Z (W - length seq).

(** The batch that [collate_fn] assembles from the two dictionaries
    returned by [_prepare_tokens], in closed form. *)
Definition collated {rng} {TK : Tokenizer rng} (self : MoleculeEnumeration)
  (label_pad : Z) (encoder_dict decoder_dict : prepared token)
  : collate_output :=
  let enc_ids := convert_tokens_to_ids (tokens encoder_dict) in
  let dec_ids := convert_tokens_to_ids (tokens decoder_dict) in
  let dec_in := map (fun example => bos_id :: example) dec_ids in
  let label_ids := map (fun example => example ++ [eos_id]) dec_ids in
  {| text_enc := map (pad_row (pad_width self enc_ids) pad_id) enc_ids;
     enc_mask := map (mask_row (pad_width self enc_ids)) enc_ids;
     text_dec := map (pad_row (pad_width self dec_in) pad_id) dec_in;
     dec_mask := map (mask_row (pad_width self dec_in)) dec_in;
     labels := map (pad_row (pad_width self label_ids) label_pad) label_ids;
     loss_mask := map (mask_row (pad_width self label_ids)) label_ids;
     batch_target_smiles := target_smiles encoder_dict |}.

(** What a computation returns or raises, the random state left aside. *)
Definition outcome {S A} (r : result (A * S)) : result A :=
  match r with
  | Ok (a, _) => Ok a
  | Raise e => Raise e
  end.

(** A network whose logits have the shape of a tensor: whenever every
    row of the decoder input holds at least one id (the rows that
    [decode] passes start with [bos_id]), there is one entry for each
    batch item, at least one position for each item and at least one
    vocabulary id at each position; [log_softmax] keeps the length of a
    row. *)
Definition well_shaped (NW : Network) : Prop :=
  (forall enc dec emask dmask h,
     Forall (fun row => row <> []) dec ->
     length (token_logits enc dec emask dmask h) = length dec /\
     Forall (fun positions =>
               positions <> [] /\ Forall (fun row => row <> []) positions)
            (token_logits enc dec emask dmask h)) /\
  (forall row, length (log_softmax row) = length row).

(** ** [MegaMolBARTModel]: molecular accuracy and the metrics *)

(** [enumerate(l)] and [sum(flags)] on a list of Python booleans. *)
Definition enumerate {A} (l : list A) : list (nat * A) :=
  combine (seq 0 (length l)) l.

Definition count_true (flags : list bool) : nat :=
  length (filter (fun b : bool => b) flags).

(** The dictionary returned by [calculate_metrics]. *)
Record metrics : Type := {
  character_accuracy : Q;
  molecular_accuracy : Q;
  percent_invalid : Q
}.

Section Metrics.

Context {rng : Type} {SC : StructureCodec} {TK : Tokenizer rng} {NW : Network}.

(** [calculate_molecular_accuracy]; the pair is
    [(molecular_accuracy, percent_invalid)], two quotients of integers. *)
Definition calculate_molecular_accuracy (self : MegaMolBARTModel)
  (tokens_enc enc_mask : list (list Z)) (target_smiles : list string)
  : result (Q * Q) :=
  (sampled_smiles <- sample_molecules self tokens_enc enc_mask ;;
   let sampled_mols := map MolFromSmiles sampled_smiles in
   let invalid := map (fun mol : option Mol =>
                         match mol with None => true | Some _ => false end)
                      sampled_mols in
   canonical_smiles <-
     rmap (fun mol : option Mol =>
             match mol with
             | None => Ok "Unknown"%string
             | Some _ => render mol true
             end) sampled_mols ;;
   correct_smiles <-
     rmap (fun item : nat * string =>
             match nth_error target_smiles (fst item) with
             | Some target => Ok (String.eqb target (snd item))
             | None => Raise IndexError
             end) (enumerate canonical_smiles) ;;
   let num_correct := count_true correct_smiles in
   let total := length correct_smiles in
   let num_invalid := count_true invalid in
   if total =? 0 then Raise ZeroDivisionError
   else
     let percent_invalid :=
       (inject_Z (Z.of_nat num_invalid) / inject_Z (Z.of_nat total))%Q in
     let molecular_accuracy :=
       (inject_Z (Z.of_nat num_correct) / inject_Z (Z.of_nat total))%Q in
     Ok (molecular_accuracy, percent_invalid))%result.

Definition calculate_metrics (self : MegaMolBARTModel)
  (token_logits : list (list (list logit))) (loss_mask labels : list (list Z))
  (tokens_enc enc_mask : list (list Z)) (target_smiles : list string)
  : result metrics :=
  (character_accuracy <-
     calculate_character_accuracy token_logits loss_mask labels ;;
   mp <- calculate_molecular_accuracy self tokens_enc enc_mask target_smiles ;;
   Ok {| character_accuracy := character_accuracy;
         molecular_accuracy := fst mp;
         percent_invalid := snd mp |})%result.

End Metrics.

(** ** More vocabulary of the statements *)

(** The entries of a row at the positions where the mask is 1
    (torch's [row[mask.bool()]]). *)
Definition masked_select (row mask : list Z) : list Z :=
  map fst (filter (fun xm : Z * Z => (snd xm =? 1)%Z) (combine row mask)).

(** A tokenizer that answers one token sequence (and one mask) for each
    string it is given. *)
Definition one_sequence_per_string {rng} (TK : Tokenizer rng) : Prop :=
  forall smiles pad mask_data s,
    length (original_tokens (fst (tokenize smiles pad mask_data s)))
    = length smiles /\
    length (masked_tokens (fst (tokenize smiles pad mask_data s)))
    = length smiles /\
    length (token_masks (fst (tokenize smiles pad mask_data s)))
    = length smiles.

(** A [log_softmax] that keeps the length of a row and leaves [-inf]
    where the logit is [-inf]. *)
Definition keeps_neg_inf (NW : Network) : Prop :=
  forall row,
    length (log_softmax row) = length row /\
    forall i, nth_error row i = Some NegInf ->
              nth_error (log_softmax row) i = Some NegInf.

(** One list is the other with some entries deleted. *)
Inductive sublist {A} : list A -> list A -> Prop :=
| sublist_nil : sublist [] []
| sublist_keep x l l' : sublist l l' -> sublist (x :: l) (x :: l')
| sublist_drop x l l' : sublist l l' -> sublist l (x :: l').

(** The rounding of a width by [_pad_seqs]. *)
Definition round_width (self : MoleculeEnumeration) (n : nat) : nat :=
  if pad_size_divisible_by_8 self then Py.ceil8 n else n.

(** * Properties *)

(** ** The monads *)

Lemma rbind_Ok {A B} (r : result A) (k : A -> result B) (b : B) :
  rbind r k = Ok b -> exists a, r = Ok a /\ k a = Ok b.
Proof.
  destruct r as [a|e]; simpl; intros H; [eauto | discriminate].
Qed.

Lemma mbind_Ok {S A B} (m : M S A) (k : A -> M S B) s b s' :
  mbind m k s = Ok (b, s') ->
  exists a s1, m s = Ok (a, s1) /\ k a s1 = Ok (b, s').
Proof.
  unfold mbind. destruct (m s) as [[a s1]|e]; intros H; [eauto | discriminate].
Qed.

Lemma mlift_Ok {S A} (r : result A) (s : S) a s' :
  mlift r s = Ok (a, s') -> r = Ok a /\ s' = s.
Proof.
  unfold mlift. destruct r; intros H; inversion H; auto.
Qed.

Lemma rmap_Ok_length {A B} (f : A -> result B) l l' :
  rmap f l = Ok l' -> length l' = length l.
Proof.
  revert l'. induction l as [|x xs IH]; simpl; intros l' H.
  - inversion H. reflexivity.
  - apply rbind_Ok in H as (y & _ & H).
    apply rbind_Ok in H as (ys & Hys & H).
    inversion H; subst. simpl. f_equal. auto.
Qed.

Lemma rmap_Ok_Forall2 {A B} (f : A -> result B) l l' :
  rmap f l = Ok l' -> Forall2 (fun x y => f x = Ok y) l l'.
Proof.
  revert l'. induction l as [|x xs IH]; simpl; intros l' H.
  - inversion H. constructor.
  - apply rbind_Ok in H as (y & Hy & H).
    apply rbind_Ok in H as (ys & Hys & H).
    inversion H; subst. constructor; auto.
Qed.

Lemma rmap_total {A B} (f : A -> result B) (g : A -> B) l :
  (forall x, In x l -> f x = Ok (g x)) -> rmap f l = Ok (map g l).
Proof.
  induction l as [|x xs IH]; simpl; intros H; [reflexivity|].
  rewrite (H x) by auto. simpl. rewrite IH by auto. reflexivity.
Qed.

(** ** Python lists *)

Lemma slice_to_nonneg {A} (l : list A) (n : Z) :
  (0 <= n)%Z -> Py.slice_to l n = firstn (Z.to_nat n) l.
Proof.
  intros H. unfold Py.slice_to.
  destruct (Z.leb_spec 0 n); [reflexivity | lia].
Qed.

Lemma py_max_nonempty (l : list nat) :
  l <> [] -> Py.max l = Ok (list_max l).
Proof.
  destruct l; [contradiction | reflexivity].
Qed.

Lemma list_max_exceeds (l : list nat) (n : nat) :
  n < list_max l <-> exists x, In x l /\ n < x.
Proof.
  induction l as [|y ys IH]; simpl.
  - split; [lia | intros (x & [] & _)].
  - split.
    + intros H. destruct (Nat.max_spec y (list_max ys)) as [[_ E]|[_ E]];
        rewrite E in H.
      * apply IH in H as (x & Hx & Hn). eauto.
      * exists y. auto.
    + intros (x & [->|Hx] & Hn).
      * lia.
      * assert (n < list_max ys) by (apply IH; eauto). lia.
Qed.

Lemma list_max_ge (l : list nat) (x : nat) : In x l -> x <= list_max l.
Proof.
  intros H. destruct (Nat.le_gt_cases x (list_max l)) as [|Hlt]; [assumption|].
  assert (list_max l < list_max l); [|lia].
  apply list_max_exceeds. exists x. split; [assumption|lia].
Qed.

Lemma ceil8_ge (n : nat) : n <= Py.ceil8 n.
Proof.
  unfold Py.ceil8.
  pose proof (Nat.div_mod_eq (n + 7) 8) as E.
  pose proof (Nat.mod_upper_bound (n + 7) 8) as B. lia.
Qed.

Lemma ceil8_multiple (n : nat) : exists k, Py.ceil8 n = 8 * k.
Proof.
  exists ((n + 7) / 8). unfold Py.ceil8. lia.
Qed.

Lemma ceil8_least (n k : nat) : n <= 8 * k -> Py.ceil8 n <= 8 * k.
Proof.
  intros H. unfold Py.ceil8.
  assert ((n + 7) / 8 < S k); [|lia].
  apply Nat.Div0.div_lt_upper_bound. lia.
Qed.

Lemma nth_error_repeat_Some {A} (x y : A) (n j : nat) :
  nth_error (repeat x n) j = Some y -> y = x /\ j < n.
Proof.
  revert j. induction n as [|n IH]; intros [|j]; simpl; intros H;
    try discriminate.
  - inversion H. split; [reflexivity | lia].
  - apply IH in H as [-> Hj]. split; [reflexivity | lia].
Qed.

Lemma nth_error_repeat_lt {A} (x : A) (n j : nat) :
  j < n -> nth_error (repeat x n) j = Some x.
Proof.
  revert j. induction n as [|n IH]; intros [|j] H; simpl;
    [lia | lia | reflexivity | apply IH; lia].
Qed.

Lemma nth_error_map_Some {A B} (f : A -> B) l i y :
  nth_error (map f l) i = Some y ->
  exists x, nth_error l i = Some x /\ y = f x.
Proof.
  revert i. induction l as [|a l IH]; intros [|i]; simpl; intros H;
    try discriminate.
  - inversion H. eauto.
  - auto.
Qed.

Lemma count_occ_repeat_eq (x : Z) (n : nat) :
  count_occ Z.eq_dec (repeat x n) x = n.
Proof.
  induction n as [|n IH]; simpl; [reflexivity|].
  destruct (Z.eq_dec x x); [lia | contradiction].
Qed.

Lemma count_occ_repeat_neq (x y : Z) (n : nat) :
  x <> y -> count_occ Z.eq_dec (repeat x n) y = 0.
Proof.
  intros H. induction n as [|n IH]; simpl; [reflexivity|].
  destruct (Z.eq_dec x y); [contradiction | assumption].
Qed.

(** ** [_check_seq_len] *)

(** C2.  On a non-empty batch, [_check_seq_len] truncates exactly when
    some sequence of the batch (hence the batch maximum) is longer than
    [seq_length]; every sequence and every mask is then cut to its
    first [seq_length] positions, also those that were short enough.
    When no sequence is longer than [seq_length], tokens and masks come
    back unchanged.  ([seq_length] is a length; for a negative cap the
    slice [ts[:seq_length]] would count from the end.) *)
Theorem check_seq_len_batch_truncation {T U : Type}
  (self : MoleculeEnumeration) (tokens : list (list T)) (mask : list (list U)) :
  tokens <> [] ->
  ((exists ts, In ts tokens /\ (seq_length self < Z.of_nat (length ts))%Z) ->
   (0 <= seq_length self)%Z ->
   _check_seq_len self tokens mask
   = Ok (map (firstn (Z.to_nat (seq_length self))) tokens,
         map (firstn (Z.to_nat (seq_length self))) mask)) /\
  ((forall ts, In ts tokens -> (Z.of_nat (length ts) <= seq_length self)%Z) ->
   _check_seq_len self tokens mask = Ok (tokens, mask)).
Proof.
  intros Hne. unfold _check_seq_len.
  rewrite py_max_nonempty by (destruct tokens; [contradiction | discriminate]).
  simpl rbind. split.
  - intros (ts & Hin & Hlong) Hcap.
    assert (Hmax : (seq_length self
                    < Z.of_nat (list_max (map (@length T) tokens)))%Z).
    { assert (length ts <= list_max (map (@length T) tokens))
        by (apply list_max_ge, in_map, Hin). lia. }
    apply Z.ltb_lt in Hmax. rewrite Hmax. f_equal. f_equal.
    + apply map_ext. intros a. apply slice_to_nonneg, Hcap.
    + apply map_ext. intros a. apply slice_to_nonneg, Hcap.
  - intros Hshort.
    assert (Hle : (Z.of_nat (list_max (map (@length T) tokens))
                   <= seq_length self)%Z).
    { destruct (Z.le_gt_cases
                  (Z.of_nat (list_max (map (@length T) tokens)))
                  (seq_length self)) as [|Hlt]; [assumption|].
      exfalso.
      assert (Hcap : (0 <= seq_length self)%Z).
      { destruct tokens as [|t0 rest]; [contradiction|].
        specialize (Hshort t0 (or_introl eq_refl)). lia. }
      assert (Hex : exists x, In x (map (@length T) tokens)
                              /\ Z.to_nat (seq_length self) < x).
      { apply list_max_exceeds. lia. }
      destruct Hex as (x & Hx & Hn). apply in_map_iff in Hx as (ts & <- & Hin).
      specialize (Hshort ts Hin). lia. }
    apply Z.ltb_ge in Hle. rewrite Hle. reflexivity.
Qed.

Lemma check_seq_len_batch_truncation_witness :
  _check_seq_len Toy.enumeration
    [[4; 4; 5]; [6; 7; 6; 6; 6]]%Z
    [[true; true; true]; [true; true; true; true; true]]
  = Ok ([[4; 4; 5]; [6; 7; 6; 6]]%Z,
        [[true; true; true]; [true; true; true; true]]).
Proof.
  apply (proj1 (@check_seq_len_batch_truncation Z bool Toy.enumeration
                  [[4; 4; 5]; [6; 7; 6; 6; 6]]%Z
                  [[true; true; true]; [true; true; true; true; true]]
                  ltac:(discriminate))).
  - exists [6; 7; 6; 6; 6]%Z. split; [simpl; auto | simpl; lia].
  - simpl. lia.
Defined.

(** ** [_pad_seqs] *)

Lemma pad_width_ge (self : MoleculeEnumeration) (seqs : list (list Z)) seq :
  In seq seqs -> length seq <= pad_width self seqs.
Proof.
  intros Hin. unfold pad_width.
  assert (length seq <= list_max (map (@length Z) seqs))
    by (apply list_max_ge, in_map, Hin).
  destruct (pad_size_divisible_by_8 self); [|assumption].
  etransitivity; [eassumption | apply ceil8_ge].
Qed.

Lemma pad_width_multiple (self : MoleculeEnumeration) (seqs : list (list Z)) :
  pad_size_divisible_by_8 self = true -> exists k, pad_width self seqs = 8 * k.
Proof.
  intros H. unfold pad_width. rewrite H. apply ceil8_multiple.
Qed.

Lemma pad_seqs_eq (self : MoleculeEnumeration) (seqs : list (list Z)) pad_token :
  seqs <> [] ->
  _pad_seqs self seqs pad_token
  = Ok (map (pad_row (pad_width self seqs) pad_token) seqs,
        map (mask_row (pad_width self seqs)) seqs).
Proof.
  intros Hne. unfold _pad_seqs.
  rewrite py_max_nonempty by (destruct seqs; [contradiction | discriminate]).
  reflexivity.
Qed.

Lemma pad_seqs_Ok_nonempty (self : MoleculeEnumeration) seqs pad_token r :
  _pad_seqs self seqs pad_token = Ok r -> seqs <> [].
Proof.
  intros H ->. discriminate H.
Qed.

Lemma pad_row_length W pad_token seq :
  length seq <= W -> length (pad_row W pad_token seq) = W.
Proof.
  intros H. unfold pad_row. rewrite length_app, repeat_length. lia.
Qed.

Lemma mask_row_length W seq :
  length seq <= W -> length (mask_row W seq) = W.
Proof.
  intros H. unfold mask_row. rewrite length_app, !repeat_length. lia.
Qed.

Lemma mask_row_entry W seq j m :
  nth_error (mask_row W seq) j = Some m ->
  (j < length seq /\ m = 1%Z) \/ (length seq <= j /\ m = 0%Z).
Proof.
  unfold mask_row. intros H.
  destruct (Nat.lt_ge_cases j (length seq)) as [Hlt|Hge].
  - rewrite nth_error_app1 in H by (rewrite repeat_length; assumption).
    apply nth_error_repeat_Some in H as [-> _]. auto.
  - rewrite nth_error_app2 in H by (rewrite repeat_length; assumption).
    apply nth_error_repeat_Some in H as [-> _]. auto.
Qed.

Lemma mask_row_zeros W seq :
  count_occ Z.eq_dec (mask_row W seq) 0%Z = W - length seq.
Proof.
  unfold mask_row. rewrite count_occ_app, count_occ_repeat_eq.
  rewrite count_occ_repeat_neq by discriminate. reflexivity.
Qed.

Lemma pad_row_pads W pad_token seq :
  ~ In pad_token seq ->
  count_occ Z.eq_dec (pad_row W pad_token seq) pad_token = W - length seq.
Proof.
  intros H. unfold pad_row. rewrite count_occ_app, count_occ_repeat_eq.
  apply (count_occ_not_In Z.eq_dec) in H. rewrite H. reflexivity.
Qed.

Lemma rectangular_const_length {A} (rows : list (list A)) (W : nat) :
  Forall (fun row => length row = W) rows -> Torch.rectangular rows = true.
Proof.
  intros H. destruct rows as [|r rs]; [reflexivity|]. simpl.
  inversion H as [|? ? Hr Hrs]; subst. apply forallb_forall.
  intros r' Hin. rewrite Forall_forall in Hrs.
  apply Nat.eqb_eq. auto.
Qed.

Lemma tensor_Ok (rows : list (list Z)) (W : nat) :
  Forall (fun row => length row = W) rows ->
  Forall (Forall (fun z => Torch.int64_ok z = true)) rows ->
  Torch.tensor rows = Ok rows.
Proof.
  intros Hrect Hrange. unfold Torch.tensor.
  rewrite (rectangular_const_length Hrect). simpl.
  assert (E : forallb (forallb Torch.int64_ok) rows = true).
  { apply forallb_forall. intros row Hin. apply forallb_forall.
    intros z Hz. rewrite Forall_forall in Hrange.
    specialize (Hrange row Hin). rewrite Forall_forall in Hrange. auto. }
  rewrite E. reflexivity.
Qed.

Lemma padded_rows_length (self : MoleculeEnumeration) seqs pad_token :
  Forall (fun row => length row = pad_width self seqs)
         (map (pad_row (pad_width self seqs) pad_token) seqs).
Proof.
  apply Forall_forall. intros row Hin.
  apply in_map_iff in Hin as (seq & <- & Hin).
  apply pad_row_length, pad_width_ge, Hin.
Qed.

Lemma mask_rows_length (self : MoleculeEnumeration) seqs :
  Forall (fun row => length row = pad_width self seqs)
         (map (mask_row (pad_width self seqs)) seqs).
Proof.
  apply Forall_forall. intros row Hin.
  apply in_map_iff in Hin as (seq & <- & Hin).
  apply mask_row_length, pad_width_ge, Hin.
Qed.

Lemma padded_rows_int64 W seqs pad_token :
  Torch.int64_ok pad_token = true ->
  Forall (Forall (fun z => Torch.int64_ok z = true)) seqs ->
  Forall (Forall (fun z => Torch.int64_ok z = true))
         (map (pad_row W pad_token) seqs).
Proof.
  intros Hpad Hseqs. apply Forall_forall. intros row Hin.
  apply in_map_iff in Hin as (seq & <- & Hin).
  rewrite Forall_forall in Hseqs. specialize (Hseqs seq Hin).
  unfold pad_row. apply Forall_app. split; [assumption|].
  apply Forall_forall. intros z Hz. apply repeat_spec in Hz. subst. assumption.
Qed.

Lemma mask_rows_int64 W (seqs : list (list Z)) :
  Forall (Forall (fun z => Torch.int64_ok z = true)) (map (mask_row W) seqs).
Proof.
  apply Forall_forall. intros row Hin.
  apply in_map_iff in Hin as (seq & <- & Hin).
  unfold mask_row. apply Forall_app.
  split; apply Forall_forall; intros z Hz; apply repeat_spec in Hz; subst;
    reflexivity.
Qed.

(** Padding followed by the two tensor constructions of [collate_fn]. *)
Lemma pad_and_tensor (self : MoleculeEnumeration) seqs pad_token :
  seqs <> [] ->
  Torch.int64_ok pad_token = true ->
  Forall (Forall (fun z => Torch.int64_ok z = true)) seqs ->
  _pad_seqs self seqs pad_token
  = Ok (map (pad_row (pad_width self seqs) pad_token) seqs,
        map (mask_row (pad_width self seqs)) seqs) /\
  Torch.tensor (map (pad_row (pad_width self seqs) pad_token) seqs)
  = Ok (map (pad_row (pad_width self seqs) pad_token) seqs) /\
  Torch.tensor (map (mask_row (pad_width self seqs)) seqs)
  = Ok (map (mask_row (pad_width self seqs)) seqs).
Proof.
  intros Hne Hpad Hseqs. split; [apply pad_seqs_eq, Hne|]. split.
  - eapply tensor_Ok;
      [apply padded_rows_length | apply padded_rows_int64; assumption].
  - eapply tensor_Ok; [apply mask_rows_length | apply mask_rows_int64].
Qed.

(** Filling the label tensor where the loss mask is zero. *)
Lemma fill_padding (pad_token v : Z) (seq : list Z) (k : nat) :
  map (fun xm : Z * Z => if (snd xm =? 0)%Z then v else fst xm)
      (combine (seq ++ repeat pad_token k)
               (repeat 1%Z (length seq) ++ repeat 0%Z k))
  = seq ++ repeat v k.
Proof.
  induction seq as [|x xs IH]; simpl.
  - induction k as [|k IH]; simpl; [reflexivity | f_equal; exact IH].
  - f_equal. exact IH.
Qed.

Lemma fill_row W pad_token v seq :
  map (fun xm : Z * Z => if (snd xm =? 0)%Z then v else fst xm)
      (combine (pad_row W pad_token seq) (mask_row W seq))
  = pad_row W v seq.
Proof.
  apply fill_padding.
Qed.

Lemma fill_rows W pad_token v seqs :
  Torch.int64_ok v = true ->
  Torch.fill_where_zero (map (pad_row W pad_token) seqs)
                        (map (mask_row W) seqs) v
  = Ok (map (pad_row W v) seqs).
Proof.
  intros Hv. unfold Torch.fill_where_zero. rewrite Hv. simpl. f_equal.
  induction seqs as [|seq rest IH]; simpl; [reflexivity|].
  rewrite fill_row. f_equal. exact IH.
Qed.

(** ** [collate_fn] *)

Lemma mbind_mlift {S A B} (r : result A) (k : A -> M S B) (a : A) (s : S) :
  r = Ok a -> mbind (mlift r) k s = k a s.
Proof.
  intros ->. reflexivity.
Qed.

Lemma mbind_step {S A B} (m : M S A) (k : A -> M S B) (a : A) (s s' : S) :
  m s = Ok (a, s') -> mbind m k s = k a s'.
Proof.
  intros H. unfold mbind. rewrite H. reflexivity.
Qed.

Section CollateFacts.

Context {rng : Type} {RS : RandomSource rng}.
Context {SC : StructureCodec} {TK : Tokenizer rng}.
Variable self : MoleculeEnumeration.

(** A batch that [_prepare_tokens] returns is not empty: the length
    check takes the maximum over its sequences. *)
Lemma prepare_tokens_nonempty batch augment_data mask_data s d s' :
  _prepare_tokens self batch augment_data mask_data s = Ok (d, s') ->
  tokens d <> [].
Proof.
  unfold _prepare_tokens. intros H.
  apply mbind_Ok in H as (smiles_list & s1 & _ & H).
  apply mbind_Ok in H as (out & s2 & _ & H).
  apply mbind_Ok in H as (tm & s3 & Hc & H).
  inversion H; subst; clear H. simpl.
  apply mlift_Ok in Hc as [Hc _]. unfold _check_seq_len in Hc.
  apply rbind_Ok in Hc as (n & Hmax & Hc).
  destruct (fst (if mask_data then _ else _)) as [|t0 rest] eqn:E;
    [discriminate Hmax|].
  destruct (seq_length self <? Z.of_nat n)%Z; inversion Hc; subst; simpl;
    discriminate.
Qed.

Lemma convert_nonempty (toks : list (list token)) :
  toks <> [] -> convert_tokens_to_ids toks <> [].
Proof.
  destruct toks; [contradiction | discriminate].
Qed.

Lemma convert_int64 (toks : list (list token)) :
  int64_ids TK ->
  Forall (Forall (fun z => Torch.int64_ok z = true))
         (convert_tokens_to_ids toks).
Proof.
  intros (Hid & _). unfold convert_tokens_to_ids.
  apply Forall_forall. intros row Hin.
  apply in_map_iff in Hin as (ts & <- & _).
  apply Forall_forall. intros z Hz.
  apply in_map_iff in Hz as (t & <- & _). apply Hid.
Qed.

Variables (batch : list string) (label_pad : Z) (s s1 s2 : rng).
Variables (encoder_dict decoder_dict : prepared token).

Hypothesis Henc :
  _prepare_tokens self batch (encoder_augment self) (encoder_mask self) s
  = Ok (encoder_dict, s1).
Hypothesis Hdec :
  _prepare_tokens self batch (decoder_augment self) (decoder_mask self) s1
  = Ok (decoder_dict, s2).
Hypothesis Hids : int64_ids TK.
Hypothesis Hlabel_pad : Torch.int64_ok label_pad = true.

(** When both preparations succeed and the ids fit 64 bits,
    [collate_fn] returns, and returns the closed form. *)
Lemma collate_fn_eq :
  collate_fn self batch label_pad s
  = Ok (collated self label_pad encoder_dict decoder_dict, s2).
Proof.
  pose proof (convert_nonempty (prepare_tokens_nonempty _ _ _ _ Henc)) as Hne.
  pose proof (convert_nonempty (prepare_tokens_nonempty _ _ _ _ Hdec)) as Hnd.
  pose proof (convert_int64 (tokens encoder_dict) Hids) as Hie.
  pose proof (convert_int64 (tokens decoder_dict) Hids) as Hid.
  destruct Hids as (_ & Hpad & Hbos & Heos).
  set (enc_ids := convert_tokens_to_ids (tokens encoder_dict)) in *.
  set (dec_ids := convert_tokens_to_ids (tokens decoder_dict)) in *.
  assert (Hin : Forall (Forall (fun z => Torch.int64_ok z = true))
                       (map (fun example => bos_id :: example) dec_ids)).
  { apply Forall_forall. intros row Hr.
    apply in_map_iff in Hr as (ex & <- & Hex).
    rewrite Forall_forall in Hid. constructor; auto. }
  assert (Hil : Forall (Forall (fun z => Torch.int64_ok z = true))
                       (map (fun example => example ++ [eos_id]) dec_ids)).
  { apply Forall_forall. intros row Hr.
    apply in_map_iff in Hr as (ex & <- & Hex).
    rewrite Forall_forall in Hid. apply Forall_app. split; auto. }
  assert (Hnin : map (fun example => bos_id :: example) dec_ids <> [])
    by (destruct dec_ids; [contradiction | discriminate]).
  assert (Hnl : map (fun example => example ++ [eos_id]) dec_ids <> [])
    by (destruct dec_ids; [contradiction | discriminate]).
  destruct (@pad_and_tensor self _ _ Hne Hpad Hie) as (Pe & Te & Me).
  destruct (@pad_and_tensor self _ _ Hnin Hpad Hin) as (Pd & Td & Md).
  destruct (@pad_and_tensor self _ _ Hnl Hpad Hil) as (Pl & Tl & Ml).
  unfold collate_fn.
  rewrite (@mbind_step _ _ _ _ _ _ _ _ Henc).
  rewrite (@mbind_mlift _ _ _ _ _ _ _ Pe). simpl fst. simpl snd.
  rewrite (@mbind_mlift _ _ _ _ _ _ _ Te), (@mbind_mlift _ _ _ _ _ _ _ Me).
  rewrite (@mbind_step _ _ _ _ _ _ _ _ Hdec).
  rewrite (@mbind_mlift _ _ _ _ _ _ _ Pd). simpl fst. simpl snd.
  rewrite (@mbind_mlift _ _ _ _ _ _ _ Td), (@mbind_mlift _ _ _ _ _ _ _ Md).
  rewrite (@mbind_mlift _ _ _ _ _ _ _ Pl). simpl fst. simpl snd.
  rewrite (@mbind_mlift _ _ _ _ _ _ _ Tl), (@mbind_mlift _ _ _ _ _ _ _ Ml).
  rewrite (@mbind_mlift _ _ _ _ _ _ _ (@fill_rows _ _ _ _ Hlabel_pad)).
  reflexivity.
Qed.

End CollateFacts.

Lemma entry_map {A B} (f : list A -> list B) (t : list (list A)) (i j : nat) :
  entry (map f t) i j
  = match nth_error t i with
    | Some row => nth_error (f row) j
    | None => None
    end.
Proof.
  unfold entry. rewrite nth_error_map. destruct (nth_error t i); reflexivity.
Qed.

Lemma width_map_nonempty {A B} (f : list A -> list B) (t : list (list A)) W :
  t <> [] -> (forall row, In row t -> length (f row) = W) ->
  width (map f t) = W.
Proof.
  destruct t as [|r rs]; [contradiction|]. intros _ H. simpl. apply H.
  left. reflexivity.
Qed.

Lemma pad_row_entry W v seq j :
  length seq <= j -> j < W -> nth_error (pad_row W v seq) j = Some v.
Proof.
  intros Hge Hlt. unfold pad_row. rewrite nth_error_app2 by assumption.
  apply nth_error_repeat_lt. lia.
Qed.

Lemma pad_row_entry_seq W v seq j :
  j < length seq -> nth_error (pad_row W v seq) j = nth_error seq j.
Proof.
  intros Hlt. unfold pad_row. apply nth_error_app1, Hlt.
Qed.

Lemma toy_int64_ids : int64_ids Toy.tokenizer.
Proof.
  split; [|repeat split].
  intros t. simpl. unfold Toy.id_of.
  repeat match goal with
         | |- context [Ascii.eqb ?a ?b] => destruct (Ascii.eqb a b)
         end; reflexivity.
Defined.

(** C1.  Whenever both token preparations succeed (the ids fitting 64
    bits), [collate_fn] returns a batch in which, at every position
    [(i, j)] of [loss_mask], the mask is 0 or 1; where it is 0 the label
    is [label_pad]; where it is 1 the label is entry [j] of row [i] of
    the decoder token ids followed by [eos_id]. *)
Theorem collate_labels_follow_loss_mask
  {rng : Type} {RS : RandomSource rng} {SC : StructureCodec}
  {TK : Tokenizer rng} (self : MoleculeEnumeration) (batch : list string)
  (label_pad : Z) (s s1 s2 : rng) (encoder_dict decoder_dict : prepared token) :
  _prepare_tokens self batch (encoder_augment self) (encoder_mask self) s
  = Ok (encoder_dict, s1) ->
  _prepare_tokens self batch (decoder_augment self) (decoder_mask self) s1
  = Ok (decoder_dict, s2) ->
  int64_ids TK ->
  Torch.int64_ok label_pad = true ->
  exists out,
    collate_fn self batch label_pad s = Ok (out, s2) /\
    same_shape (labels out) (loss_mask out) /\
    length (labels out)
    = length (convert_tokens_to_ids (tokens decoder_dict)) /\
    forall i j m,
      entry (loss_mask out) i j = Some m ->
      (m = 0%Z /\ entry (labels out) i j = Some label_pad) \/
      (m = 1%Z /\
       exists ids t,
         nth_error (convert_tokens_to_ids (tokens decoder_dict)) i = Some ids /\
         nth_error (ids ++ [eos_id]) j = Some t /\
         entry (labels out) i j = Some t).
Proof.
  intros Henc Hdec Hids Hlp.
  exists (collated self label_pad encoder_dict decoder_dict).
  split; [eapply collate_fn_eq; eassumption|].
  unfold collated. simpl.
  set (dec_ids := convert_tokens_to_ids (tokens decoder_dict)).
  set (label_ids := map (fun example => example ++ [eos_id]) dec_ids).
  set (W := pad_width self label_ids).
  assert (HW : forall seq, In seq label_ids -> length seq <= W)
    by (intros seq; apply pad_width_ge).
  split; [|split].
  - unfold same_shape. rewrite !map_map. apply map_ext_in. intros seq Hin.
    rewrite pad_row_length, mask_row_length by auto. reflexivity.
  - unfold label_ids. rewrite !length_map. reflexivity.
  - intros i j m. rewrite !entry_map.
    destruct (nth_error label_ids i) as [seq|] eqn:Ei; [|discriminate].
    assert (Hin : In seq label_ids) by (eapply nth_error_In; eassumption).
    unfold label_ids in Ei. apply nth_error_map_Some in Ei as (ids & Ei & ->).
    intros Hm.
    assert (Hj : j < length (mask_row W (ids ++ [eos_id])))
      by (apply nth_error_Some; congruence).
    rewrite mask_row_length in Hj by auto.
    apply mask_row_entry in Hm as [[Hlt ->]|[Hge ->]].
    + right. split; [reflexivity|].
      destruct (nth_error (ids ++ [eos_id]) j) as [t|] eqn:Et.
      * exists ids, t. split; [assumption|]. split; [exact Et|].
        rewrite pad_row_entry_seq by assumption. exact Et.
      * apply nth_error_None in Et. lia.
    + left. split; [reflexivity|]. apply pad_row_entry; assumption.
Qed.

Lemma collate_labels_follow_loss_mask_witness :
  exists out,
    @collate_fn nat Toy.random Toy.codec Toy.tokenizer Toy.enumeration
                ["CCO"; "c1ccccc1"]%string (-1)%Z 0 = Ok (out, 2).
Proof.
  edestruct (@collate_labels_follow_loss_mask nat Toy.random Toy.codec
               Toy.tokenizer Toy.enumeration ["CCO"; "c1ccccc1"]%string
               (-1)%Z 0) as (out & H & _);
    [ cbv; reflexivity | cbv; reflexivity | exact toy_int64_ids
    | reflexivity | exists out; exact H ].
Defined.

(** C5.  Whenever both token preparations succeed (the ids fitting 64
    bits), [collate_fn] returns a batch whose encoder token ids and
    encoder mask have one width [W], shared by all their rows; [W] is a
    multiple of 8 when [pad_size_divisible_by_8] is set; and row [i] is
    the row's token ids followed by [W - n] copies of [pad_id], [n]
    being the row's token count: the mask is 0 at exactly [W - n]
    positions, those hold [pad_id], and [pad_id] occurs [W - n] times
    in the row when the tokens themselves do not map to it. *)
Theorem collate_encoder_padding
  {rng : Type} {RS : RandomSource rng} {SC : StructureCodec}
  {TK : Tokenizer rng} (self : MoleculeEnumeration) (batch : list string)
  (label_pad : Z) (s s1 s2 : rng) (encoder_dict decoder_dict : prepared token) :
  _prepare_tokens self batch (encoder_augment self) (encoder_mask self) s
  = Ok (encoder_dict, s1) ->
  _prepare_tokens self batch (decoder_augment self) (decoder_mask self) s1
  = Ok (decoder_dict, s2) ->
  int64_ids TK ->
  Torch.int64_ok label_pad = true ->
  exists out,
    collate_fn self batch label_pad s = Ok (out, s2) /\
    let ids := convert_tokens_to_ids (tokens encoder_dict) in
    let W := width (text_enc out) in
    ids <> [] /\
    width (enc_mask out) = W /\
    Forall (fun row => length row = W) (text_enc out) /\
    Forall (fun row => length row = W) (enc_mask out) /\
    (pad_size_divisible_by_8 self = true -> exists k, W = 8 * k) /\
    length (text_enc out) = length ids /\
    length (enc_mask out) = length ids /\
    forall i seq,
      nth_error ids i = Some seq ->
      exists row mrow,
        nth_error (text_enc out) i = Some row /\
        nth_error (enc_mask out) i = Some mrow /\
        length seq <= W /\
        row = seq ++ repeat pad_id (W - length seq) /\
        count_occ Z.eq_dec mrow 0%Z = W - length seq /\
        (forall j, nth_error mrow j = Some 0%Z ->
                   nth_error row j = Some pad_id) /\
        (~ In pad_id seq ->
         count_occ Z.eq_dec row pad_id = W - length seq).
Proof.
  intros Henc Hdec Hids Hlp.
  exists (collated self label_pad encoder_dict decoder_dict).
  split; [eapply collate_fn_eq; eassumption|].
  pose proof (convert_nonempty (prepare_tokens_nonempty _ _ _ _ _ Henc)) as Hne.
  unfold collated. simpl.
  set (ids := convert_tokens_to_ids (tokens encoder_dict)) in *.
  assert (HW : forall seq, In seq ids -> length seq <= pad_width self ids)
    by (intros seq; apply pad_width_ge).
  assert (Ew : width (map (pad_row (pad_width self ids) pad_id) ids)
               = pad_width self ids).
  { apply width_map_nonempty; [assumption|].
    intros row Hin. apply pad_row_length; auto. }
  rewrite Ew. split; [assumption|]. split; [|split; [|split; [|split]]].
  - apply width_map_nonempty; [assumption|].
    intros row Hin. apply mask_row_length; auto.
  - apply padded_rows_length.
  - apply mask_rows_length.
  - apply pad_width_multiple.
  - rewrite !length_map. split; [reflexivity|]. split; [reflexivity|].
    intros i seq Hi.
    assert (Hin : In seq ids) by (eapply nth_error_In; eassumption).
    exists (pad_row (pad_width self ids) pad_id seq),
           (mask_row (pad_width self ids) seq).
    rewrite !nth_error_map, Hi. simpl.
    split; [reflexivity|]. split; [reflexivity|]. split; [auto|].
    split; [reflexivity|]. split; [apply mask_row_zeros|]. split.
    + intros j Hj.
      assert (Hlt : j < length (mask_row (pad_width self ids) seq))
        by (apply nth_error_Some; congruence).
      rewrite mask_row_length in Hlt by auto.
      apply mask_row_entry in Hj as [[_ Hj]|[Hge _]]; [discriminate|].
      apply pad_row_entry; assumption.
    + apply pad_row_pads.
Qed.

Lemma collate_encoder_padding_witness :
  exists out,
    @collate_fn nat Toy.random Toy.codec Toy.tokenizer Toy.enumeration
                ["OCC"; "C"]%string (-1)%Z 0 = Ok (out, 2) /\
    width (text_enc out) = 8.
Proof.
  edestruct (@collate_encoder_padding nat Toy.random Toy.codec
               Toy.tokenizer Toy.enumeration ["OCC"; "C"]%string
               (-1)%Z 0) as (out & H & _ & _ & _ & _ & H8 & _);
    [ cbv; reflexivity | cbv; reflexivity | exact toy_int64_ids
    | reflexivity | ].
  exists out. split; [exact H|].
  inversion H. reflexivity.
Defined.

Lemma shifted_lengths (b e : Z) (dec_ids : list (list Z)) :
  map (@length Z) (map (fun example => b :: example) dec_ids)
  = map (@length Z) (map (fun example => example ++ [e]) dec_ids).
Proof.
  rewrite !map_map. apply map_ext. intros ex.
  rewrite length_app. simpl. lia.
Qed.

Lemma shifted_pad_width (self : MoleculeEnumeration) (b e : Z) dec_ids :
  pad_width self (map (fun example => b :: example) dec_ids)
  = pad_width self (map (fun example => example ++ [e]) dec_ids).
Proof.
  unfold pad_width. rewrite (shifted_lengths b e). reflexivity.
Qed.

(** C9.  Whenever both token preparations succeed (the ids fitting 64
    bits), [collate_fn] returns a batch in which [text_dec] and [labels]
    have the same number of rows and one common width [W], shared by
    all their rows.  Row [i] of [text_dec] is [bos_id] followed by the
    row's decoder token ids and [k] pad ids; row [i] of [labels] is the
    same token ids followed by [eos_id] and [k] sentinels, for the same
    [k]; accordingly [dec_mask] and [loss_mask] are equal. *)
Theorem collate_decoder_and_labels_same_shape
  {rng : Type} {RS : RandomSource rng} {SC : StructureCodec}
  {TK : Tokenizer rng} (self : MoleculeEnumeration) (batch : list string)
  (label_pad : Z) (s s1 s2 : rng) (encoder_dict decoder_dict : prepared token) :
  _prepare_tokens self batch (encoder_augment self) (encoder_mask self) s
  = Ok (encoder_dict, s1) ->
  _prepare_tokens self batch (decoder_augment self) (decoder_mask self) s1
  = Ok (decoder_dict, s2) ->
  int64_ids TK ->
  Torch.int64_ok label_pad = true ->
  exists out,
    collate_fn self batch label_pad s = Ok (out, s2) /\
    let dec_ids := convert_tokens_to_ids (tokens decoder_dict) in
    let W := width (text_dec out) in
    dec_ids <> [] /\
    length (text_dec out) = length (labels out) /\
    width (labels out) = W /\
    Forall (fun row => length row = W) (text_dec out) /\
    Forall (fun row => length row = W) (labels out) /\
    same_shape (text_dec out) (labels out) /\
    dec_mask out = loss_mask out /\
    forall i ids,
      nth_error dec_ids i = Some ids ->
      exists k,
        S (length ids) + k = W /\
        nth_error (text_dec out) i = Some ((bos_id :: ids) ++ repeat pad_id k) /\
        nth_error (labels out) i
        = Some ((ids ++ [eos_id]) ++ repeat label_pad k).
Proof.
  intros Henc Hdec Hids Hlp.
  exists (collated self label_pad encoder_dict decoder_dict).
  split; [eapply collate_fn_eq; eassumption|].
  pose proof (convert_nonempty (prepare_tokens_nonempty _ _ _ _ _ Hdec)) as Hnd.
  unfold collated. simpl.
  set (dec_ids := convert_tokens_to_ids (tokens decoder_dict)) in *.
  rewrite <- (shifted_pad_width self bos_id eos_id dec_ids).
  set (dec_in := map (fun example => bos_id :: example) dec_ids).
  set (label_ids := map (fun example => example ++ [eos_id]) dec_ids).
  set (W := pad_width self dec_in).
  assert (Hnin : dec_in <> [])
    by (unfold dec_in; destruct dec_ids; [contradiction | discriminate]).
  assert (Hnl : label_ids <> [])
    by (unfold label_ids; destruct dec_ids; [contradiction | discriminate]).
  assert (HWd : forall seq, In seq dec_in -> length seq <= W)
    by (intros seq; apply pad_width_ge).
  assert (HWl : forall seq, In seq label_ids -> length seq <= W).
  { intros seq Hin. unfold W, dec_in.
    rewrite (shifted_pad_width self bos_id eos_id dec_ids).
    apply pad_width_ge, Hin. }
  assert (Ew : width (map (pad_row W pad_id) dec_in) = W).
  { apply width_map_nonempty; [assumption|].
    intros row Hin. apply pad_row_length; auto. }
  rewrite Ew. split; [assumption|].
  split; [unfold dec_in, label_ids; rewrite !length_map; reflexivity|].
  split; [apply width_map_nonempty;
          [assumption | intros row Hin; apply pad_row_length; auto]|].
  split; [apply padded_rows_length|].
  assert (Hl : Forall (fun row => length row = W)
                      (map (pad_row W label_pad) label_ids)).
  { apply Forall_forall. intros row Hin.
    apply in_map_iff in Hin as (seq & <- & Hin). apply pad_row_length; auto. }
  split; [exact Hl|]. split; [|split].
  - unfold same_shape.
    pose proof (padded_rows_length self dec_in pad_id) as Hd. fold W in Hd.
    unfold dec_in, label_ids in *. rewrite !map_map in *.
    apply map_ext_in. intros ex Hex.
    rewrite Forall_forall in Hd, Hl.
    rewrite (Hd (pad_row W pad_id (bos_id :: ex)))
      by (apply in_map_iff; eauto).
    rewrite (Hl (pad_row W label_pad (ex ++ [eos_id])))
      by (apply in_map_iff; eauto).
    reflexivity.
  - unfold dec_in, label_ids. rewrite !map_map. apply map_ext. intros ex.
    unfold mask_row. rewrite length_app. simpl.
    replace (length ex + 1) with (S (length ex)) by lia. reflexivity.
  - intros i ids Hi. exists (W - S (length ids)).
    assert (Hin : In (bos_id :: ids) dec_in)
      by (unfold dec_in; apply in_map_iff; exists ids; split;
          [reflexivity | eapply nth_error_In; eassumption]).
    specialize (HWd _ Hin). simpl in HWd. split; [lia|].
    unfold dec_in, label_ids. rewrite !nth_error_map, Hi. simpl.
    unfold pad_row. rewrite length_app. simpl.
    replace (length ids + 1) with (S (length ids)) by lia.
    split; reflexivity.
Qed.

Lemma collate_decoder_and_labels_same_shape_witness :
  exists out,
    @collate_fn nat Toy.random Toy.codec Toy.tokenizer Toy.enumeration
                ["OCC"; "C"]%string (-1)%Z 0 = Ok (out, 2) /\
    dec_mask out = loss_mask out.
Proof.
  edestruct (@collate_decoder_and_labels_same_shape nat Toy.random Toy.codec
               Toy.tokenizer Toy.enumeration ["OCC"; "C"]%string
               (-1)%Z 0)
    as (out & H & _ & _ & _ & _ & _ & _ & Hm & _);
    [ cbv; reflexivity | cbv; reflexivity | exact toy_int64_ids
    | reflexivity | ].
  exists out. split; [exact H | exact Hm].
Defined.

(** ** [_smiles_augmeter_func] *)

(** C4.  Let [smiles] parse to [mol], let augmentation be requested and
    let the rendering of the renumbered molecule raise [RuntimeError].
    Then the call is determined by the canonical rendering of the
    unmodified [mol]: if that rendering is [c], the variant is [c],
    which is also the canonical target when [canonicalize_input] is set
    (the target is [smiles] itself otherwise); if it fails, its
    [RuntimeError] escapes.  In particular the outcome does not depend
    on the permutation drawn: two calls that both hit the failure have
    the same outcome. *)
Theorem augmenter_fallback_deterministic
  {rng : Type} {RS : RandomSource rng} {SC : StructureCodec}
  (self : MoleculeEnumeration) (smiles : string) (mol : Mol) (s : rng) :
  MolFromSmiles smiles = Some mol ->
  MolToSmiles (RenumberAtoms mol (fst (shuffle (seq 0 (GetNumAtoms mol)) s)))
              false = None ->
  _smiles_augmeter_func self smiles true s
  = match MolToSmiles mol true with
    | None => Raise RuntimeError
    | Some c =>
        let target := if canonicalize_input self then c else smiles in
        if (0 <? String.length c) && (0 <? String.length target)
        then Ok ((c, target), snd (shuffle (seq 0 (GetNumAtoms mol)) s))
        else Raise AssertionError
    end /\
  (forall variant target s',
     _smiles_augmeter_func self smiles true s = Ok ((variant, target), s') ->
     MolToSmiles mol true = Some variant /\
     (canonicalize_input self = true -> variant = target) /\
     (canonicalize_input self = false -> target = smiles)) /\
  (forall s2 : rng,
     MolToSmiles
       (RenumberAtoms mol (fst (shuffle (seq 0 (GetNumAtoms mol)) s2)))
       false = None ->
     outcome (_smiles_augmeter_func self smiles true s2)
     = outcome (_smiles_augmeter_func self smiles true s)).
Proof.
  intros Hmol Hfail.
  assert (Heq : forall s0 : rng,
    MolToSmiles (RenumberAtoms mol (fst (shuffle (seq 0 (GetNumAtoms mol)) s0)))
                false = None ->
    _smiles_augmeter_func self smiles true s0
    = match MolToSmiles mol true with
      | None => Raise RuntimeError
      | Some c =>
          let target := if canonicalize_input self then c else smiles in
          if (0 <? String.length c) && (0 <? String.length target)
          then Ok ((c, target), snd (shuffle (seq 0 (GetNumAtoms mol)) s0))
          else Raise AssertionError
      end).
  { intros s0 Hf. unfold _smiles_augmeter_func, mbind, mlift, mret, render.
    rewrite Hmol.
    destruct (shuffle (seq 0 (GetNumAtoms mol)) s0) as [order s1] eqn:Es.
    simpl in Hf. simpl.
    destruct (canonicalize_input self);
      destruct (MolToSmiles mol true) as [c|]; simpl;
      try reflexivity; rewrite ?Es, ?Hf; simpl;
      destruct (MolToSmiles mol true) as [c'|] eqn:Ec; simpl; try rewrite Es;
      try rewrite Hf; simpl; try reflexivity.
    all: try (destruct (0 <? String.length c); simpl; try reflexivity;
              destruct (0 <? String.length smiles); reflexivity). }
  split; [apply Heq, Hfail|]. split.
  - intros variant target s' H. rewrite (Heq s Hfail) in H.
    destruct (MolToSmiles mol true) as [c|]; [|discriminate]. simpl in H.
    destruct ((0 <? String.length c) && _); [|discriminate].
    inversion H; subst. split; [reflexivity|].
    split; intros E; rewrite E; reflexivity.
  - intros s2 Hf2. rewrite (Heq s Hfail), (Heq s2 Hf2).
    destruct (MolToSmiles mol true) as [c|]; [|reflexivity]. simpl.
    destruct ((0 <? String.length c) && _); reflexivity.
Qed.

Lemma augmenter_fallback_deterministic_witness :
  @_smiles_augmeter_func nat Toy.random Toy.codec Toy.enumeration
                         "OCC"%string true 0
  = Ok (("CCO"%string, "CCO"%string), 1).
Proof.
  apply (proj1 (@augmenter_fallback_deterministic nat Toy.random Toy.codec
                  Toy.enumeration "OCC"%string ("OCC"%string, false) 0
                  eq_refl eq_refl)).
Defined.

(** ** Trimming of decoded sequences *)

Lemma contains_In (x : Z) (l : list Z) : Py.contains x l = true <-> In x l.
Proof.
  induction l as [|y ys IH]; simpl.
  - split; [discriminate | contradiction].
  - destruct (Z.eqb_spec y x) as [->|Hne].
    + split; auto.
    + rewrite IH. split; [auto | intros [E|H]; [contradiction | assumption]].
Qed.

Lemma contains_false (x : Z) (l : list Z) :
  Py.contains x l = false <-> ~ In x l.
Proof.
  rewrite <- contains_In. destruct (Py.contains x l); split; intros H;
    try reflexivity; try discriminate.
  exfalso. apply H. reflexivity.
Qed.

(** The first occurrence: [l.index(x)] is the length of the prefix
    before it. *)
Lemma index_first_occurrence (x : Z) (l : list Z) :
  In x l ->
  exists pre post,
    l = pre ++ x :: post /\ ~ In x pre /\ Py.index x l = Ok (length pre).
Proof.
  induction l as [|y ys IH]; simpl; [contradiction|].
  intros Hin. destruct (Z.eqb_spec y x) as [->|Hne].
  - exists [], ys. simpl. auto.
  - destruct Hin as [E|Hin]; [contradiction|].
    destruct (IH Hin) as (pre & post & -> & Hpre & Hidx).
    exists (y :: pre), post. rewrite Hidx. simpl.
    split; [reflexivity|]. split; [|reflexivity].
    intros [E|H]; [contradiction | auto].
Qed.

Lemma first_occurrence_unique (x : Z) (pre post pre' post' : list Z) :
  pre ++ x :: post = pre' ++ x :: post' ->
  ~ In x pre -> ~ In x pre' -> pre = pre'.
Proof.
  revert pre'. induction pre as [|a pre IH]; intros [|a' pre'] E H H'.
  - reflexivity.
  - simpl in E. inversion E; subst. exfalso. apply H'. left. reflexivity.
  - simpl in E. inversion E; subst. exfalso. apply H. left. reflexivity.
  - simpl in E. inversion E; subst. f_equal.
    apply IH with (pre' := pre'); [assumption| |]; intros Hin.
    + apply H. right. assumption.
    + apply H'. right. assumption.
Qed.

Lemma filter_not_eq_remove (x : Z) (l : list Z) :
  filter (fun id => negb (id =? x)%Z) l = remove Z.eq_dec x l.
Proof.
  induction l as [|y ys IH]; simpl; [reflexivity|].
  destruct (Z.eq_dec x y) as [->|Hne].
  - rewrite Z.eqb_refl. simpl. exact IH.
  - destruct (Z.eqb_spec y x) as [E|_]; [congruence|]. simpl. f_equal. exact IH.
Qed.

Lemma remove_absent (x : Z) (l : list Z) :
  ~ In x l -> remove Z.eq_dec x l = l.
Proof.
  apply notin_remove.
Qed.

Lemma remove_fixpoint (x : Z) (l : list Z) :
  remove Z.eq_dec x l = l -> ~ In x l.
Proof.
  intros E H. apply (remove_In Z.eq_dec l x). rewrite E. exact H.
Qed.

Lemma remove_preserves_absence (x y : Z) (l : list Z) :
  ~ In y l -> ~ In y (remove Z.eq_dec x l).
Proof.
  intros H Hin. apply H. apply in_remove in Hin. tauto.
Qed.

Lemma remove_keeps_others (x y : Z) (l : list Z) :
  y <> x -> count_occ Z.eq_dec (remove Z.eq_dec x l) y = count_occ Z.eq_dec l y.
Proof.
  intros Hne. induction l as [|a l IH]; simpl; [reflexivity|].
  destruct (Z.eq_dec x a) as [->|Hxa].
  - destruct (Z.eq_dec a y); [congruence | exact IH].
  - simpl. destruct (Z.eq_dec a y); [f_equal|]; exact IH.
Qed.

Section PruneFacts.

Context {rng : Type} {TK : Tokenizer rng}.

Lemma prune_with_eos (pre post : list Z) :
  ~ In eos_id pre -> prune (pre ++ eos_id :: post) = Ok pre.
Proof.
  intros Hpre. unfold prune.
  assert (Hin : In eos_id (pre ++ eos_id :: post))
    by (apply in_or_app; right; left; reflexivity).
  rewrite (proj2 (contains_In _ _) Hin).
  destruct (index_first_occurrence _ _ Hin) as (pre' & post' & E & Hpre' & ->).
  simpl. f_equal.
  assert (pre = pre') as <-
      by (eapply first_occurrence_unique; eassumption).
  rewrite firstn_app, firstn_all, Nat.sub_diag. simpl. apply app_nil_r.
Qed.

Lemma prune_without_eos (l : list Z) :
  ~ In eos_id l -> prune l = Ok (remove Z.eq_dec pad_id l).
Proof.
  intros H. unfold prune. rewrite (proj2 (contains_false _ _) H).
  rewrite filter_not_eq_remove. reflexivity.
Qed.

(** Trimming always returns. *)
Lemma prune_total (l : list Z) : exists r, prune l = Ok r.
Proof.
  destruct (in_dec Z.eq_dec eos_id l) as [Hin|Hnin].
  - destruct (index_first_occurrence _ _ Hin) as (pre & post & -> & Hpre & _).
    exists pre. apply prune_with_eos, Hpre.
  - eexists. apply prune_without_eos, Hnin.
Qed.

Lemma prune_no_eos (l r : list Z) : prune l = Ok r -> ~ In eos_id r.
Proof.
  intros H. destruct (in_dec Z.eq_dec eos_id l) as [Hin|Hnin].
  - destruct (index_first_occurrence _ _ Hin) as (pre & post & -> & Hpre & _).
    rewrite prune_with_eos in H by assumption. inversion H; subst. exact Hpre.
  - rewrite prune_without_eos in H by assumption. inversion H; subst.
    apply remove_preserves_absence, Hnin.
Qed.

(** The two branches of the loop body: with [eos_id] in the sequence,
    the prefix strictly before its first occurrence; without it, the
    sequence with every occurrence of [pad_id] removed, wherever it
    stands: no pad id is left and every other id keeps its
    occurrences. *)
Lemma prune_cases (l : list Z) :
  (In eos_id l ->
   exists pre post,
     l = pre ++ eos_id :: post /\ ~ In eos_id pre /\ prune l = Ok pre) /\
  (~ In eos_id l ->
   prune l = Ok (remove Z.eq_dec pad_id l) /\
   ~ In pad_id (remove Z.eq_dec pad_id l) /\
   forall id, id <> pad_id ->
     count_occ Z.eq_dec (remove Z.eq_dec pad_id l) id
     = count_occ Z.eq_dec l id).
Proof.
  split.
  - intros Hin.
    destruct (index_first_occurrence _ _ Hin) as (pre & post & E & Hpre & _).
    exists pre, post. split; [exact E|]. split; [exact Hpre|].
    rewrite E. apply prune_with_eos, Hpre.
  - intros Hnin. split; [apply prune_without_eos, Hnin|].
    split; [apply remove_In|].
    intros id Hid. apply remove_keeps_others, Hid.
Qed.

(** C7, as the code has it.  Trimming a trimmed sequence removes the
    pad ids that the first trimming left in front of the first
    [eos_id]; so trimming twice equals trimming once exactly when the
    trimmed sequence holds no pad id, which is the case for every
    sequence without [eos_id].  A third trimming changes nothing. *)
Theorem prune_twice (l r : list Z) :
  prune l = Ok r ->
  prune r = Ok (remove Z.eq_dec pad_id r) /\
  (prune r = Ok r <-> ~ In pad_id r) /\
  (~ In eos_id l -> prune r = Ok r) /\
  (forall r2, prune r = Ok r2 -> prune r2 = Ok r2).
Proof.
  intros H. pose proof (prune_no_eos _ H) as Hr.
  assert (E : prune r = Ok (remove Z.eq_dec pad_id r))
    by (apply prune_without_eos, Hr).
  split; [exact E|]. split; [|split].
  - rewrite E. split.
    + intros E'. injection E' as E''. apply remove_fixpoint, E''.
    + intros Hn. rewrite remove_absent by assumption. reflexivity.
  - intros Hnin. rewrite prune_without_eos in H by assumption.
    inversion H; subst. rewrite E.
    rewrite remove_absent by apply remove_In. reflexivity.
  - intros r2 H2. rewrite E in H2. inversion H2; subst.
    rewrite prune_without_eos by (apply remove_preserves_absence, Hr).
    rewrite remove_absent by apply remove_In. reflexivity.
Qed.

(** Trimming keeps a leading [bos_id] that is neither the pad nor the
    end-of-sequence id. *)
Lemma prune_keeps_bos (gen r : list Z) :
  bos_id <> pad_id ->
  prune (bos_id :: gen) = Ok r ->
  (r <> [] -> exists r', r = bos_id :: r') /\
  (bos_id <> eos_id -> exists r', r = bos_id :: r').
Proof.
  intros Hbp H.
  destruct (in_dec Z.eq_dec eos_id (bos_id :: gen)) as [Hin|Hnin].
  - destruct (index_first_occurrence _ _ Hin) as (pre & post & E & Hpre & _).
    rewrite E in H. rewrite prune_with_eos in H by assumption.
    inversion H; subst r. clear H.
    destruct pre as [|a pre'].
    + simpl in E. inversion E as [[Eb Eg]]. split.
      * intros Hne. contradiction.
      * intros Hbe. contradiction.
    + simpl in E. inversion E; subst. split; intros _; eauto.
  - rewrite prune_without_eos in H by assumption.
    inversion H; subst r. simpl.
    destruct (Z.eq_dec pad_id bos_id) as [E'|_]; [congruence|].
    split; intros _; eauto.
Qed.

End PruneFacts.

Lemma prune_twice_witness :
  @prune nat Toy.tokenizer [2; 4; 0]%Z
  = Ok (remove Z.eq_dec 0%Z [2; 4; 0]%Z).
Proof.
  apply (proj1 (@prune_twice nat Toy.tokenizer [2; 4; 0; 3; 5; 3]%Z
                  [2; 4; 0]%Z eq_refl)).
Defined.

(** C7, as stated, fails: a pad id in front of the end-of-sequence id
    survives the first trimming and is removed by the second. *)
Lemma prune_not_idempotent :
  @prune nat Toy.tokenizer [2; 4; 0; 3]%Z = Ok [2; 4; 0]%Z /\
  @prune nat Toy.tokenizer [2; 4; 0]%Z = Ok [2; 4]%Z /\
  ~ prune_idempotent.
Proof.
  split; [reflexivity|]. split; [reflexivity|].
  intros H.
  specialize (H nat Toy.tokenizer [2; 4; 0; 3]%Z [2; 4; 0]%Z eq_refl).
  discriminate H.
Qed.

(** ** The decode loop *)

Lemma cat_column_rows (t : list (list Z)) (col : list Z) (t' : list (list Z)) :
  Tensor.cat_column t col = Ok t' ->
  length col = length t /\
  length t' = length t /\
  forall i row, nth_error t i = Some row ->
    exists id, nth_error col i = Some id /\ nth_error t' i = Some (row ++ [id]).
Proof.
  unfold Tensor.cat_column.
  destruct (Nat.eqb_spec (length t) (length col)) as [E|]; [|discriminate].
  intros H. inversion H; subst t'; clear H.
  split; [symmetry; exact E|]. split.
  - rewrite length_map, length_combine. lia.
  - revert col E. induction t as [|r rs IH]; intros [|c cs] E i row Hi;
      simpl in *; try discriminate; try (destruct i; discriminate).
    destruct i as [|i]; simpl in *.
    + inversion Hi; subst. exists c. auto.
    + apply IH; [lia | assumption].
Qed.

Lemma rmap_nth {A B} (f : A -> result B) (l : list A) (l' : list B) i x :
  rmap f l = Ok l' -> nth_error l i = Some x ->
  exists y, f x = Ok y /\ nth_error l' i = Some y.
Proof.
  intros H. apply rmap_Ok_Forall2 in H. revert i.
  induction H as [|a b l l' Hab _ IH]; intros [|i] Hi; simpl in *;
    try discriminate.
  - inversion Hi; subst. eauto.
  - auto.
Qed.

Lemma rmap_last {A B} (f : A -> result B) (l : list A) (l' : list B) dA dB :
  rmap f l = Ok l' -> l <> [] -> f (last l dA) = Ok (last l' dB).
Proof.
  intros H. apply rmap_Ok_Forall2 in H.
  induction H as [|a b l l' Hab Hll IH]; intros Hne; [contradiction|].
  destruct Hll as [|a2 b2 l2 l2' Hab2 Hll2]; [exact Hab|].
  change (f (last (a2 :: l2) dA) = Ok (last (b2 :: l2') dB)).
  apply IH. discriminate.
Qed.

Lemma last_map {A B} (f : A -> B) (l : list A) dA :
  l <> [] -> last (map f l) (f dA) = f (last l dA).
Proof.
  induction l as [|a [|b l] IH]; intros Hne; [contradiction | reflexivity |].
  change (last (map f (b :: l)) (f dA) = f (last (b :: l) dA)).
  apply IH. discriminate.
Qed.

Lemma last_default {A} (l : list A) (d d' : A) :
  l <> [] -> last l d = last l d'.
Proof.
  induction l as [|a [|b l] IH]; intros Hne; [contradiction | reflexivity |].
  change (last (b :: l) d = last (b :: l) d'). apply IH. discriminate.
Qed.

Lemma not_pad_row_active (pad : Z) (row : list Z) :
  all_active (map (fun id => negb (id =? pad)%Z) row) <-> ~ In pad row.
Proof.
  unfold all_active. rewrite Forall_map, Forall_forall. split.
  - intros H Hin. specialize (H pad Hin). rewrite Z.eqb_refl in H.
    discriminate.
  - intros H id Hin. destruct (Z.eqb_spec id pad) as [->|]; [contradiction|].
    reflexivity.
Qed.

Section DecodeFacts.

Context {rng : Type} {TK : Tokenizer rng} {NW : Network}.
Variables tokens_enc enc_mask : list (list Z).
Variable h : hidden.

(** One turn appends to every sequence the index that [torch.max]
    reports for the last position of its logits (ids from
    [vocab_size] on filled with [-inf], then [log_softmax]). *)
Lemma decode_step_appends (predicted predicted' : list (list Z))
  (lp : list (list logit)) :
  decode_step tokens_enc enc_mask h predicted = Ok (predicted', lp) ->
  length predicted' = length predicted /\
  forall i row, nth_error predicted i = Some row ->
    exists positions v id,
      nth_error (Tensor.fill_from vocab_size
                   (token_logits tokens_enc predicted enc_mask
                                 (not_pad predicted) h)) i
      = Some positions /\
      positions <> [] /\
      Tensor.max (log_softmax (last positions [])) = Ok (v, id) /\
      nth_error predicted' i = Some (row ++ [id]).
Proof.
  unfold decode_step. intros H.
  apply rbind_Ok in H as (lt & Hmax & H).
  apply rbind_Ok in H as (col & Hcol & H).
  apply rbind_Ok in H as (p' & Hcat & H).
  inversion H; subst; clear H.
  apply cat_column_rows in Hcat as (Hlen & Hlen' & Hrows).
  split; [exact Hlen'|]. intros i row Hi.
  destruct (Hrows i row Hi) as (id & Hid & Hrow').
  unfold Tensor.max_dim2 in Hmax.
  apply rbind_Ok in Hmax as (vi & Hvi & Hlt). inversion Hlt; subst; clear Hlt.
  simpl in Hcol. unfold Tensor.last_column in Hcol.
  set (logits := Tensor.fill_from vocab_size _) in *.
  assert (Hvrow : exists ids, nth_error (map (map snd) vi) i = Some ids).
  { destruct (nth_error (map (map snd) vi) i) eqn:E; [eauto|].
    apply nth_error_None in E. apply rmap_Ok_length in Hcol.
    assert (i < length col) by (apply nth_error_Some; congruence). lia. }
  destruct Hvrow as (ids & Hids).
  destruct (rmap_nth _ _ i Hcol Hids) as (id' & Hlast & Hid').
  rewrite Hid in Hid'. inversion Hid'; subst id'; clear Hid'.
  apply nth_error_map_Some in Hids as (virow & Hvirow & ->).
  assert (Hlrow : exists positions, nth_error logits i = Some positions).
  { destruct (nth_error logits i) eqn:E; [eauto|].
    apply nth_error_None in E. apply rmap_Ok_length in Hvi.
    rewrite length_map in Hvi.
    assert (i < length vi) by (apply nth_error_Some; congruence). lia. }
  destruct Hlrow as (positions & Hpos).
  assert (Hpos' : nth_error (map (map log_softmax) logits) i
                  = Some (map log_softmax positions))
    by (rewrite nth_error_map, Hpos; reflexivity).
  destruct (rmap_nth _ _ i Hvi Hpos') as (virow' & Hrow & Hvirow').
  rewrite Hvirow in Hvirow'. inversion Hvirow'; subst virow'; clear Hvirow'.
  assert (Hvne : virow <> []).
  { intros ->. simpl in Hlast. discriminate. }
  assert (Hpne : positions <> []).
  { intros ->. simpl in Hrow. inversion Hrow. congruence. }
  exists positions, (fst (last virow (NegInf, 0%Z))), id.
  split; [exact Hpos|]. split; [exact Hpne|]. split; [|exact Hrow'].
  assert (Hmlast : Tensor.max (last (map log_softmax positions)
                                    (log_softmax []))
                   = Ok (last virow (NegInf, 0%Z))).
  { apply rmap_last; [exact Hrow|].
    destruct positions; [contradiction | discriminate]. }
  rewrite last_map in Hmlast by assumption. rewrite Hmlast. f_equal.
  assert (Hl : snd (last virow (NegInf, 0%Z)) = id).
  { rewrite <- (last_map snd) by assumption. simpl snd.
    revert Hlast. destruct (map snd virow) as [|z zs]; intros Hlast;
      [discriminate | inversion Hlast; reflexivity]. }
  rewrite <- Hl. destruct (last virow (NegInf, 0%Z)); reflexivity.
Qed.

(** After [n] turns every sequence is its initial sequence followed
    by [n] appended ids. *)
Lemma decode_loop_grows (n : nat) :
  forall predicted lp0 predicted' lp',
    decode_loop n tokens_enc enc_mask h predicted lp0 = Ok (predicted', lp') ->
    length predicted' = length predicted /\
    forall i row, nth_error predicted i = Some row ->
      exists gen, length gen = n /\
                  nth_error predicted' i = Some (row ++ gen).
Proof.
  induction n as [|n IH]; intros predicted lp0 predicted' lp' H; simpl in H.
  - inversion H; subst. split; [reflexivity|].
    intros i row Hi. exists []. rewrite app_nil_r. auto.
  - apply rbind_Ok in H as ([p1 lp1] & Hstep & H). simpl in H.
    apply decode_step_appends in Hstep as (Hlen1 & Hrows1).
    apply IH in H as (Hlen & Hrows).
    split; [congruence|].
    intros i row Hi.
    destruct (Hrows1 i row Hi) as (_ & _ & id & _ & _ & _ & Hi1).
    destruct (Hrows _ _ Hi1) as (gen & Hgen & Hi').
    exists (id :: gen). split; [simpl; congruence|].
    rewrite Hi'. rewrite <- app_assoc. reflexivity.
Qed.

(** A run of [k + m] turns passes through the state after [k] turns. *)
Lemma decode_loop_split (k m : nat) :
  forall predicted lp0 r,
    decode_loop (k + m) tokens_enc enc_mask h predicted lp0 = Ok r ->
    exists pk lpk,
      decode_loop k tokens_enc enc_mask h predicted lp0 = Ok (pk, lpk) /\
      decode_loop m tokens_enc enc_mask h pk lpk = Ok r.
Proof.
  induction k as [|k IH]; intros predicted lp0 r H; simpl in *.
  - eauto.
  - apply rbind_Ok in H as (pl & Hstep & H). rewrite Hstep. simpl.
    apply IH, H.
Qed.

Lemma decode_loop_log_probs (n : nat) :
  forall predicted lp0 predicted' lp',
    decode_loop n tokens_enc enc_mask h predicted lp0 = Ok (predicted', lp') ->
    0 < n -> lp' <> None.
Proof.
  induction n as [|n IH]; intros predicted lp0 predicted' lp' H Hn; [lia|].
  simpl in H. apply rbind_Ok in H as (pl & Hstep & H).
  destruct n as [|n].
  - simpl in H. inversion H. discriminate.
  - eapply IH; [exact H | lia].
Qed.

(** The sequences after [n] turns, started from [decode_init]. *)
Lemma decode_loop_from_init (n : nat) (enc : list (list Z)) predicted lp :
  decode_loop n tokens_enc enc_mask h (decode_init enc) None
  = Ok (predicted, lp) ->
  length predicted = length enc /\
  Forall (fun row => exists gen, row = bos_id :: gen /\ length gen = n)
         predicted.
Proof.
  intros H. apply decode_loop_grows in H as (Hlen & Hrows).
  unfold decode_init in *. rewrite length_map in Hlen.
  split; [exact Hlen|]. apply Forall_forall. intros row Hin.
  apply In_nth_error in Hin as (i & Hi).
  assert (Hlt : i < length enc)
    by (rewrite <- Hlen; apply nth_error_Some; congruence).
  destruct (nth_error enc i) as [e|] eqn:Ee;
    [|apply nth_error_None in Ee; lia].
  assert (Hinit : nth_error (map (fun _ : list Z => [bos_id]) enc) i
                  = Some [bos_id])
    by (rewrite nth_error_map, Ee; reflexivity).
  destruct (Hrows _ _ Hinit) as (gen & Hgen & Hi').
  rewrite Hi in Hi'. inversion Hi'; subst. exists gen. auto.
Qed.

Lemma rmap_returns {A B} (f : A -> result B) (l : list A) :
  (forall x, In x l -> exists y, f x = Ok y) -> exists l', rmap f l = Ok l'.
Proof.
  induction l as [|x xs IH]; intros H; simpl; [eauto|].
  destruct (H x (or_introl eq_refl)) as (y & ->).
  destruct IH as (ys & ->); [intros z Hz; apply H; right; exact Hz|].
  simpl. eauto.
Qed.

Lemma max_returns (row : list logit) :
  row <> [] -> exists vi, Tensor.max row = Ok vi.
Proof.
  destruct row; [contradiction|]. intros _. simpl. eauto.
Qed.

Lemma fill_from_row_length (n : Z) (row : list logit) :
  length (firstn (Tensor.slice_start (length row) n) row
          ++ repeat NegInf (length row - Tensor.slice_start (length row) n))
  = length row.
Proof.
  rewrite length_app, length_firstn, repeat_length. lia.
Qed.

(** On a well-shaped network every turn of the loop returns, the
    sequences so far being non-empty. *)
Lemma decode_step_returns (predicted : list (list Z)) :
  well_shaped NW ->
  Forall (fun row => row <> []) predicted ->
  exists predicted' lp,
    decode_step tokens_enc enc_mask h predicted = Ok (predicted', lp).
Proof.
  intros (Hshape & Hsoft) Hne0. unfold decode_step.
  destruct (Hshape tokens_enc predicted enc_mask (not_pad predicted) h Hne0)
    as (Hlen & Hrows).
  set (raw := token_logits tokens_enc predicted enc_mask
                           (not_pad predicted) h) in *.
  assert (Hmax : exists vi,
             rmap (rmap Tensor.max)
                  (map (map log_softmax) (Tensor.fill_from vocab_size raw))
             = Ok vi).
  { apply rmap_returns. intros positions' Hin.
    apply in_map_iff in Hin as (positions1 & <- & Hin).
    unfold Tensor.fill_from in Hin.
    apply in_map_iff in Hin as (positions & <- & Hin).
    rewrite Forall_forall in Hrows. destruct (Hrows _ Hin) as (_ & Hne).
    apply rmap_returns. intros row' Hr.
    apply in_map_iff in Hr as (row1 & <- & Hr).
    apply in_map_iff in Hr as (row & <- & Hr).
    rewrite Forall_forall in Hne. specialize (Hne _ Hr).
    apply max_returns. intros E. apply (f_equal (@length logit)) in E.
    rewrite Hsoft, fill_from_row_length in E.
    destruct row; [contradiction | discriminate]. }
  destruct Hmax as (vi & Hvi). unfold Tensor.max_dim2. rewrite Hvi. simpl.
  assert (Hcol : exists col,
             Tensor.last_column (map (map snd) vi) = Ok col).
  { apply rmap_returns. intros ids Hin.
    apply in_map_iff in Hin as (virow & <- & Hin).
    apply In_nth_error in Hin as (i & Hi).
    pose proof (rmap_Ok_Forall2 _ _ Hvi) as HF.
    assert (Hpos : exists positions',
               nth_error (map (map log_softmax)
                              (Tensor.fill_from vocab_size raw)) i
               = Some positions' /\ rmap Tensor.max positions' = Ok virow).
    { clear - HF Hi. revert i Hi.
      induction HF as [|a b l l' Hab _ IH]; intros [|i] Hi; simpl in *;
        try discriminate.
      - inversion Hi; subst. eauto.
      - auto. }
    destruct Hpos as (positions' & Hp & Hr).
    apply rmap_Ok_length in Hr.
    apply nth_error_In in Hp.
    apply in_map_iff in Hp as (positions1 & <- & Hp).
    unfold Tensor.fill_from in Hp.
    apply in_map_iff in Hp as (positions & <- & Hp).
    rewrite Forall_forall in Hrows. destruct (Hrows _ Hp) as (Hne & _).
    rewrite !length_map in Hr.
    destruct virow as [|vp virow'];
      [destruct positions; [contradiction | discriminate]|].
    simpl. eauto. }
  destruct Hcol as (col & Hcol). rewrite Hcol. simpl.
  unfold Tensor.cat_column.
  assert (E : length predicted = length col).
  { apply rmap_Ok_length in Hcol. apply rmap_Ok_length in Hvi.
    unfold Tensor.fill_from in Hvi. rewrite !length_map in Hvi.
    rewrite length_map in Hcol. lia. }
  apply Nat.eqb_eq in E. rewrite E. simpl. eauto.
Qed.

(** A turn of the loop leaves no sequence empty. *)
Lemma decode_step_nonempty (predicted predicted' : list (list Z))
  (lp : list (list logit)) :
  decode_step tokens_enc enc_mask h predicted = Ok (predicted', lp) ->
  Forall (fun row => row <> []) predicted'.
Proof.
  intros H. apply decode_step_appends in H as (Hlen & Hrows).
  apply Forall_forall. intros row' Hin.
  apply In_nth_error in Hin as (i & Hi).
  assert (Hlt : i < length predicted)
    by (rewrite <- Hlen; apply nth_error_Some; congruence).
  destruct (nth_error predicted i) as [row|] eqn:Er;
    [|apply nth_error_None in Er; lia].
  destruct (Hrows i row Er) as (_ & _ & id & _ & _ & _ & Hi').
  rewrite Hi in Hi'. inversion Hi'; subst row'.
  intros E. apply (f_equal (@length Z)) in E.
  rewrite length_app in E. simpl in E. lia.
Qed.

Lemma decode_loop_returns (n : nat) :
  well_shaped NW ->
  forall predicted lp0,
  Forall (fun row => row <> []) predicted ->
  exists predicted' lp',
    decode_loop n tokens_enc enc_mask h predicted lp0 = Ok (predicted', lp').
Proof.
  intros Hw. induction n as [|n IH]; intros predicted lp0 Hne; simpl;
    [eauto|].
  destruct (decode_step_returns Hw Hne) as (p1 & lp1 & Hstep).
  rewrite Hstep. simpl. apply IH.
  eapply decode_step_nonempty. exact Hstep.
Qed.

End DecodeFacts.

(** On a well-shaped network [decode] returns for every positive
    number of tokens to generate, and [sample_molecules] for every
    positive [max_position_embeddings]. *)
Lemma decode_returns {rng : Type} {TK : Tokenizer rng} {NW : Network}
  (tokens_enc enc_mask : list (list Z)) (n : Z) :
  well_shaped NW -> (0 < n)%Z ->
  exists predicted lp, decode tokens_enc enc_mask n = Ok (predicted, lp).
Proof.
  intros Hw Hn. unfold decode.
  assert (Hinit : Forall (fun row : list Z => row <> [])
                         (decode_init tokens_enc)).
  { unfold decode_init. apply Forall_forall. intros row Hin.
    apply in_map_iff in Hin as (e & <- & _). discriminate. }
  destruct (decode_loop_returns tokens_enc enc_mask
              (enc_output tokens_enc enc_mask) (Z.to_nat n) Hw
              None Hinit) as (p & lp & H).
  rewrite H. simpl.
  apply decode_loop_log_probs in H; [|lia].
  destruct lp as [lp|]; [eauto | contradiction].
Qed.

Lemma sample_molecules_returns {rng : Type} {TK : Tokenizer rng}
  {NW : Network} (self : MegaMolBARTModel)
  (tokens_enc enc_mask : list (list Z)) :
  well_shaped NW -> (0 < max_position_embeddings self)%Z ->
  exists smiles, sample_molecules self tokens_enc enc_mask = Ok smiles.
Proof.
  intros Hw Hn. unfold sample_molecules, sample_token_ids.
  destruct (decode_returns tokens_enc enc_mask Hw Hn) as (p & lp & ->).
  simpl.
  destruct (@rmap_returns _ _ prune p) as (seqs & ->);
    [intros l _; apply prune_total|].
  simpl. eauto.
Qed.

(** C3.  The post-loop trimming of [sample_molecules], on the
    sequences that [decode] returns for [max_position_embeddings]
    tokens: the pruned sequences are, row by row, the decoded
    sequences trimmed.  If [eos_id] occurs anywhere in a decoded
    sequence, its pruned sequence is the prefix strictly before the
    first occurrence; otherwise it is the decoded sequence with every
    occurrence of [pad_id] removed, wherever it stands (no pad id is
    left, every other id keeps its occurrences).  These pruned
    sequences are what [sample_molecules] hands to the tokenizer. *)
Theorem sample_molecules_trims_decoded
  {rng : Type} {TK : Tokenizer rng} {NW : Network}
  (self : MegaMolBARTModel) (tokens_enc enc_mask : list (list Z))
  (predicted : list (list Z)) (log_probs : list (list logit)) :
  decode tokens_enc enc_mask (max_position_embeddings self)
  = Ok (predicted, log_probs) ->
  exists seqs,
    sample_token_ids self tokens_enc enc_mask = Ok seqs /\
    sample_molecules self tokens_enc enc_mask
    = Ok (tokens_to_text (ids_to_tokens seqs)) /\
    Forall2
      (fun row r =>
         (In eos_id row ->
          exists pre post,
            row = pre ++ eos_id :: post /\ ~ In eos_id pre /\ r = pre) /\
         (~ In eos_id row ->
          r = remove Z.eq_dec pad_id row /\
          ~ In pad_id r /\
          forall id, id <> pad_id ->
            count_occ Z.eq_dec r id = count_occ Z.eq_dec row id))
      predicted seqs.
Proof.
  intros Hd.
  destruct (@rmap_returns _ _ prune predicted) as (seqs & Hseqs);
    [intros l _; apply prune_total|].
  exists seqs.
  assert (Hids : sample_token_ids self tokens_enc enc_mask = Ok seqs)
    by (unfold sample_token_ids; rewrite Hd; simpl; exact Hseqs).
  split; [exact Hids|]. split.
  - unfold sample_molecules. rewrite Hids. reflexivity.
  - pose proof (rmap_Ok_Forall2 _ _ Hseqs) as HF.
    eapply Forall2_impl; [|exact HF].
    intros row r Hr. simpl in Hr.
    destruct (prune_cases row) as (Heos & Hpad). split.
    + intros Hin. destruct (Heos Hin) as (pre & post & E & Hpre & Hp).
      exists pre, post. split; [exact E|]. split; [exact Hpre|].
      rewrite Hr in Hp. inversion Hp. reflexivity.
    + intros Hnin. destruct (Hpad Hnin) as (Hp & Hno & Hcount).
      rewrite Hr in Hp. inversion Hp; subst r. auto.
Qed.

Lemma sample_molecules_trims_decoded_witness :
  exists seqs,
    @sample_token_ids nat Toy.tokenizer Toy.speller Toy.model
      [[4; 4; 5]%Z; [4]%Z] [[1; 1; 1]%Z; [1; 0; 0]%Z] = Ok seqs /\
    @sample_molecules nat Toy.tokenizer Toy.speller Toy.model
      [[4; 4; 5]%Z; [4]%Z] [[1; 1; 1]%Z; [1; 0; 0]%Z]
    = Ok (@tokens_to_text nat Toy.tokenizer
            (@ids_to_tokens nat Toy.tokenizer seqs)) /\
    Forall2
      (fun row r =>
         (In 3%Z row ->
          exists pre post,
            row = pre ++ 3%Z :: post /\ ~ In 3%Z pre /\ r = pre) /\
         (~ In 3%Z row ->
          r = remove Z.eq_dec 0%Z row /\
          ~ In 0%Z r /\
          forall id, id <> 0%Z ->
            count_occ Z.eq_dec r id = count_occ Z.eq_dec row id))
      [[2; 4; 4; 5; 3; 3]%Z; [2; 4; 4; 5; 3; 3]%Z] seqs.
Proof.
  eapply (@sample_molecules_trims_decoded nat Toy.tokenizer Toy.speller
            Toy.model [[4; 4; 5]%Z; [4]%Z] [[1; 1; 1]%Z; [1; 0; 0]%Z]
            [[2; 4; 4; 5; 3; 3]%Z; [2; 4; 4; 5; 3; 3]%Z]).
  cbv. reflexivity.
Defined.

(** C6, as the code has it.  After [k] turns of the decode loop every
    sequence is [bos_id] followed by the [k] ids appended so far.  The
    id appended in a turn is the index that [torch.max] reports at the
    last position (after the ids from [vocab_size] on are filled with
    [-inf] and [log_softmax] is applied); nothing excludes the pad id
    from that choice.  The mask recomputed at the next turn is
    position by position "the id is not [pad_id]", so the mask row of
    a batch item is all-active exactly when its sequence holds no pad
    id. *)
Theorem decode_mask_follows_pad
  {rng : Type} {TK : Tokenizer rng} {NW : Network}
  (tokens_enc enc_mask : list (list Z)) (k : nat)
  (predicted : list (list Z)) (lp : option (list (list logit))) :
  decode_loop k tokens_enc enc_mask (enc_output tokens_enc enc_mask)
              (decode_init tokens_enc) None = Ok (predicted, lp) ->
  length predicted = length tokens_enc /\
  (forall i row,
     nth_error predicted i = Some row ->
     (exists gen, row = bos_id :: gen /\ length gen = k) /\
     exists mrow,
       nth_error (not_pad predicted) i = Some mrow /\
       length mrow = length row /\
       (forall j id, nth_error row j = Some id ->
                     nth_error mrow j = Some (negb (id =? pad_id)%Z)) /\
       (all_active mrow <-> ~ In pad_id row)) /\
  (forall predicted' lp',
     decode_step tokens_enc enc_mask (enc_output tokens_enc enc_mask) predicted
     = Ok (predicted', lp') ->
     forall i row,
       nth_error predicted i = Some row ->
       exists positions v id,
         nth_error (Tensor.fill_from vocab_size
                      (token_logits tokens_enc predicted enc_mask
                                    (not_pad predicted)
                                    (enc_output tokens_enc enc_mask))) i
         = Some positions /\
         positions <> [] /\
         Tensor.max (log_softmax (last positions [])) = Ok (v, id) /\
         nth_error predicted' i = Some (row ++ [id])).
Proof.
  intros H. apply decode_loop_from_init in H as (Hlen & Hrows).
  split; [exact Hlen|]. split.
  - intros i row Hi. split.
    + rewrite Forall_forall in Hrows. apply Hrows.
      eapply nth_error_In; eassumption.
    + exists (map (fun id => negb (id =? pad_id)%Z) row).
      unfold not_pad. rewrite nth_error_map, Hi. simpl.
      split; [reflexivity|]. split; [apply length_map|]. split.
      * intros j id Hj. rewrite nth_error_map, Hj. reflexivity.
      * apply not_pad_row_active.
  - intros predicted' lp' Hstep. apply decode_step_appends in Hstep as [_ Hs].
    exact Hs.
Qed.

Lemma decode_mask_follows_pad_witness :
  length [[2; 4]%Z] = length [[4; 4; 5]%Z].
Proof.
  apply (proj1 (@decode_mask_follows_pad nat Toy.tokenizer Toy.speller
                  [[4; 4; 5]%Z] [[1; 1; 1]%Z] 1 [[2; 4]%Z]
                  (Some [[Fin 1]]) eq_refl)).
Defined.

(** C6, as stated, fails: a network whose largest vocabulary logit is
    at the pad id makes the loop append the pad id, and the mask of the
    following turn is inactive at that position. *)
Lemma decode_appends_pad_id :
  @decode_loop nat Toy.tokenizer Toy.degenerate 2 [[4; 4; 5]%Z] [[1; 1; 1]%Z]
               tt (@decode_init nat Toy.tokenizer [[4; 4; 5]%Z]) None
  = Ok ([[2; 0; 0]%Z], Some [[Fin 5; Fin 5]]) /\
  @decode_loop nat Toy.tokenizer Toy.degenerate 1 [[4; 4; 5]%Z] [[1; 1; 1]%Z]
               tt (@decode_init nat Toy.tokenizer [[4; 4; 5]%Z]) None
  = Ok ([[2; 0]%Z], Some [[Fin 5]]) /\
  @not_pad nat Toy.tokenizer [[2; 0]%Z] = [[true; false]] /\
  ~ pad_never_appended.
Proof.
  split; [reflexivity|]. split; [reflexivity|]. split; [reflexivity|].
  intros H.
  specialize (H nat Toy.tokenizer Toy.degenerate [[4; 4; 5]%Z] [[1; 1; 1]%Z]
                1 [[2; 0]%Z] (Some [[Fin 5]]) eq_refl).
  destruct H as [H _]. inversion H as [|? ? Hrow _]; subst.
  apply Hrow. simpl. auto.
Qed.

(** C10.  Every sequence that [decode] returns is [bos_id] followed by
    the generated ids; no sequence that [sample_molecules] passes on
    after trimming holds [eos_id]; and, the begin-of-sequence id being
    different from the pad id, every trimmed sequence that is not empty
    still starts with [bos_id] (every trimmed sequence does, when
    [bos_id] also differs from [eos_id]). *)
Theorem sampled_sequences_invariants
  {rng : Type} {TK : Tokenizer rng} {NW : Network}
  (self : MegaMolBARTModel) (tokens_enc enc_mask : list (list Z)) :
  (forall n predicted lp,
     decode tokens_enc enc_mask n = Ok (predicted, lp) ->
     length predicted = length tokens_enc /\
     Forall (fun row => exists gen, row = bos_id :: gen
                                    /\ length gen = Z.to_nat n) predicted) /\
  (forall seqs,
     sample_token_ids self tokens_enc enc_mask = Ok seqs ->
     length seqs = length tokens_enc /\
     Forall (fun r => ~ In eos_id r) seqs /\
     (bos_id <> pad_id ->
      Forall (fun r => r <> [] -> exists r', r = bos_id :: r') seqs) /\
     (bos_id <> pad_id -> bos_id <> eos_id ->
      Forall (fun r => exists r', r = bos_id :: r') seqs)) /\
  (forall smiles,
     sample_molecules self tokens_enc enc_mask = Ok smiles ->
     exists seqs,
       sample_token_ids self tokens_enc enc_mask = Ok seqs /\
       smiles = tokens_to_text (ids_to_tokens seqs)).
Proof.
  assert (Hdecode : forall n predicted lp,
    decode tokens_enc enc_mask n = Ok (predicted, lp) ->
    length predicted = length tokens_enc /\
    Forall (fun row => exists gen, row = bos_id :: gen
                                   /\ length gen = Z.to_nat n) predicted).
  { intros n predicted lp H. unfold decode in H.
    apply rbind_Ok in H as ([p l] & Hloop & H). simpl in H.
    destruct l as [l|]; [|discriminate]. inversion H; subst.
    eapply decode_loop_from_init. exact Hloop. }
  split; [exact Hdecode|]. split.
  - intros seqs H. unfold sample_token_ids in H.
    apply rbind_Ok in H as ([predicted lp] & Hd & H). simpl in H.
    apply Hdecode in Hd as (Hlen & Hrows).
    pose proof (rmap_Ok_Forall2 _ _ H) as HF.
    split; [rewrite (rmap_Ok_length _ _ H); exact Hlen|].
    clear H Hlen. induction HF as [|row r rows rs Hr _ IH].
    + repeat split; intros; constructor.
    + inversion Hrows as [|? ? (gen & -> & _) Hrest]; subst.
      destruct (IH Hrest) as (I1 & I2 & I3).
      split; [constructor; [eapply prune_no_eos; exact Hr | exact I1]|].
      split.
      * intros Hbp. constructor; [|auto].
        apply (proj1 (prune_keeps_bos _ Hbp Hr)).
      * intros Hbp Hbe. constructor; [|auto].
        apply (proj2 (prune_keeps_bos _ Hbp Hr)), Hbe.
  - intros smiles H. unfold sample_molecules in H.
    apply rbind_Ok in H as (seqs & Hs & H). inversion H; subst. eauto.
Qed.

Lemma sampled_sequences_invariants_witness :
  Forall (fun r => ~ In 3%Z r) [[2; 4; 4; 5]%Z; [2; 4; 4; 5]%Z] /\
  Forall (fun r => exists r', r = 2%Z :: r') [[2; 4; 4; 5]%Z; [2; 4; 4; 5]%Z].
Proof.
  destruct (proj1 (proj2 (@sampled_sequences_invariants nat Toy.tokenizer
                             Toy.speller Toy.model
                             [[4; 4; 5]%Z; [4]%Z] [[1; 1; 1]%Z; [1; 0; 0]%Z]))
                  [[2; 4; 4; 5]%Z; [2; 4; 4; 5]%Z] eq_refl)
    as (_ & Heos & _ & Hbos).
  split; [exact Heos|]. apply Hbos; discriminate.
Defined.

(** ** Positions of a tensor and sums of indicator tensors *)

Lemma positions_cons {A} (row : list A) (rest : list (list A)) :
  positions (row :: rest)
  = map (pair 0) (seq 0 (length row))
    ++ map (fun p => (S (fst p), snd p)) (positions rest).
Proof.
  unfold positions. simpl. f_equal.
  rewrite <- seq_shift.
  induction (seq 0 (length rest)) as [|i l IH]; simpl; [reflexivity|].
  rewrite map_app, map_map, IH. reflexivity.
Qed.

Lemma positions_same_shape {A B} (a : list (list A)) (b : list (list B)) :
  same_shape a b -> positions a = positions b.
Proof.
  unfold same_shape. revert b.
  induction a as [|ra a IH]; intros [|rb b] H; simpl in H; try discriminate.
  - reflexivity.
  - inversion H as [[Hr Hrest]]. rewrite !positions_cons, Hr.
    rewrite (IH b Hrest). reflexivity.
Qed.

Lemma entry_cons_0 {A} (row : list A) (rest : list (list A)) (j : nat) :
  entry (row :: rest) 0 j = nth_error row j.
Proof.
  reflexivity.
Qed.

Lemma entry_cons_S {A} (row : list A) (rest : list (list A)) (i j : nat) :
  entry (row :: rest) (S i) j = entry rest i j.
Proof.
  reflexivity.
Qed.

Lemma positions_In {A} (t : list (list A)) (i j : nat) (x : A) :
  entry t i j = Some x -> In (i, j) (positions t).
Proof.
  revert i. induction t as [|row rest IH]; intros i H.
  - unfold entry in H. destruct i; discriminate.
  - rewrite positions_cons. apply in_or_app. destruct i as [|i].
    + left. rewrite entry_cons_0 in H. apply in_map, in_seq.
      assert (j < length row) by (apply nth_error_Some; congruence). lia.
    + right. rewrite entry_cons_S in H.
      apply in_map_iff. exists (i, j). split; [reflexivity | apply IH, H].
Qed.

Lemma NoDup_map_injective {A B} (f : A -> B) (l : list A) :
  (forall x y, f x = f y -> x = y) -> NoDup l -> NoDup (map f l).
Proof.
  intros Hinj H. induction H as [|a l Hnin _ IH]; simpl; constructor;
    [|exact IH].
  intros Hin. apply in_map_iff in Hin as (y & E & Hy).
  apply Hinj in E. subst. contradiction.
Qed.

Lemma positions_NoDup {A} (t : list (list A)) : NoDup (positions t).
Proof.
  induction t as [|row rest IH]; [constructor|].
  rewrite positions_cons. apply NoDup_app.
  - apply NoDup_map_injective; [|apply seq_NoDup].
    intros x y E. inversion E. reflexivity.
  - apply NoDup_map_injective; [|exact IH].
    intros [i j] [i' j'] E. simpl in E. inversion E. reflexivity.
  - intros [i j] H0 HS. apply in_map_iff in H0 as (j0 & E0 & _).
    apply in_map_iff in HS as ([i1 j1] & E1 & _). simpl in E1.
    inversion E0. inversion E1. congruence.
Qed.

(** The sum of a vector of zeros and ones counts the indices of the
    ones. *)
Lemma sum_indicator_row (row : list Z) (f : nat -> bool) :
  (forall j x, nth_error row j = Some x -> x = if f j then 1%Z else 0%Z) ->
  fold_right Z.add 0%Z row
  = Z.of_nat (length (filter f (seq 0 (length row)))).
Proof.
  revert f. induction row as [|x row IH]; intros f H; [reflexivity|].
  simpl length. simpl seq. simpl fold_right.
  rewrite <- seq_shift, filter_map_swap.
  rewrite (IH (fun j => f (S j))) by (intros j y Hj; apply (H (S j) y Hj)).
  rewrite (H 0 x eq_refl). simpl filter.
  destruct (f 0); simpl length; rewrite length_map; lia.
Qed.

(** The sum of a tensor of zeros and ones counts the positions of the
    ones. *)
Lemma sum_indicator (t : list (list Z)) (f : nat * nat -> bool) :
  (forall i j x, entry t i j = Some x -> x = if f (i, j) then 1%Z else 0%Z) ->
  Tensor.sum t = Z.of_nat (length (filter f (positions t))).
Proof.
  revert f. induction t as [|row rest IH]; intros f H; [reflexivity|].
  rewrite positions_cons, filter_app, length_app, !filter_map_swap, !length_map.
  unfold Tensor.sum in *. simpl fold_right.
  rewrite (IH (fun p => f (S (fst p), snd p)))
    by (intros i j x Hx; apply (H (S i) j x Hx)).
  rewrite (sum_indicator_row row (fun j => f (0, j)))
    by (intros j x Hx; apply (H 0 j x Hx)).
  lia.
Qed.

Lemma filter_one_less {A} (f g : A -> bool) (l : list A) (p : A) :
  NoDup l -> In p l -> g p = true -> f p = false ->
  (forall q, In q l -> q <> p -> f q = g q) ->
  length (filter g l) = S (length (filter f l)).
Proof.
  intros Hnd. induction Hnd as [|a l Hnin Hnd IH]; intros Hin Hg Hf Hrest;
    [contradiction|].
  simpl. destruct Hin as [->|Hin].
  - rewrite Hg, Hf. simpl. f_equal.
    f_equal. apply filter_ext_in. intros q Hq. symmetry. apply Hrest.
    + right. exact Hq.
    + intros ->. contradiction.
  - assert (a <> p) by (intros ->; contradiction).
    rewrite (Hrest a (or_introl eq_refl)) by assumption.
    assert (E : length (filter g l) = S (length (filter f l))).
    { apply IH; try assumption. intros q Hq. apply Hrest. right. exact Hq. }
    destruct (g a); simpl; rewrite E; reflexivity.
Qed.

(** Shapes and entries of pointwise combinations. *)
Lemma zip_strict_entries {A B C} (f : A -> B -> C) a b c :
  Tensor.zip_strict f a b = Ok c ->
  length a = length c /\ length b = length c /\
  forall j x, nth_error c j = Some x ->
    exists u v, nth_error a j = Some u /\ nth_error b j = Some v /\ x = f u v.
Proof.
  revert b c. induction a as [|u a IH]; intros [|v b] c H; simpl in H;
    try discriminate.
  - inversion H; subst. repeat split. intros [|j] x Hx; discriminate.
  - apply rbind_Ok in H as (r & Hr & H). inversion H; subst.
    destruct (IH _ _ Hr) as (La & Lb & He). simpl.
    split; [congruence|]. split; [congruence|].
    intros [|j] x Hx; simpl in *.
    + inversion Hx; subst. eauto.
    + apply He, Hx.
Qed.

Lemma zip_strict_total {A B C} (f : A -> B -> C) a b :
  length a = length b -> exists c, Tensor.zip_strict f a b = Ok c.
Proof.
  revert b. induction a as [|u a IH]; intros [|v b] H; simpl in *;
    try discriminate.
  - eauto.
  - destruct (IH b) as (c & Hc); [lia|]. rewrite Hc. simpl. eauto.
Qed.

Lemma map2_entries {A B C} (f : A -> B -> C) a b c :
  Tensor.map2 f a b = Ok c ->
  same_shape a c /\ same_shape b c /\
  forall i j x, entry c i j = Some x ->
    exists u v, entry a i j = Some u /\ entry b i j = Some v /\ x = f u v.
Proof.
  unfold same_shape.
  revert b c. induction a as [|ra a IH]; intros [|rb b] c H; simpl in H;
    try discriminate.
  - inversion H; subst. repeat split. intros [|i] j x Hx; discriminate.
  - apply rbind_Ok in H as (row & Hrow & H).
    apply rbind_Ok in H as (rest & Hrest & H). inversion H; subst.
    destruct (IH _ _ Hrest) as (Sa & Sb & He).
    destruct (zip_strict_entries _ _ _ Hrow) as (La & Lb & Hre). simpl.
    split; [congruence|]. split; [congruence|].
    intros [|i] j x Hx.
    + rewrite entry_cons_0 in *. apply Hre, Hx.
    + rewrite entry_cons_S in *. apply He, Hx.
Qed.

Lemma map2_total {A B C} (f : A -> B -> C) a b :
  same_shape a b -> exists c, Tensor.map2 f a b = Ok c.
Proof.
  unfold same_shape.
  revert b. induction a as [|ra a IH]; intros [|rb b] H; simpl in *;
    try discriminate.
  - eauto.
  - inversion H as [[Hr Hrest]].
    destruct (zip_strict_total f ra rb Hr) as (row & Hrow).
    destruct (IH b Hrest) as (rest & Hc). rewrite Hrow, Hc. simpl. eauto.
Qed.

Lemma binary_entry (loss_mask : list (list Z)) i j m :
  binary loss_mask -> entry loss_mask i j = Some m -> m = 0%Z \/ m = 1%Z.
Proof.
  unfold binary, entry. intros Hb H.
  destruct (nth_error loss_mask i) as [row|] eqn:Er; [|discriminate].
  apply nth_error_In in Er. apply nth_error_In in H.
  rewrite Forall_forall in Hb. specialize (Hb row Er).
  rewrite Forall_forall in Hb. auto.
Qed.

(** ** [torch.max] *)

Lemma logit_ge_trans (a b c : logit) :
  logit_ltb a b = false -> logit_ltb b c = false -> logit_ltb a c = false.
Proof.
  destruct a as [|x], b as [|y], c as [|z]; simpl; intros H1 H2;
    try reflexivity; try discriminate.
  apply Z.ltb_ge in H1, H2. apply Z.ltb_ge. lia.
Qed.

Lemma logit_ge_refl (a : logit) : logit_ltb a a = false.
Proof.
  destruct a; simpl; [reflexivity | apply Z.ltb_irrefl].
Qed.

Lemma logit_lt_ge (a b : logit) : logit_ltb a b = true -> logit_ltb b a = false.
Proof.
  destruct a as [|x], b as [|y]; simpl; intros H; try reflexivity;
    try discriminate.
  apply Z.ltb_lt in H. apply Z.ltb_ge. lia.
Qed.

(** The running maximum reports a value that no later entry exceeds,
    found either at the carried index or at its own place in the list. *)
Lemma max_from_spec (l : list logit) :
  forall best_i best i v k,
    Tensor.max_from best_i best i l = (v, k) ->
    logit_ltb v best = false /\
    (forall x, In x l -> logit_ltb v x = false) /\
    ((k = best_i /\ v = best) \/
     (exists d, d < length l /\ k = i + d /\ nth_error l d = Some v)).
Proof.
  induction l as [|x xs IH]; intros best_i best i v k H; simpl in H.
  - inversion H; subst. split; [apply logit_ge_refl|].
    split; [intros x []|]. left. auto.
  - destruct (logit_ltb best x) eqn:E.
    + apply IH in H as (Hx & Hall & Hk).
      split; [eapply logit_ge_trans; [exact Hx | apply logit_lt_ge, E]|].
      split.
      * intros y [<-|Hy]; [exact Hx | apply Hall, Hy].
      * right. destruct Hk as [[-> ->]|(d & Hd & -> & Hn)].
        -- exists 0. simpl. split; [lia|]. split; [lia | reflexivity].
        -- exists (S d). simpl. split; [lia|]. split; [lia | exact Hn].
    + apply IH in H as (Hb & Hall & Hk).
      split; [exact Hb|]. split.
      * intros y [<-|Hy];
          [eapply logit_ge_trans; [exact Hb | exact E] | apply Hall, Hy].
      * destruct Hk as [Hk|(d & Hd & -> & Hn)]; [left; exact Hk|].
        right. exists (S d). simpl. split; [lia|]. split; [lia | exact Hn].
Qed.

(** [torch.max] along a row reports the index of a maximal entry. *)
Lemma max_is_argmax (row : list logit) (v : logit) (id : Z) :
  Tensor.max row = Ok (v, id) ->
  (0 <= id)%Z /\
  nth_error row (Z.to_nat id) = Some v /\
  forall x, In x row -> logit_ltb v x = false.
Proof.
  unfold Tensor.max. destruct row as [|x xs]; [discriminate|].
  destruct (Tensor.max_from 0 x 1 xs) as [v' k] eqn:E. simpl.
  intros H. inversion H; subst. clear H.
  apply max_from_spec in E as (Hx & Hall & Hk).
  split; [lia|]. rewrite Nat2Z.id. split.
  - destruct Hk as [[-> ->]|(d & Hd & -> & Hn)]; [reflexivity | exact Hn].
  - intros y [<-|Hy]; [exact Hx | apply Hall, Hy].
Qed.

Lemma max_dim2_entries (token_logits : list (list (list logit)))
  (values : list (list logit)) (predicted : list (list Z)) :
  Tensor.max_dim2 token_logits = Ok (values, predicted) ->
  same_shape predicted token_logits /\
  forall i j p, entry predicted i j = Some p ->
    exists row v,
      entry token_logits i j = Some row /\ Tensor.max row = Ok (v, p).
Proof.
  unfold Tensor.max_dim2. intros H.
  apply rbind_Ok in H as (vi & Hvi & H). inversion H; subst; clear H.
  split.
  - unfold same_shape. rewrite map_map.
    apply rmap_Ok_Forall2 in Hvi.
    induction Hvi as [|positions virow t vi Hrow _ IH]; [reflexivity|].
    simpl. rewrite length_map, (rmap_Ok_length _ _ Hrow), IH. reflexivity.
  - intros i j p Hp. unfold entry in *.
    rewrite nth_error_map in Hp.
    destruct (nth_error vi i) as [virow|] eqn:Ev; [|discriminate].
    simpl in Hp. rewrite nth_error_map in Hp.
    destruct (nth_error virow j) as [[v p']|] eqn:Ej; [|discriminate].
    simpl in Hp. inversion Hp; subst p'. clear Hp.
    destruct (nth_error token_logits i) as [positions|] eqn:Et.
    + destruct (rmap_nth _ _ i Hvi Et) as (virow' & Hrow & Ev').
      rewrite Ev in Ev'. inversion Ev'; subst virow'.
      destruct (nth_error positions j) as [row|] eqn:Er.
      * destruct (rmap_nth _ _ j Hrow Er) as (vp & Hmax & Ej').
        rewrite Ej in Ej'. inversion Ej'; subst. eauto.
      * apply nth_error_None in Er. apply rmap_Ok_length in Hrow.
        assert (j < length virow) by (apply nth_error_Some; congruence). lia.
    + apply nth_error_None in Et. apply rmap_Ok_length in Hvi.
      assert (i < length vi) by (apply nth_error_Some; congruence). lia.
Qed.

(** ** [calculate_character_accuracy] *)

Lemma same_shape_sym {A B} (a : list (list A)) (b : list (list B)) :
  same_shape a b -> same_shape b a.
Proof.
  unfold same_shape. intros H. symmetry. exact H.
Qed.

Lemma same_shape_trans {A B C} (a : list (list A)) (b : list (list B))
  (c : list (list C)) :
  same_shape a b -> same_shape b c -> same_shape a c.
Proof.
  unfold same_shape. intros H1 H2. congruence.
Qed.

Lemma sum_loss_mask (loss_mask : list (list Z)) :
  binary loss_mask ->
  Tensor.sum loss_mask = Z.of_nat (active_count loss_mask).
Proof.
  intros Hb. unfold active_count. apply sum_indicator.
  intros i j x Hx. unfold active. simpl. rewrite Hx.
  destruct (binary_entry _ _ Hb Hx) as [->| ->]; reflexivity.
Qed.

Lemma sum_correct_tokens (predicted labels loss_mask eqs correct_tokens
                          : list (list Z)) :
  binary loss_mask ->
  Tensor.map2 (fun l p => if (l =? p)%Z then 1%Z else 0%Z) labels predicted
  = Ok eqs ->
  Tensor.map2 Z.mul eqs loss_mask = Ok correct_tokens ->
  Tensor.sum correct_tokens
  = Z.of_nat (correct_count predicted labels loss_mask).
Proof.
  intros Hb He Hc. unfold correct_count.
  destruct (map2_entries _ _ _ He) as (_ & _ & Hee).
  destruct (map2_entries _ _ _ Hc) as (_ & Hshape & Hce).
  rewrite (positions_same_shape Hshape). apply sum_indicator.
  intros i j x Hx. destruct (Hce _ _ _ Hx) as (e & m & Hei & Hm & ->).
  destruct (Hee _ _ _ Hei) as (l & p & Hl & Hp & ->).
  unfold active, correct. simpl. rewrite Hm, Hl, Hp.
  rewrite (Z.eqb_sym p l).
  destruct (binary_entry _ _ Hb Hm) as [->| ->];
    destruct (l =? p)%Z; reflexivity.
Qed.

Lemma active_in_positions (loss_mask : list (list Z)) (p : nat * nat) :
  active loss_mask p = true -> In p (positions loss_mask).
Proof.
  destruct p as [i j]. unfold active. simpl.
  destruct (entry loss_mask i j) as [m|] eqn:E; [|discriminate].
  intros _. eapply positions_In, E.
Qed.

(** C8.  For a loss mask of zeros and ones:
    - on logits, labels and mask of one shape with at least one active
      position, [calculate_character_accuracy] returns;
    - whatever it returns is the number of positions where the mask is
      1 and the index reported by [torch.max] (the index of a maximal
      logit of that position) equals the label, divided by the number
      of positions where the mask is 1;
    - it is 1 when the prediction equals the label at every active
      position, and 9/10 when there are 10 active positions and the
      prediction differs from the label at exactly one of them. *)
Theorem character_accuracy_counts
  (token_logits : list (list (list logit))) (loss_mask labels : list (list Z)) :
  binary loss_mask ->
  (forall values predicted,
     Tensor.max_dim2 token_logits = Ok (values, predicted) ->
     same_shape labels predicted ->
     same_shape predicted loss_mask ->
     0 < active_count loss_mask ->
     exists acc,
       calculate_character_accuracy token_logits loss_mask labels = Ok acc) /\
  (forall acc,
     calculate_character_accuracy token_logits loss_mask labels = Ok acc ->
     exists values predicted,
       Tensor.max_dim2 token_logits = Ok (values, predicted) /\
       (forall i j p,
          entry predicted i j = Some p ->
          exists row v,
            entry token_logits i j = Some row /\
            (0 <= p)%Z /\
            nth_error row (Z.to_nat p) = Some v /\
            forall x, In x row -> logit_ltb v x = false) /\
       0 < active_count loss_mask /\
       (acc == inject_Z (Z.of_nat (correct_count predicted labels loss_mask))
               / inject_Z (Z.of_nat (active_count loss_mask)))%Q /\
       ((forall p, active loss_mask p = true ->
                   correct predicted labels p = true) ->
        (acc == 1)%Q) /\
       (active_count loss_mask = 10 ->
        forall p0,
          active loss_mask p0 = true ->
          correct predicted labels p0 = false ->
          (forall p, p <> p0 -> active loss_mask p = true ->
                     correct predicted labels p = true) ->
          (acc == 9 # 10)%Q)).
Proof.
  intros Hb. split.
  - intros values predicted Hmax Hlp Hpm Hpos.
    unfold calculate_character_accuracy. rewrite Hmax. simpl.
    destruct (map2_total (fun l p => if (l =? p)%Z then 1%Z else 0%Z) Hlp)
      as (eqs & He).
    rewrite He. simpl.
    destruct (map2_entries _ _ _ He) as (_ & Hs & _).
    destruct (map2_total Z.mul
                (same_shape_trans (same_shape_sym Hs) Hpm)) as (c & Hc).
    rewrite Hc. simpl. rewrite (sum_loss_mask Hb).
    destruct (Z.eqb_spec (Z.of_nat (active_count loss_mask)) 0); [lia|].
    eauto.
  - intros acc H. unfold calculate_character_accuracy in H.
    apply rbind_Ok in H as ([values predicted] & Hmax & H). simpl in H.
    apply rbind_Ok in H as (eqs & He & H).
    apply rbind_Ok in H as (c & Hc & H).
    rewrite (sum_correct_tokens _ _ Hb He Hc), (sum_loss_mask Hb) in H.
    destruct (Z.eqb_spec (Z.of_nat (active_count loss_mask)) 0) as [|Hne];
      [discriminate|].
    inversion H; subst acc; clear H.
    exists values, predicted. split; [exact Hmax|]. split.
    { intros i j p Hp.
      destruct (proj2 (max_dim2_entries _ Hmax) i j p Hp)
        as (row & v & Hrow & Hm).
      apply max_is_argmax in Hm as (H0 & Hn & Hall).
      exists row, v. auto. }
    split; [lia|]. split; [reflexivity|].
    assert (Hnz : ~ (inject_Z (Z.of_nat (active_count loss_mask)) == 0)%Q).
    { unfold Qeq. simpl. lia. }
    split.
    + intros Hall.
      assert (E : correct_count predicted labels loss_mask
                  = active_count loss_mask).
      { unfold correct_count, active_count. f_equal.
        apply filter_ext_in. intros p Hp.
        destruct (active loss_mask p) eqn:Ea; [|reflexivity].
        rewrite (Hall p Ea). reflexivity. }
      rewrite E. apply Qmult_inv_r, Hnz.
    + intros H10 p0 Ha Hc0 Hrest.
      assert (E : active_count loss_mask
                  = S (correct_count predicted labels loss_mask)).
      { unfold correct_count, active_count.
        apply filter_one_less with (p := p0).
        - apply positions_NoDup.
        - apply active_in_positions, Ha.
        - exact Ha.
        - rewrite Ha, Hc0. reflexivity.
        - intros q _ Hq. destruct (active loss_mask q) eqn:Ea; [|reflexivity].
          rewrite (Hrest q Hq Ea). reflexivity. }
      assert (E9 : correct_count predicted labels loss_mask = 9) by lia.
      rewrite E9, H10. reflexivity.
Qed.

Lemma toy_accuracy_mask_binary : binary Toy.accuracy_mask.
Proof.
  unfold binary, Toy.accuracy_mask.
  repeat first [ apply Forall_nil | apply Forall_cons
               | left; reflexivity | right; reflexivity ].
Defined.

Lemma character_accuracy_counts_witness :
  exists acc,
    calculate_character_accuracy Toy.accuracy_logits Toy.accuracy_mask
                                 Toy.accuracy_labels = Ok acc /\
    (acc == 9 # 10)%Q.
Proof.
  destruct (proj2 (character_accuracy_counts Toy.accuracy_logits
                     Toy.accuracy_labels toy_accuracy_mask_binary)
                  (9 # 10)%Q eq_refl)
    as (values & predicted & Hmax & _ & _ & _ & _ & H9).
  exists (9 # 10)%Q. split; [reflexivity|].
  vm_compute in Hmax. injection Hmax as _ Hp. subst predicted.
  apply (H9 eq_refl (1, 2)); [reflexivity | reflexivity |].
  intros p Hne Ha. pose proof (active_in_positions _ _ Ha) as Hin.
  vm_compute in Hin.
  repeat (destruct Hin as [<-|Hin];
          [first [ reflexivity | discriminate Ha
                 | exfalso; apply Hne; reflexivity ]|]).
  destruct Hin.
Defined.

(** * Further properties of [MoleculeEnumeration] *)

(** ** [_smiles_augmeter_func] beyond the fallback *)

Lemma nonempty_string (x : string) : (0 <? String.length x) = true -> x <> ""%string.
Proof.
  intros H ->. discriminate H.
Qed.

Lemma assert_Ok (b : bool) (u : unit) : assert b = Ok u -> b = true.
Proof.
  destruct b; [reflexivity | discriminate].
Qed.

(** What a returned pair of [_smiles_augmeter_func] guarantees: the
    input parsed; neither string is empty; the target is the canonical
    rendering of the parsed molecule under [canonicalize_input] and the
    input string itself otherwise; without augmentation the variant is
    the non-canonical rendering of the parsed molecule and the random
    state is untouched; with augmentation the state advanced by one
    shuffle of the atom indices and the variant is the non-canonical
    rendering of the renumbered molecule or, where that rendering
    fails, the canonical rendering of the parsed one. *)
Theorem augmenter_postconditions
  {rng : Type} {RS : RandomSource rng} {SC : StructureCodec}
  (self : MoleculeEnumeration) (smiles : string) (augment_data : bool)
  (s s' : rng) (variant target : string) :
  _smiles_augmeter_func self smiles augment_data s
  = Ok ((variant, target), s') ->
  exists mol,
    MolFromSmiles smiles = Some mol /\
    variant <> ""%string /\ target <> ""%string /\
    (if canonicalize_input self
     then MolToSmiles mol true = Some target
     else target = smiles) /\
    (if augment_data
     then
       s' = snd (shuffle (seq 0 (GetNumAtoms mol)) s) /\
       let aug_mol :=
         RenumberAtoms mol (fst (shuffle (seq 0 (GetNumAtoms mol)) s)) in
       (MolToSmiles aug_mol false = Some variant \/
        (MolToSmiles aug_mol false = None /\
         MolToSmiles mol true = Some variant))
     else s' = s /\ MolToSmiles mol false = Some variant).
Proof.
  unfold _smiles_augmeter_func. intros H.
  apply mbind_Ok in H as (canon & s1 & Hc & H).
  apply mlift_Ok in Hc as [Hc ->].
  apply mbind_Ok in H as (aug & s2 & Ha & H).
  apply mbind_Ok in H as (u1 & s3 & H1 & H).
  apply mlift_Ok in H1 as [H1 ->].
  apply mbind_Ok in H as (u2 & s4 & H2 & H).
  apply mlift_Ok in H2 as [H2 ->].
  inversion H; subst variant target s'; clear H.
  apply assert_Ok, nonempty_string in H1.
  apply assert_Ok, nonempty_string in H2.
  destruct (MolFromSmiles smiles) as [mol|] eqn:Hmol.
  - exists mol. split; [reflexivity|]. split; [exact H1|]. split; [exact H2|].
    split.
    + destruct (canonicalize_input self).
      * simpl in Hc. destruct (MolToSmiles mol true); inversion Hc; reflexivity.
      * inversion Hc; reflexivity.
    + destruct augment_data.
      * apply mbind_Ok in Ha as (order & s5 & Ho & Ha).
        injection Ho as Ho.
        apply mlift_Ok in Ha as [Ha ->]. rewrite Ho. simpl fst. simpl snd.
        split; [reflexivity|].
        simpl in Ha. cbv zeta.
        destruct (MolToSmiles (RenumberAtoms mol order) false)
          as [v|] eqn:Er; simpl in Ha.
        -- inversion Ha; subst. left. reflexivity.
        -- right. split; [reflexivity|].
           destruct (canonicalize_input self).
           ++ simpl in Hc. inversion Ha; subst.
              destruct (MolToSmiles mol true); inversion Hc; reflexivity.
           ++ destruct (MolToSmiles mol true); inversion Ha; reflexivity.
      * apply mlift_Ok in Ha as [Ha ->]. split; [reflexivity|].
        simpl in Ha. destruct (MolToSmiles mol false); inversion Ha; reflexivity.
  - exfalso. destruct (canonicalize_input self); [discriminate Hc|].
    destruct augment_data; [discriminate Ha|].
    apply mlift_Ok in Ha as [Ha _]. discriminate Ha.
Qed.

Lemma augmenter_postconditions_witness :
  exists mol,
    @MolFromSmiles Toy.codec "OCC"%string = Some mol /\
    @MolToSmiles Toy.codec mol true = Some "CCO"%string.
Proof.
  destruct (@augmenter_postconditions nat Toy.random Toy.codec
              Toy.enumeration "OCC"%string false 0 0
              "OCC"%string "CCO"%string eq_refl)
    as (mol & Hm & _ & _ & Hc & _).
  exists mol. split; [exact Hm | exact Hc].
Defined.

(** A string that does not parse never gets through: the first RDKit
    call on [None] raises, which is [mol.GetNumAtoms()] (an
    [AttributeError]) when augmenting without canonicalization and
    [MolToSmiles] (an [ArgumentError]) otherwise; nothing is drawn from
    the random state before. *)
Theorem augmenter_unparseable
  {rng : Type} {RS : RandomSource rng} {SC : StructureCodec}
  (self : MoleculeEnumeration) (smiles : string) (augment_data : bool)
  (s : rng) :
  MolFromSmiles smiles = None ->
  _smiles_augmeter_func self smiles augment_data s
  = Raise (if canonicalize_input self then ArgumentError
           else if augment_data then AttributeError else ArgumentError).
Proof.
  intros Hmol. unfold _smiles_augmeter_func, mbind, mlift. rewrite Hmol.
  destruct (canonicalize_input self); [reflexivity|].
  destruct augment_data; reflexivity.
Qed.

Lemma augmenter_unparseable_witness :
  @_smiles_augmeter_func nat Toy.random Toy.codec Toy.enumeration
                         ""%string true 0 = Raise ArgumentError.
Proof.
  apply (@augmenter_unparseable nat Toy.random Toy.codec Toy.enumeration
           ""%string true 0 eq_refl).
Defined.

(** ** [_check_seq_len]: bounds, alignment, a negative cap *)

Lemma slice_to_prefix {A} (l : list A) (n : Z) :
  exists rest, l = Py.slice_to l n ++ rest.
Proof.
  unfold Py.slice_to. destruct (0 <=? n)%Z.
  - exists (skipn (Z.to_nat n) l). symmetry. apply firstn_skipn.
  - exists (skipn (length l - Z.to_nat (- n)) l). symmetry. apply firstn_skipn.
Qed.

Lemma slice_to_length {A} (l : list A) (n : Z) :
  length (Py.slice_to l n)
  = if (0 <=? n)%Z then Nat.min (Z.to_nat n) (length l)
    else length l - Z.to_nat (- n).
Proof.
  unfold Py.slice_to. destruct (0 <=? n)%Z; rewrite length_firstn; lia.
Qed.

Lemma check_seq_len_cases {T U : Type} (self : MoleculeEnumeration)
  (tokens tokens' : list (list T)) (mask mask' : list (list U)) :
  _check_seq_len self tokens mask = Ok (tokens', mask') ->
  tokens <> [] /\
  ((tokens' = tokens /\ mask' = mask /\
    (Z.of_nat (list_max (map (@length T) tokens)) <= seq_length self)%Z) \/
   (tokens' = map (fun ts => Py.slice_to ts (seq_length self)) tokens /\
    mask' = map (fun ms => Py.slice_to ms (seq_length self)) mask /\
    (seq_length self < Z.of_nat (list_max (map (@length T) tokens)))%Z)).
Proof.
  unfold _check_seq_len. intros H.
  apply rbind_Ok in H as (n & Hmax & H).
  assert (Hne : tokens <> []) by (intros ->; discriminate Hmax).
  rewrite py_max_nonempty in Hmax
    by (destruct tokens; [contradiction | discriminate]).
  inversion Hmax; subst n; clear Hmax. split; [exact Hne|].
  destruct (Z.ltb_spec (seq_length self)
              (Z.of_nat (list_max (map (@length T) tokens))));
    inversion H; subst; auto.
Qed.

Lemma check_seq_len_rows {T U : Type} (self : MoleculeEnumeration)
  (tokens tokens' : list (list T)) (mask mask' : list (list U)) :
  _check_seq_len self tokens mask = Ok (tokens', mask') ->
  length tokens' = length tokens /\ length mask' = length mask.
Proof.
  intros H.
  apply check_seq_len_cases in H as (_ & [(-> & -> & _)|(-> & -> & _)]);
    rewrite ?length_map; auto.
Qed.

Lemma check_seq_len_bound {T U : Type} (self : MoleculeEnumeration)
  (tokens tokens' : list (list T)) (mask mask' : list (list U)) :
  _check_seq_len self tokens mask = Ok (tokens', mask') ->
  (0 <= seq_length self)%Z ->
  forall ts, In ts tokens' -> (Z.of_nat (length ts) <= seq_length self)%Z.
Proof.
  intros H Hcap ts Hin.
  apply check_seq_len_cases in H as (_ & [(-> & _ & Hle)|(-> & _ & _)]).
  - assert (length ts <= list_max (map (@length T) tokens))
      by (apply list_max_ge, in_map, Hin). lia.
  - apply in_map_iff in Hin as (ts0 & <- & _). rewrite slice_to_length.
    destruct (Z.leb_spec 0 (seq_length self)); lia.
Qed.

Lemma slice_to_repeat {A} (x : A) (n : nat) (c : Z) :
  Py.slice_to (repeat x n) c
  = repeat x (length (Py.slice_to (repeat x n) c)).
Proof.
  unfold Py.slice_to.
  assert (E : forall k, firstn k (repeat x n)
                        = repeat x (length (firstn k (repeat x n)))).
  { intros k. revert n. induction k as [|k IH]; intros [|n]; simpl;
      try reflexivity. f_equal. apply IH. }
  destruct (0 <=? c)%Z; apply E.
Qed.

(** An all-[True] mask of the shape of the tokens is still one after
    the check. *)
Lemma check_seq_len_unmasked {T : Type} (self : MoleculeEnumeration)
  (tokens tokens' : list (list T)) (mask' : list (list bool)) :
  _check_seq_len self tokens
    (map (fun ts => repeat true (length ts)) tokens) = Ok (tokens', mask') ->
  mask' = map (fun ts => repeat true (length ts)) tokens'.
Proof.
  intros H.
  apply check_seq_len_cases in H as (_ & [(-> & -> & _)|(-> & -> & _)]);
    [reflexivity|].
  rewrite !map_map. apply map_ext. intros ts.
  rewrite slice_to_repeat. f_equal.
  rewrite !slice_to_length, repeat_length. reflexivity.
Qed.

(** Whatever [_check_seq_len] returns has the rows of its input, each
    token row and each mask row being a prefix of the row it comes
    from; a mask that is aligned with the tokens (row by row of the
    same length) stays aligned; and under a cap that is not negative no
    returned token row is longer than [seq_length]. *)
Theorem check_seq_len_invariants {T U : Type} (self : MoleculeEnumeration)
  (tokens tokens' : list (list T)) (mask mask' : list (list U)) :
  _check_seq_len self tokens mask = Ok (tokens', mask') ->
  length tokens' = length tokens /\
  length mask' = length mask /\
  Forall2 (fun ts' ts => exists rest, ts = ts' ++ rest) tokens' tokens /\
  Forall2 (fun ms' ms => exists rest, ms = ms' ++ rest) mask' mask /\
  (map (@length U) mask = map (@length T) tokens ->
   map (@length U) mask' = map (@length T) tokens') /\
  ((0 <= seq_length self)%Z ->
   Forall (fun ts => (Z.of_nat (length ts) <= seq_length self)%Z) tokens').
Proof.
  intros H. apply check_seq_len_cases in H as (Hne & [(-> & -> & Hle)|(-> & -> & Hlt)]).
  - split; [reflexivity|]. split; [reflexivity|].
    assert (Hrefl : forall (A : Type) (l : list (list A)),
               Forall2 (fun x' x => exists rest, x = x' ++ rest) l l).
    { intros A l. induction l; constructor; [|assumption].
      exists []. symmetry. apply app_nil_r. }
    split; [apply Hrefl|]. split; [apply Hrefl|]. split; [auto|].
    intros _. apply Forall_forall. intros ts Hin.
    assert (length ts <= list_max (map (@length T) tokens))
      by (apply list_max_ge, in_map, Hin). lia.
  - rewrite !length_map. split; [reflexivity|]. split; [reflexivity|].
    assert (Hpre : forall (A : Type) (l : list (list A)),
               Forall2 (fun x' x => exists rest, x = x' ++ rest)
                       (map (fun x => Py.slice_to x (seq_length self)) l) l).
    { intros A l. induction l; simpl; constructor; [|assumption].
      apply slice_to_prefix. }
    split; [apply Hpre|]. split; [apply Hpre|]. split.
    + intros Hal. rewrite !map_map.
      revert mask Hal. clear.
      induction tokens as [|ts tokens IH]; intros [|ms mask] Hal;
        simpl in *; try discriminate; [reflexivity|].
      inversion Hal as [[Hl Hrest]]. rewrite !slice_to_length, Hl.
      f_equal. apply IH, Hrest.
    + intros Hcap. apply Forall_forall. intros ts' Hin.
      apply in_map_iff in Hin as (ts & <- & _).
      rewrite slice_to_length.
      destruct (Z.leb_spec 0 (seq_length self)); lia.
Qed.

Lemma check_seq_len_invariants_witness :
  Forall (fun ts : list Z => (Z.of_nat (length ts) <= 4)%Z)
         [[4; 4; 5]; [6; 7; 6; 6]]%Z.
Proof.
  apply (proj2 (proj2 (proj2 (proj2 (proj2
           (@check_seq_len_invariants Z bool Toy.enumeration
              [[4; 4; 5]; [6; 7; 6; 6; 6]]%Z [[4; 4; 5]; [6; 7; 6; 6]]%Z
              [[true; true; true]; [true; true; true; true; true]]
              [[true; true; true]; [true; true; true; true]]
              eq_refl)))))).
  simpl. lia.
Defined.

(** A negative [seq_length] is not rejected: on a non-empty batch the
    check then always shortens, and since [ts[:seq_length]] counts from
    the end, every token row and every mask row loses its last
    [-seq_length] entries (all of them, when it has no more). *)
Theorem check_seq_len_negative_cap {T U : Type} (self : MoleculeEnumeration)
  (tokens : list (list T)) (mask : list (list U)) :
  tokens <> [] ->
  (seq_length self < 0)%Z ->
  _check_seq_len self tokens mask
  = Ok (map (fun ts => firstn (length ts - Z.to_nat (- seq_length self)) ts)
            tokens,
        map (fun ms => firstn (length ms - Z.to_nat (- seq_length self)) ms)
            mask).
Proof.
  intros Hne Hneg. unfold _check_seq_len.
  rewrite py_max_nonempty by (destruct tokens; [contradiction | discriminate]).
  simpl rbind.
  assert (Hlt : (seq_length self
                 <? Z.of_nat (list_max (map (@length T) tokens)))%Z = true)
    by (apply Z.ltb_lt; lia).
  rewrite Hlt. unfold Py.slice_to.
  assert (Hn : (0 <=? seq_length self)%Z = false) by (apply Z.leb_gt; lia).
  rewrite Hn. reflexivity.
Qed.

Lemma check_seq_len_negative_cap_witness :
  _check_seq_len
    {| seq_length := -1; encoder_augment := false; encoder_mask := false;
       decoder_augment := false; decoder_mask := false;
       canonicalize_input := false; pad_size_divisible_by_8 := false |}
    [[4; 4; 5]; [6]]%Z [[true; true; true]; [true]]
  = Ok ([[4; 4]; []]%Z, [[true; true]; []]).
Proof.
  apply (@check_seq_len_negative_cap Z bool
           {| seq_length := -1; encoder_augment := false;
              encoder_mask := false; decoder_augment := false;
              decoder_mask := false; canonicalize_input := false;
              pad_size_divisible_by_8 := false |}
           [[4; 4; 5]; [6]]%Z [[true; true; true]; [true]]);
    [discriminate | simpl; lia].
Defined.

(** ** [_pad_seqs]: the width is minimal, the padding can be undone *)

Lemma list_max_attained (l : list nat) : l <> [] -> In (list_max l) l.
Proof.
  induction l as [|x [|y l] IH]; intros Hne; [contradiction | |].
  - simpl. left. lia.
  - change (list_max (x :: y :: l)) with (Nat.max x (list_max (y :: l))).
    destruct (Nat.max_spec x (list_max (y :: l))) as [[_ E]|[_ E]]; rewrite E.
    + right. apply IH. discriminate.
    + left. reflexivity.
Qed.

Lemma ceil8_lt (n : nat) : Py.ceil8 n < n + 8.
Proof.
  unfold Py.ceil8.
  pose proof (Nat.div_mod_eq (n + 7) 8) as E.
  pose proof (Nat.mod_upper_bound (n + 7) 8) as B. lia.
Qed.

Lemma ceil8_monotone (n m : nat) : n <= m -> Py.ceil8 n <= Py.ceil8 m.
Proof.
  intros H. destruct (ceil8_multiple m) as (k & Ek). rewrite Ek.
  apply ceil8_least. rewrite <- Ek. pose proof (ceil8_ge m). lia.
Qed.

Lemma pad_seqs_Ok (self : MoleculeEnumeration) seqs pad_token padded masks :
  _pad_seqs self seqs pad_token = Ok (padded, masks) ->
  seqs <> [] /\
  padded = map (pad_row (pad_width self seqs) pad_token) seqs /\
  masks = map (mask_row (pad_width self seqs)) seqs.
Proof.
  intros H.
  assert (Hne : seqs <> []) by (eapply pad_seqs_Ok_nonempty; exact H).
  rewrite pad_seqs_eq in H by assumption. inversion H; subst. auto.
Qed.

(** [_pad_seqs] pads no further than it has to.  All rows of the padded
    batch and of the mask have one width [W]; some sequence [longest]
    of the batch is at least as long as every other; without
    [pad_size_divisible_by_8], [W] is its length, so that sequence gets
    no padding; with it, [W] is the least multiple of 8 that is not
    smaller.  Either way fewer than 8 columns are added to the longest
    sequence. *)
Theorem pad_seqs_width_minimal (self : MoleculeEnumeration)
  (seqs : list (list Z)) (pad_token : Z) (padded masks : list (list Z)) :
  _pad_seqs self seqs pad_token = Ok (padded, masks) ->
  exists W longest,
    In longest seqs /\
    (forall seq, In seq seqs -> length seq <= length longest) /\
    Forall (fun row => length row = W) padded /\
    Forall (fun row => length row = W) masks /\
    length longest <= W < length longest + 8 /\
    (pad_size_divisible_by_8 self = false -> W = length longest) /\
    (pad_size_divisible_by_8 self = true ->
     (exists k, W = 8 * k) /\
     forall k, length longest <= 8 * k -> W <= 8 * k).
Proof.
  intros H. apply pad_seqs_Ok in H as (Hne & -> & ->).
  assert (Hl : map (@length Z) seqs <> [])
    by (destruct seqs; [contradiction | discriminate]).
  pose proof (list_max_attained Hl) as Hin.
  apply in_map_iff in Hin as (longest & El & Hin).
  exists (pad_width self seqs), longest.
  split; [exact Hin|]. split.
  { intros seq Hs. rewrite El. apply list_max_ge, in_map, Hs. }
  split; [apply padded_rows_length|]. split; [apply mask_rows_length|].
  unfold pad_width. rewrite <- El.
  destruct (pad_size_divisible_by_8 self).
  - split; [split; [apply ceil8_ge | apply ceil8_lt]|].
    split; [discriminate|]. intros _.
    split; [apply ceil8_multiple | apply ceil8_least].
  - split; [lia|]. split; [reflexivity | discriminate].
Qed.

Lemma pad_seqs_width_minimal_witness :
  exists W longest,
    In longest [[4; 4; 5]; [6]]%Z /\ length longest <= W < length longest + 8.
Proof.
  destruct (@pad_seqs_width_minimal Toy.enumeration [[4; 4; 5]; [6]]%Z 0%Z
              _ _ eq_refl) as (W & longest & Hin & _ & _ & _ & Hw & _).
  exists W, longest. split; [exact Hin | exact Hw].
Defined.

Lemma masked_select_padding (pad_token : Z) (seq : list Z) (k : nat) :
  masked_select (seq ++ repeat pad_token k)
                (repeat 1%Z (length seq) ++ repeat 0%Z k) = seq.
Proof.
  unfold masked_select. induction seq as [|x xs IH]; simpl.
  - induction k as [|k IH]; simpl; [reflexivity | exact IH].
  - f_equal. exact IH.
Qed.

Lemma masked_select_pad_row (W : nat) (pad_token : Z) (seq : list Z) :
  masked_select (pad_row W pad_token seq) (mask_row W seq) = seq.
Proof.
  apply masked_select_padding.
Qed.

Lemma mask_row_ones (W : nat) (seq : list Z) :
  count_occ Z.eq_dec (mask_row W seq) 1%Z = length seq.
Proof.
  unfold mask_row. rewrite count_occ_app, count_occ_repeat_eq.
  rewrite count_occ_repeat_neq by discriminate. lia.
Qed.

(** Padding loses nothing: row by row, selecting the entries of the
    padded row where the mask is 1 gives back the sequence, whatever
    the pad token (also when the sequence itself holds it); the number
    of ones of the mask row is the length of the sequence and the ones
    come first. *)
Theorem pad_seqs_round_trip (self : MoleculeEnumeration)
  (seqs : list (list Z)) (pad_token : Z) (padded masks : list (list Z)) :
  _pad_seqs self seqs pad_token = Ok (padded, masks) ->
  length padded = length seqs /\
  length masks = length seqs /\
  forall i seq,
    nth_error seqs i = Some seq ->
    exists row mrow,
      nth_error padded i = Some row /\
      nth_error masks i = Some mrow /\
      masked_select row mrow = seq /\
      firstn (length seq) row = seq /\
      count_occ Z.eq_dec mrow 1%Z = length seq /\
      firstn (length seq) mrow = repeat 1%Z (length seq).
Proof.
  intros H. apply pad_seqs_Ok in H as (Hne & -> & ->).
  rewrite !length_map. split; [reflexivity|]. split; [reflexivity|].
  intros i seq Hi.
  exists (pad_row (pad_width self seqs) pad_token seq),
         (mask_row (pad_width self seqs) seq).
  rewrite !nth_error_map, Hi. simpl.
  split; [reflexivity|]. split; [reflexivity|].
  split; [apply masked_select_pad_row|]. split.
  - unfold pad_row. rewrite firstn_app, firstn_all, Nat.sub_diag. simpl.
    apply app_nil_r.
  - split; [apply mask_row_ones|]. unfold mask_row.
    rewrite firstn_app, repeat_length, Nat.sub_diag. simpl.
    rewrite app_nil_r. apply firstn_all2. rewrite repeat_length. lia.
Qed.

Lemma pad_seqs_round_trip_witness :
  length [[4; 0; 5; 0; 0; 0; 0; 0]; [6; 0; 0; 0; 0; 0; 0; 0]]%Z
  = length [[4; 0; 5]; [6]]%Z.
Proof.
  apply (proj1 (@pad_seqs_round_trip Toy.enumeration [[4; 0; 5]; [6]]%Z 0%Z
                  [[4; 0; 5; 0; 0; 0; 0; 0]; [6; 0; 0; 0; 0; 0; 0; 0]]%Z
                  [[1; 1; 1; 0; 0; 0; 0; 0]; [1; 0; 0; 0; 0; 0; 0; 0]]%Z
                  eq_refl)).
Defined.

(** ** [_prepare_tokens]: targets and masks *)

Lemma mmap_Ok_Forall2 {S A B} (f : A -> M S B) (l : list A) :
  forall s l' s',
    mmap f l s = Ok (l', s') ->
    Forall2 (fun x y => exists sa sb, f x sa = Ok (y, sb)) l l'.
Proof.
  induction l as [|x xs IH]; intros s l' s' H; simpl in H.
  - inversion H. constructor.
  - apply mbind_Ok in H as (y & s1 & Hy & H).
    apply mbind_Ok in H as (ys & s2 & Hys & H).
    inversion H; subst. constructor; [eauto | eapply IH; exact Hys].
Qed.

Lemma Forall2_length_eq {A B} (R : A -> B -> Prop) l l' :
  Forall2 R l l' -> length l = length l'.
Proof.
  induction 1; simpl; congruence.
Qed.

(** The target of a returned pair. *)
Lemma augmenter_target
  {rng : Type} {RS : RandomSource rng} {SC : StructureCodec}
  (self : MoleculeEnumeration) (smiles : string) (augment_data : bool)
  (s s' : rng) (variant target : string) :
  _smiles_augmeter_func self smiles augment_data s
  = Ok ((variant, target), s') ->
  exists mol,
    MolFromSmiles smiles = Some mol /\ target <> ""%string /\
    if canonicalize_input self
    then MolToSmiles mol true = Some target
    else target = smiles.
Proof.
  unfold _smiles_augmeter_func. intros H.
  apply mbind_Ok in H as (canon & s1 & Hc & H).
  apply mlift_Ok in Hc as [Hc ->].
  apply mbind_Ok in H as (aug & s2 & Ha & H).
  apply mbind_Ok in H as (u1 & s3 & _ & H).
  apply mbind_Ok in H as (u2 & s4 & H2 & H).
  apply mlift_Ok in H2 as [H2 _].
  inversion H; subst variant target s'; clear H.
  apply assert_Ok, nonempty_string in H2.
  destruct (MolFromSmiles smiles) as [mol|] eqn:Hmol.
  - exists mol. split; [reflexivity|]. split; [exact H2|].
    destruct (canonicalize_input self).
    + simpl in Hc. destruct (MolToSmiles mol true); inversion Hc; reflexivity.
    + inversion Hc; reflexivity.
  - exfalso. destruct (canonicalize_input self); [discriminate Hc|].
    destruct augment_data; [discriminate Ha|].
    apply mlift_Ok in Ha as [Ha _]. discriminate Ha.
Qed.

Section PrepareFacts.

Context {rng : Type} {RS : RandomSource rng}.
Context {SC : StructureCodec} {TK : Tokenizer rng}.
Variable self : MoleculeEnumeration.

(** The three stages of [_prepare_tokens]. *)
Lemma prepare_tokens_stages batch augment_data mask_data s d s' :
  _prepare_tokens self batch augment_data mask_data s = Ok (d, s') ->
  exists smiles_list s1,
    mmap (fun smiles => _smiles_augmeter_func self smiles augment_data)
         batch s = Ok (smiles_list, s1) /\
    s' = snd (tokenize (map fst smiles_list) false mask_data s1) /\
    target_smiles d = map snd smiles_list /\
    let out := fst (tokenize (map fst smiles_list) false mask_data s1) in
    _check_seq_len self
      (if mask_data then masked_tokens out else original_tokens out)
      (if mask_data then token_masks out
       else map (fun ts => repeat true (length ts)) (original_tokens out))
    = Ok (tokens d, mask d).
Proof.
  unfold _prepare_tokens. intros H.
  apply mbind_Ok in H as (smiles_list & s1 & Hm & H).
  apply mbind_Ok in H as (out & s2 & Ht & H).
  apply mbind_Ok in H as (tm & s3 & Hc & H).
  inversion H; subst d s'; clear H. injection Ht as Ht.
  apply mlift_Ok in Hc as [Hc ->].
  exists smiles_list, s1. split; [exact Hm|]. rewrite Ht. simpl fst. simpl snd.
  split; [reflexivity|]. split; [reflexivity|]. simpl.
  destruct mask_data; simpl in Hc; rewrite Hc; destruct tm; reflexivity.
Qed.

Lemma prepare_tokens_targets batch augment_data mask_data s d s' :
  _prepare_tokens self batch augment_data mask_data s = Ok (d, s') ->
  Forall2 (fun smiles target =>
             exists mol,
               MolFromSmiles smiles = Some mol /\ target <> ""%string /\
               if canonicalize_input self
               then MolToSmiles mol true = Some target
               else target = smiles)
          batch (target_smiles d).
Proof.
  intros H. apply prepare_tokens_stages in H as (sl & s1 & Hm & _ & -> & _).
  apply mmap_Ok_Forall2 in Hm. clear - Hm.
  induction Hm as [|smiles [v t] batch sl (sa & sb & Hx) _ IH]; simpl;
    constructor; [|exact IH].
  apply augmenter_target in Hx as (mol & Hmol & Ht & Hc).
  exists mol. simpl. auto.
Qed.

End PrepareFacts.

Lemma targets_functional {SC : StructureCodec} (canonicalize : bool)
  (batch targets targets' : list string) :
  Forall2 (fun smiles target =>
             exists mol,
               MolFromSmiles smiles = Some mol /\ target <> ""%string /\
               if canonicalize then MolToSmiles mol true = Some target
               else target = smiles) batch targets ->
  Forall2 (fun smiles target =>
             exists mol,
               MolFromSmiles smiles = Some mol /\ target <> ""%string /\
               if canonicalize then MolToSmiles mol true = Some target
               else target = smiles) batch targets' ->
  targets = targets'.
Proof.
  intros H. revert targets'.
  induction H as [|smi t batch targets (mol & Hm & _ & Ht) _ IH];
    intros targets' H'; inversion H' as [|? t' ? rest (mol' & Hm' & _ & Ht') Hrest];
    subst; [reflexivity|].
  f_equal; [|apply IH, Hrest].
  rewrite Hm in Hm'. inversion Hm'; subst mol'.
  destruct canonicalize; congruence.
Qed.

Lemma targets_raw {SC : StructureCodec} (batch targets : list string) :
  Forall2 (fun smiles target =>
             exists mol,
               MolFromSmiles smiles = Some mol /\ target <> ""%string /\
               target = smiles) batch targets ->
  targets = batch.
Proof.
  induction 1 as [|smi t batch targets (mol & _ & _ & ->) _ IH];
    [reflexivity | f_equal; exact IH].
Qed.

(** The targets that [_prepare_tokens] returns do not depend on the
    random state, on [augment_data] or on [mask_data]: there is one for
    each string of the batch, in order, each the canonical rendering of
    the parsed string under [canonicalize_input] and the string itself
    otherwise (so that the targets are the batch itself then); none is
    empty.  Without masking, the mask has the shape of the tokens and
    is [True] everywhere, also after a truncation. *)
Theorem prepare_tokens_targets_and_mask
  {rng : Type} {RS : RandomSource rng} {SC : StructureCodec}
  {TK : Tokenizer rng} (self : MoleculeEnumeration) (batch : list string)
  (augment_data mask_data : bool) (s s' : rng) (d : prepared token) :
  _prepare_tokens self batch augment_data mask_data s = Ok (d, s') ->
  length (target_smiles d) = length batch /\
  Forall2 (fun smiles target =>
             exists mol,
               MolFromSmiles smiles = Some mol /\ target <> ""%string /\
               if canonicalize_input self
               then MolToSmiles mol true = Some target
               else target = smiles)
          batch (target_smiles d) /\
  (canonicalize_input self = false -> target_smiles d = batch) /\
  (forall augment_data2 mask_data2 s2 s2' d2,
     _prepare_tokens self batch augment_data2 mask_data2 s2 = Ok (d2, s2') ->
     target_smiles d2 = target_smiles d) /\
  (mask_data = false ->
   map (@length bool) (mask d) = map (@length token) (tokens d) /\
   Forall (Forall (fun b => b = true)) (mask d)).
Proof.
  intros H. pose proof (prepare_tokens_targets _ _ _ _ _ H) as Ht.
  split; [symmetry; eapply Forall2_length_eq; exact Ht|].
  split; [exact Ht|]. split; [|split].
  - intros Hc. rewrite Hc in Ht. apply targets_raw, Ht.
  - intros a2 m2 s2 s2' d2 H2.
    apply prepare_tokens_targets in H2.
    eapply targets_functional; eassumption.
  - intros ->. apply prepare_tokens_stages in H as (sl & s1 & _ & _ & _ & Hc).
    cbv zeta in Hc. simpl in Hc.
    apply check_seq_len_unmasked in Hc. rewrite Hc. split.
    + rewrite map_map. apply map_ext. intros ts. apply repeat_length.
    + apply Forall_forall. intros row Hin.
      apply in_map_iff in Hin as (ts & <- & _).
      apply Forall_forall. intros b Hb. apply repeat_spec in Hb. exact Hb.
Qed.

Lemma prepare_tokens_targets_and_mask_witness :
  length ["CCO"; "c1cc"]%string = length ["OCC"; "c1cc"]%string.
Proof.
  apply (proj1 (@prepare_tokens_targets_and_mask nat Toy.random Toy.codec
                  Toy.tokenizer Toy.enumeration ["OCC"; "c1cc"]%string
                  false false 0 0
                  {| tokens := [["O"; "C"; "C"]; ["c"; "1"; "c"; "c"]]%char;
                     mask := [[true; true; true]; [true; true; true; true]];
                     target_smiles := ["CCO"; "c1cc"]%string |}
                  eq_refl)).
Defined.

(** ** [collate_fn]: what the batch keeps of its input *)

(** The targets of the collated batch are those of the encoder call,
    and the decoder call computes the very same list; there is one
    target for each string of the batch, and without
    [canonicalize_input] the targets are the batch itself. *)
Theorem collate_target_smiles
  {rng : Type} {RS : RandomSource rng} {SC : StructureCodec}
  {TK : Tokenizer rng} (self : MoleculeEnumeration) (batch : list string)
  (label_pad : Z) (s s1 s2 : rng) (encoder_dict decoder_dict : prepared token) :
  _prepare_tokens self batch (encoder_augment self) (encoder_mask self) s
  = Ok (encoder_dict, s1) ->
  _prepare_tokens self batch (decoder_augment self) (decoder_mask self) s1
  = Ok (decoder_dict, s2) ->
  int64_ids TK ->
  Torch.int64_ok label_pad = true ->
  exists out,
    collate_fn self batch label_pad s = Ok (out, s2) /\
    batch_target_smiles out = target_smiles encoder_dict /\
    batch_target_smiles out = target_smiles decoder_dict /\
    length (batch_target_smiles out) = length batch /\
    (canonicalize_input self = false -> batch_target_smiles out = batch).
Proof.
  intros Henc Hdec Hids Hlp.
  exists (collated self label_pad encoder_dict decoder_dict).
  split; [eapply collate_fn_eq; eassumption|]. simpl.
  pose proof (prepare_tokens_targets _ _ _ _ _ Henc) as He.
  pose proof (prepare_tokens_targets _ _ _ _ _ Hdec) as Hd.
  split; [reflexivity|].
  split; [eapply targets_functional; eassumption|].
  split; [symmetry; eapply Forall2_length_eq; exact He|].
  intros Hc. rewrite Hc in He. apply targets_raw, He.
Qed.

Lemma collate_target_smiles_witness :
  exists out,
    @collate_fn nat Toy.random Toy.codec Toy.tokenizer Toy.enumeration
                ["OCC"; "C"]%string (-1)%Z 0 = Ok (out, 2) /\
    length (batch_target_smiles out) = 2.
Proof.
  edestruct (@collate_target_smiles nat Toy.random Toy.codec
               Toy.tokenizer Toy.enumeration ["OCC"; "C"]%string
               (-1)%Z 0) as (out & H & _ & _ & Hl & _);
    [ cbv; reflexivity | cbv; reflexivity | exact toy_int64_ids
    | reflexivity | ].
  exists out. split; [exact H | exact Hl].
Defined.

(** Collation loses no token: in every row, the entries of [text_enc]
    where [enc_mask] is 1 are the encoder token ids; those of
    [text_dec] where [dec_mask] is 1 are [bos_id] followed by the
    decoder token ids; those of [labels] where [loss_mask] is 1 are the
    decoder token ids followed by [eos_id] (so the sentinel sits at
    inactive positions only). *)
Theorem collate_round_trip
  {rng : Type} {RS : RandomSource rng} {SC : StructureCodec}
  {TK : Tokenizer rng} (self : MoleculeEnumeration) (batch : list string)
  (label_pad : Z) (s s1 s2 : rng) (encoder_dict decoder_dict : prepared token) :
  _prepare_tokens self batch (encoder_augment self) (encoder_mask self) s
  = Ok (encoder_dict, s1) ->
  _prepare_tokens self batch (decoder_augment self) (decoder_mask self) s1
  = Ok (decoder_dict, s2) ->
  int64_ids TK ->
  Torch.int64_ok label_pad = true ->
  exists out,
    collate_fn self batch label_pad s = Ok (out, s2) /\
    (forall i ids,
       nth_error (convert_tokens_to_ids (tokens encoder_dict)) i = Some ids ->
       exists row mrow,
         nth_error (text_enc out) i = Some row /\
         nth_error (enc_mask out) i = Some mrow /\
         masked_select row mrow = ids) /\
    (forall i ids,
       nth_error (convert_tokens_to_ids (tokens decoder_dict)) i = Some ids ->
       exists drow dmrow lrow lmrow,
         nth_error (text_dec out) i = Some drow /\
         nth_error (dec_mask out) i = Some dmrow /\
         masked_select drow dmrow = bos_id :: ids /\
         nth_error (labels out) i = Some lrow /\
         nth_error (loss_mask out) i = Some lmrow /\
         masked_select lrow lmrow = ids ++ [eos_id]).
Proof.
  intros Henc Hdec Hids Hlp.
  exists (collated self label_pad encoder_dict decoder_dict).
  split; [eapply collate_fn_eq; eassumption|]. unfold collated. simpl. split.
  - intros i ids Hi. do 2 eexists. rewrite !nth_error_map, Hi. simpl.
    split; [reflexivity|]. split; [reflexivity|]. apply masked_select_pad_row.
  - intros i ids Hi. do 4 eexists. rewrite !nth_error_map, Hi. simpl.
    split; [reflexivity|]. split; [reflexivity|].
    split; [apply (masked_select_pad_row _ pad_id (bos_id :: ids))|].
    split; [reflexivity|]. split; [reflexivity|]. apply masked_select_pad_row.
Qed.

Lemma collate_round_trip_witness :
  exists out,
    @collate_fn nat Toy.random Toy.codec Toy.tokenizer Toy.enumeration
                ["OCC"; "C"]%string (-1)%Z 0 = Ok (out, 2).
Proof.
  edestruct (@collate_round_trip nat Toy.random Toy.codec
               Toy.tokenizer Toy.enumeration ["OCC"; "C"]%string
               (-1)%Z 0) as (out & H & _);
    [ cbv; reflexivity | cbv; reflexivity | exact toy_int64_ids
    | reflexivity | ].
  exists out. exact H.
Defined.

(** The decoder input and the labels are the same sequence one
    position apart: every row of [text_dec] starts with [bos_id]; for a
    row with [n] decoder token ids, the label at position [j < n] is
    the decoder input at position [j + 1] (the [j]-th token id), and
    the label at position [n] is [eos_id]. *)
Theorem collate_teacher_forcing
  {rng : Type} {RS : RandomSource rng} {SC : StructureCodec}
  {TK : Tokenizer rng} (self : MoleculeEnumeration) (batch : list string)
  (label_pad : Z) (s s1 s2 : rng) (encoder_dict decoder_dict : prepared token) :
  _prepare_tokens self batch (encoder_augment self) (encoder_mask self) s
  = Ok (encoder_dict, s1) ->
  _prepare_tokens self batch (decoder_augment self) (decoder_mask self) s1
  = Ok (decoder_dict, s2) ->
  int64_ids TK ->
  Torch.int64_ok label_pad = true ->
  exists out,
    collate_fn self batch label_pad s = Ok (out, s2) /\
    forall i ids,
      nth_error (convert_tokens_to_ids (tokens decoder_dict)) i = Some ids ->
      entry (text_dec out) i 0 = Some bos_id /\
      entry (labels out) i (length ids) = Some eos_id /\
      forall j id,
        nth_error ids j = Some id ->
        entry (labels out) i j = Some id /\
        entry (text_dec out) i (S j) = Some id.
Proof.
  intros Henc Hdec Hids Hlp.
  exists (collated self label_pad encoder_dict decoder_dict).
  split; [eapply collate_fn_eq; eassumption|]. unfold collated. simpl.
  intros i ids Hi. rewrite !entry_map, !nth_error_map, Hi. simpl.
  split; [reflexivity|]. split.
  - rewrite pad_row_entry_seq by (rewrite length_app; simpl; lia).
    rewrite nth_error_app2 by lia. rewrite Nat.sub_diag. reflexivity.
  - intros j id Hj.
    assert (Hlt : j < length ids) by (apply nth_error_Some; congruence).
    rewrite !entry_map, !nth_error_map, Hi. simpl.
    rewrite pad_row_entry_seq by (rewrite length_app; simpl; lia).
    rewrite nth_error_app1 by assumption. split; [exact Hj|].
    unfold pad_row. simpl. rewrite nth_error_app1 by assumption. exact Hj.
Qed.

Lemma collate_teacher_forcing_witness :
  exists out,
    @collate_fn nat Toy.random Toy.codec Toy.tokenizer Toy.enumeration
                ["OCC"; "C"]%string (-1)%Z 0 = Ok (out, 2) /\
    entry (text_dec out) 1 0 = Some 2%Z.
Proof.
  edestruct (@collate_teacher_forcing nat Toy.random Toy.codec
               Toy.tokenizer Toy.enumeration ["OCC"; "C"]%string
               (-1)%Z 0) as (out & H & Hrows);
    [ cbv; reflexivity | cbv; reflexivity | exact toy_int64_ids
    | reflexivity | ].
  exists out. split; [exact H|].
  apply (proj1 (Hrows 1 [4%Z] eq_refl)).
Defined.

(** ** [collate_fn]: sizes *)

Lemma list_max_bound (l : list nat) (n : nat) :
  (forall x, In x l -> x <= n) -> list_max l <= n.
Proof.
  induction l as [|x l IH]; intros H; simpl; [lia|].
  apply Nat.max_lub; [apply H; left; reflexivity|].
  apply IH. intros y Hy. apply H. right. exact Hy.
Qed.

Lemma pad_width_bound (self : MoleculeEnumeration) (seqs : list (list Z)) n :
  (forall seq, In seq seqs -> length seq <= n) ->
  pad_width self seqs <= round_width self n.
Proof.
  intros H. unfold pad_width, round_width.
  assert (Hm : list_max (map (@length Z) seqs) <= n).
  { apply list_max_bound. intros x Hx.
    apply in_map_iff in Hx as (seq & <- & Hs). auto. }
  destruct (pad_size_divisible_by_8 self); [apply ceil8_monotone|]; exact Hm.
Qed.

Lemma prepare_tokens_rows_bounded
  {rng : Type} {RS : RandomSource rng} {SC : StructureCodec}
  {TK : Tokenizer rng} (self : MoleculeEnumeration) batch augment_data
  mask_data (s s' : rng) (d : prepared token) :
  _prepare_tokens self batch augment_data mask_data s = Ok (d, s') ->
  (0 <= seq_length self)%Z ->
  forall ids, In ids (convert_tokens_to_ids (tokens d)) ->
              length ids <= Z.to_nat (seq_length self).
Proof.
  intros H Hcap ids Hin.
  apply prepare_tokens_stages in H as (sl & s1 & _ & _ & _ & Hc).
  cbv zeta in Hc.
  pose proof (check_seq_len_bound _ _ _ Hc Hcap) as Hb.
  unfold convert_tokens_to_ids in Hin.
  apply in_map_iff in Hin as (ts & <- & Hts). rewrite length_map.
  specialize (Hb ts Hts). lia.
Qed.

(** Under a cap that is not negative the collated batch respects it:
    the encoder tensors are no wider than [seq_length], the decoder
    and label tensors no wider than [seq_length + 1] (the begin or end
    marker is added after the truncation), each rounded up to a
    multiple of 8 when [pad_size_divisible_by_8] is set. *)
Theorem collate_width_bounds
  {rng : Type} {RS : RandomSource rng} {SC : StructureCodec}
  {TK : Tokenizer rng} (self : MoleculeEnumeration) (batch : list string)
  (label_pad : Z) (s s1 s2 : rng) (encoder_dict decoder_dict : prepared token) :
  _prepare_tokens self batch (encoder_augment self) (encoder_mask self) s
  = Ok (encoder_dict, s1) ->
  _prepare_tokens self batch (decoder_augment self) (decoder_mask self) s1
  = Ok (decoder_dict, s2) ->
  int64_ids TK ->
  Torch.int64_ok label_pad = true ->
  (0 <= seq_length self)%Z ->
  exists out,
    collate_fn self batch label_pad s = Ok (out, s2) /\
    let cap := Z.to_nat (seq_length self) in
    Forall (fun row => length row <= round_width self cap) (text_enc out) /\
    Forall (fun row => length row <= round_width self cap) (enc_mask out) /\
    Forall (fun row => length row <= round_width self (S cap)) (text_dec out) /\
    Forall (fun row => length row <= round_width self (S cap)) (dec_mask out) /\
    Forall (fun row => length row <= round_width self (S cap)) (labels out) /\
    Forall (fun row => length row <= round_width self (S cap)) (loss_mask out).
Proof.
  intros Henc Hdec Hids Hlp Hcap.
  exists (collated self label_pad encoder_dict decoder_dict).
  split; [eapply collate_fn_eq; eassumption|]. unfold collated. simpl.
  pose proof (prepare_tokens_rows_bounded _ _ _ _ _ Henc Hcap) as He.
  pose proof (prepare_tokens_rows_bounded _ _ _ _ _ Hdec Hcap) as Hd.
  set (enc_ids := convert_tokens_to_ids (tokens encoder_dict)) in *.
  set (dec_ids := convert_tokens_to_ids (tokens decoder_dict)) in *.
  assert (Hw : forall (seqs : list (list Z)) n,
             (forall seq, In seq seqs -> length seq <= n) ->
             forall v,
             Forall (fun row => length row <= round_width self n)
                    (map (pad_row (pad_width self seqs) v) seqs) /\
             Forall (fun row => length row <= round_width self n)
                    (map (mask_row (pad_width self seqs)) seqs)).
  { intros seqs n Hn v.
    pose proof (pad_width_bound self seqs Hn) as Hb.
    split; apply Forall_forall; intros row Hin;
      apply in_map_iff in Hin as (seq & <- & Hs);
      [rewrite pad_row_length | rewrite mask_row_length];
      try exact Hb; apply pad_width_ge, Hs. }
  assert (Hin : forall seq, In seq (map (fun ex => bos_id :: ex) dec_ids) ->
                            length seq <= S (Z.to_nat (seq_length self))).
  { intros seq Hs. apply in_map_iff in Hs as (ex & <- & Hex).
    simpl. apply le_n_S, Hd, Hex. }
  assert (Hil : forall seq, In seq (map (fun ex => ex ++ [eos_id]) dec_ids) ->
                            length seq <= S (Z.to_nat (seq_length self))).
  { intros seq Hs. apply in_map_iff in Hs as (ex & <- & Hex).
    rewrite length_app. simpl. specialize (Hd ex Hex). lia. }
  destruct (Hw _ _ He pad_id) as (E1 & E2).
  destruct (Hw _ _ Hin pad_id) as (D1 & D2).
  destruct (Hw _ _ Hil label_pad) as (L1 & L2).
  repeat split; assumption.
Qed.

Lemma collate_width_bounds_witness :
  exists out,
    @collate_fn nat Toy.random Toy.codec Toy.tokenizer Toy.enumeration
                ["CCO"; "c1ccccc1"]%string (-1)%Z 0 = Ok (out, 2) /\
    Forall (fun row => length row <= 8) (text_enc out).
Proof.
  edestruct (@collate_width_bounds nat Toy.random Toy.codec
               Toy.tokenizer Toy.enumeration ["CCO"; "c1ccccc1"]%string
               (-1)%Z 0) as (out & H & He & _);
    [ cbv; reflexivity | cbv; reflexivity | exact toy_int64_ids
    | reflexivity | simpl; lia | ].
  exists out. split; [exact H | exact He].
Defined.

Lemma mmap_Ok_length {S A B} (f : A -> M S B) (l : list A) s l' s' :
  mmap f l s = Ok (l', s') -> length l' = length l.
Proof.
  intros H. apply mmap_Ok_Forall2 in H. symmetry.
  eapply Forall2_length_eq. exact H.
Qed.

Lemma prepare_tokens_rows
  {rng : Type} {RS : RandomSource rng} {SC : StructureCodec}
  {TK : Tokenizer rng} (self : MoleculeEnumeration) batch augment_data
  mask_data (s s' : rng) (d : prepared token) :
  one_sequence_per_string TK ->
  _prepare_tokens self batch augment_data mask_data s = Ok (d, s') ->
  length (tokens d) = length batch /\ length (mask d) = length batch.
Proof.
  intros Hone H.
  apply prepare_tokens_stages in H as (sl & s1 & Hm & _ & _ & Hc).
  cbv zeta in Hc. apply mmap_Ok_length in Hm.
  apply check_seq_len_rows in Hc as (Ht & Hk).
  destruct (Hone (map fst sl) false mask_data s1) as (Ho & Hmt & Hmm).
  rewrite length_map in Ho, Hmt, Hmm.
  destruct mask_data; [|rewrite length_map in Hk]; split; congruence.
Qed.

(** With a tokenizer that answers one token sequence for each string,
    the six tensors of the collated batch have one row for each string
    of the batch. *)
Theorem collate_rows_per_string
  {rng : Type} {RS : RandomSource rng} {SC : StructureCodec}
  {TK : Tokenizer rng} (self : MoleculeEnumeration) (batch : list string)
  (label_pad : Z) (s s2 : rng) (out : collate_output) :
  one_sequence_per_string TK ->
  collate_fn self batch label_pad s = Ok (out, s2) ->
  batch <> [] /\
  length (text_enc out) = length batch /\
  length (enc_mask out) = length batch /\
  length (text_dec out) = length batch /\
  length (dec_mask out) = length batch /\
  length (labels out) = length batch /\
  length (loss_mask out) = length batch /\
  length (batch_target_smiles out) = length batch.
Proof.
  intros Hone H. unfold collate_fn in H.
  apply mbind_Ok in H as (ed & s1 & Henc & H).
  apply mbind_Ok in H as (ep & sa & Hep & H). apply mlift_Ok in Hep as [Hep ->].
  apply mbind_Ok in H as (et & sa & Het & H). apply mlift_Ok in Het as [Het ->].
  apply mbind_Ok in H as (em & sa & Hem & H). apply mlift_Ok in Hem as [Hem ->].
  apply mbind_Ok in H as (dd & s3 & Hdec & H).
  apply mbind_Ok in H as (dp & sa & Hdp & H). apply mlift_Ok in Hdp as [Hdp ->].
  apply mbind_Ok in H as (dt & sa & Hdt & H). apply mlift_Ok in Hdt as [Hdt ->].
  apply mbind_Ok in H as (dm & sa & Hdm & H). apply mlift_Ok in Hdm as [Hdm ->].
  apply mbind_Ok in H as (lp & sa & Hlp & H). apply mlift_Ok in Hlp as [Hlp ->].
  apply mbind_Ok in H as (lt & sa & Hlt & H). apply mlift_Ok in Hlt as [Hlt ->].
  apply mbind_Ok in H as (lm & sa & Hlm & H). apply mlift_Ok in Hlm as [Hlm ->].
  apply mbind_Ok in H as (lf & sa & Hlf & H). apply mlift_Ok in Hlf as [Hlf ->].
  inversion H; subst out s3; clear H. simpl.
  destruct (prepare_tokens_rows _ _ _ _ _ Hone Henc) as (Re & _).
  destruct (prepare_tokens_rows _ _ _ _ _ Hone Hdec) as (Rd & _).
  assert (Rt : length (target_smiles ed) = length batch).
  { symmetry. eapply Forall2_length_eq.
    eapply prepare_tokens_targets. exact Henc. }
  pose proof (prepare_tokens_nonempty _ _ _ _ _ Henc) as Hne.
  destruct ep as [epad emask], dp as [dpad dmask], lp as [lpad lmask].
  apply pad_seqs_Ok in Hep as (_ & E1 & E2).
  apply pad_seqs_Ok in Hdp as (_ & D1 & D2).
  apply pad_seqs_Ok in Hlp as (_ & L1 & L2).
  apply (f_equal (@length (list Z))) in E1, E2, D1, D2, L1, L2.
  unfold convert_tokens_to_ids in *. rewrite !length_map in *.
  simpl in *.
  assert (Tid : forall rows r, Torch.tensor rows = Ok r -> r = rows).
  { intros rows r Hr. unfold Torch.tensor in Hr.
    destruct (negb (Torch.rectangular rows)); [discriminate|].
    destruct (negb (forallb (forallb Torch.int64_ok) rows)); [discriminate|].
    inversion Hr. reflexivity. }
  apply Tid in Het, Hem, Hdt, Hdm, Hlt, Hlm. subst.
  assert (Hfill : length lf = length lpad).
  { unfold Torch.fill_where_zero in Hlf.
    destruct (negb (Torch.int64_ok label_pad)); [discriminate|].
    inversion Hlf. rewrite length_map, length_combine. lia. }
  split; [intros ->; destruct (tokens ed); [contradiction | discriminate]|].
  repeat split; congruence.
Qed.

Lemma collate_rows_per_string_witness :
  length [[5; 4; 4; 0; 0; 0; 0; 0]; [4; 0; 0; 0; 0; 0; 0; 0]]%Z = 2.
Proof.
  assert (Hone : one_sequence_per_string Toy.tokenizer).
  { intros smiles pad mask_data s. simpl. rewrite !length_map. auto. }
  destruct (@collate_rows_per_string nat Toy.random Toy.codec Toy.tokenizer
              Toy.enumeration ["OCC"; "C"]%string (-1)%Z 0 2 _ Hone eq_refl)
    as (_ & H & _).
  exact H.
Defined.

(** With such a tokenizer an empty batch is rejected: no string is
    augmented, the tokenizer answers no sequence, and the maximum taken
    by the length check raises [ValueError]. *)
Theorem collate_empty_batch
  {rng : Type} {RS : RandomSource rng} {SC : StructureCodec}
  {TK : Tokenizer rng} (self : MoleculeEnumeration) (label_pad : Z) (s : rng) :
  one_sequence_per_string TK ->
  collate_fn self [] label_pad s = Raise ValueError.
Proof.
  intros Hone. unfold collate_fn, mbind at 1.
  assert (E : _prepare_tokens self [] (encoder_augment self)
                              (encoder_mask self) s = Raise ValueError).
  { pose proof (Hone [] false (encoder_mask self) s) as (Ho & Hm & _).
    unfold _prepare_tokens, mbind, mret, mlift. simpl.
    destruct (tokenize [] false (encoder_mask self) s) as [o s1].
    simpl in Ho, Hm. apply length_zero_iff_nil in Ho, Hm.
    destruct (encoder_mask self); simpl; [rewrite Hm | rewrite Ho];
      reflexivity. }
  rewrite E. reflexivity.
Qed.

Lemma collate_empty_batch_witness :
  @collate_fn nat Toy.random Toy.codec Toy.tokenizer Toy.enumeration
              [] (-1)%Z 0 = Raise ValueError.
Proof.
  apply (@collate_empty_batch nat Toy.random Toy.codec Toy.tokenizer
           Toy.enumeration (-1)%Z 0).
  intros smiles pad mask_data s. simpl. rewrite !length_map. auto.
Defined.

(** * Further properties of [MegaMolBARTModel] *)

(** ** [decode]: the budget, prefixes, the vocabulary *)

(** [decode] needs a positive number of tokens to generate: with none,
    the loop body never runs, [log_probs] is never assigned and the
    [return] raises [UnboundLocalError], whatever the network.  With a
    positive number, on a network that answers tensor-shaped logits for
    every decoder input without an empty row, it returns one sequence
    for each row of [tokens_enc], each of exactly
    [num_tokens_to_generate + 1] ids. *)
Theorem decode_budget
  {rng : Type} {TK : Tokenizer rng} {NW : Network}
  (tokens_enc enc_mask : list (list Z)) (num_tokens_to_generate : Z) :
  ((num_tokens_to_generate <= 0)%Z ->
   decode tokens_enc enc_mask num_tokens_to_generate
   = Raise UnboundLocalError) /\
  ((0 < num_tokens_to_generate)%Z -> well_shaped NW ->
   exists predicted log_probs,
     decode tokens_enc enc_mask num_tokens_to_generate
     = Ok (predicted, log_probs) /\
     length predicted = length tokens_enc /\
     Forall (fun row => length row = S (Z.to_nat num_tokens_to_generate))
            predicted).
Proof.
  split.
  - intros Hn. unfold decode.
    replace (Z.to_nat num_tokens_to_generate) with 0 by lia. reflexivity.
  - intros Hn Hw.
    destruct (decode_returns tokens_enc enc_mask Hw Hn) as (p & lp & H).
    exists p, lp. split; [exact H|].
    unfold decode in H. apply rbind_Ok in H as ([p' l] & Hloop & H).
    simpl in H. destruct l as [l|]; [|discriminate]. inversion H; subst.
    apply decode_loop_from_init in Hloop as (Hlen & Hrows).
    split; [exact Hlen|]. eapply Forall_impl; [|exact Hrows].
    intros row (gen & -> & Hg). simpl. congruence.
Qed.

(** The toy networks have tensor-shaped logits. *)
Lemma speller_well_shaped : well_shaped Toy.speller.
Proof.
  split; [|reflexivity].
  intros enc dec emask dmask h Hne. simpl. split; [apply length_map|].
  apply Forall_forall. intros positions Hin.
  apply in_map_iff in Hin as (row & <- & Hrow).
  rewrite Forall_forall in Hne. specialize (Hne row Hrow). split.
  - destruct row; [contradiction|]. simpl. discriminate.
  - apply Forall_forall. intros r Hr.
    apply in_map_iff in Hr as (p & <- & _). discriminate.
Qed.

Lemma degenerate_well_shaped : well_shaped Toy.degenerate.
Proof.
  split; [|reflexivity].
  intros enc dec emask dmask h Hne. simpl. split; [apply length_map|].
  apply Forall_forall. intros positions Hin.
  apply in_map_iff in Hin as (row & <- & Hrow).
  rewrite Forall_forall in Hne. specialize (Hne row Hrow). split.
  - destruct row; [contradiction|]. simpl. discriminate.
  - apply Forall_forall. intros r Hr.
    apply in_map_iff in Hr as (p & <- & _). discriminate.
Qed.

Lemma decode_budget_witness :
  @decode nat Toy.tokenizer Toy.speller [[4; 4; 5]%Z] [[1; 1; 1]%Z] 0
  = Raise UnboundLocalError /\
  exists predicted log_probs,
    @decode nat Toy.tokenizer Toy.speller [[4; 4; 5]%Z] [[1; 1; 1]%Z] 5
    = Ok (predicted, log_probs) /\
    length predicted = 1 /\
    Forall (fun row => length row = 6) predicted.
Proof.
  split.
  - apply (proj1 (@decode_budget nat Toy.tokenizer Toy.speller
                    [[4; 4; 5]%Z] [[1; 1; 1]%Z] 0)).
    lia.
  - apply (proj2 (@decode_budget nat Toy.tokenizer Toy.speller
                    [[4; 4; 5]%Z] [[1; 1; 1]%Z] 5));
      [lia | exact speller_well_shaped].
Defined.

Lemma Forall2_from_nth {A B} (R : A -> B -> Prop) (a : list A) (b : list B) :
  length b = length a ->
  (forall i x, nth_error a i = Some x ->
               exists y, nth_error b i = Some y /\ R x y) ->
  Forall2 R a b.
Proof.
  revert b. induction a as [|x a IH]; intros [|y b] Hlen H; simpl in Hlen;
    try discriminate; constructor.
  - destruct (H 0 x eq_refl) as (y' & Hy & Hr). inversion Hy; subst. exact Hr.
  - apply IH; [lia|]. intros i x' Hi. apply (H (S i) x' Hi).
Qed.

(** Greedy decoding is consistent across budgets: the sequences
    returned for [n] tokens are prefixes of those returned for
    [n + m] tokens, each extended by exactly [m] ids. *)
Theorem decode_prefix_consistent
  {rng : Type} {TK : Tokenizer rng} {NW : Network}
  (tokens_enc enc_mask : list (list Z)) (n m : Z)
  (predicted predicted' : list (list Z)) (lp lp' : list (list logit)) :
  (0 <= m)%Z ->
  decode tokens_enc enc_mask n = Ok (predicted, lp) ->
  decode tokens_enc enc_mask (n + m) = Ok (predicted', lp') ->
  Forall2 (fun row row' =>
             exists ext, row' = row ++ ext /\ length ext = Z.to_nat m)
          predicted predicted'.
Proof.
  intros Hm H H'. unfold decode in H, H'.
  apply rbind_Ok in H as ([p l] & Hloop & H). simpl in H.
  destruct l as [l|]; [|discriminate]. inversion H; subst; clear H.
  apply rbind_Ok in H' as ([p' l'] & Hloop' & H'). simpl in H'.
  destruct l' as [l'|]; [|discriminate]. inversion H'; subst; clear H'.
  assert (Hn : (0 < n)%Z).
  { destruct (Z.lt_ge_cases 0 n) as [|Hle]; [assumption|].
    replace (Z.to_nat n) with 0 in Hloop by lia. simpl in Hloop.
    discriminate Hloop. }
  replace (Z.to_nat (n + m)) with (Z.to_nat n + Z.to_nat m) in Hloop' by lia.
  apply decode_loop_split in Hloop' as (pk & lpk & Hk & Hrest).
  rewrite Hloop in Hk. inversion Hk; subst pk lpk; clear Hk.
  apply decode_loop_grows in Hrest as (Hlen & Hrows).
  apply Forall2_from_nth; [exact Hlen|].
  intros i row Hi. destruct (Hrows i row Hi) as (gen & Hg & Hi').
  exists (row ++ gen). split; [exact Hi'|]. exists gen. auto.
Qed.

Lemma decode_prefix_consistent_witness :
  Forall2 (fun row row' : list Z =>
             exists ext, row' = row ++ ext /\ length ext = 2)
          [[2; 4; 4]%Z] [[2; 4; 4; 5; 3]%Z].
Proof.
  apply (@decode_prefix_consistent nat Toy.tokenizer Toy.speller
           [[4; 4; 5]%Z] [[1; 1; 1]%Z] 2 2
           [[2; 4; 4]%Z] [[2; 4; 4; 5; 3]%Z]
           [[Fin 1; Fin 1]] [[Fin 1; Fin 1; Fin 1; Fin 1]]);
    [lia | reflexivity | reflexivity].
Defined.

Lemma last_in {A} (l : list A) (d : A) : l <> [] -> In (last l d) l.
Proof.
  induction l as [|a [|b l] IH]; intros Hne; [contradiction | left; reflexivity |].
  right. apply IH. discriminate.
Qed.

Lemma max_from_neg_inf_tail (a c : list logit) :
  Forall (fun x => x = NegInf) c ->
  forall best_i best i,
    Tensor.max_from best_i best i (a ++ c) = Tensor.max_from best_i best i a.
Proof.
  intros Hc. induction a as [|x a IH]; intros best_i best i; simpl.
  - revert i. induction Hc as [|x c -> _ IHc]; intros i; simpl; [reflexivity|].
    replace (logit_ltb best NegInf) with false by (destruct best; reflexivity).
    apply IHc.
  - destruct (logit_ltb best x); apply IH.
Qed.

(** [torch.max] never reports an index inside a tail of [-inf]. *)
Lemma max_skips_neg_inf_tail (a c : list logit) (v : logit) (id : Z) :
  a <> [] ->
  Forall (fun x => x = NegInf) c ->
  Tensor.max (a ++ c) = Ok (v, id) ->
  (0 <= id < Z.of_nat (length a))%Z.
Proof.
  intros Hne Hc H. destruct a as [|x xs]; [contradiction|].
  simpl in H. rewrite max_from_neg_inf_tail in H by assumption.
  destruct (Tensor.max_from 0 x 1 xs) as [v' k] eqn:E. simpl in H.
  inversion H; subst. apply max_from_spec in E as (_ & _ & Hk).
  simpl length. destruct Hk as [[-> _]|(d & Hd & -> & _)]; lia.
Qed.

Lemma neg_inf_tail (l : list logit) (k : nat) :
  (forall i, k <= i -> i < length l -> nth_error l i = Some NegInf) ->
  Forall (fun x => x = NegInf) (skipn k l).
Proof.
  intros H. apply Forall_forall. intros x Hin.
  apply In_nth_error in Hin as (j & Hj).
  assert (Hlt : j < length (skipn k l)) by (apply nth_error_Some; congruence).
  rewrite length_skipn in Hlt. rewrite nth_error_skipn in Hj.
  rewrite H in Hj by lia. congruence.
Qed.

(** The index reported on a row whose ids from [vocab_size] on were
    filled with [-inf], directly or after a [log_softmax] that keeps
    [-inf], is a vocabulary id. *)
Lemma max_filled_row (soft : list logit -> list logit) (vsize : Z)
  (row : list logit) (v : logit) (id : Z) :
  (0 < vsize)%Z ->
  (forall r, length (soft r) = length r /\
             forall i, nth_error r i = Some NegInf ->
                       nth_error (soft r) i = Some NegInf) ->
  Tensor.max
    (soft (firstn (Tensor.slice_start (length row) vsize) row
           ++ repeat NegInf
                (length row - Tensor.slice_start (length row) vsize)))
  = Ok (v, id) ->
  (0 <= id < vsize)%Z.
Proof.
  intros Hv Hsoft H.
  set (k := Tensor.slice_start (length row) vsize) in *.
  set (filled := firstn k row ++ repeat NegInf (length row - k)) in *.
  assert (Hk : k = Nat.min (Z.to_nat vsize) (length row)).
  { unfold k, Tensor.slice_start. destruct (Z.leb_spec 0 vsize); [reflexivity | lia]. }
  assert (Hfl : length filled = length row).
  { unfold filled. rewrite length_app, length_firstn, repeat_length. lia. }
  destruct (Hsoft filled) as (Hlen & Hinf).
  assert (Hrow : row <> []).
  { intros E. rewrite E in Hfl. simpl in Hfl. rewrite Hfl in Hlen.
    apply length_zero_iff_nil in Hlen. rewrite Hlen in H. discriminate H. }
  rewrite <- (firstn_skipn k (soft filled)) in H.
  apply max_skips_neg_inf_tail in H.
  - rewrite length_firstn in H. lia.
  - intros E. apply (f_equal (@length logit)) in E.
    rewrite length_firstn in E. simpl in E.
    destruct row; [contradiction|]. simpl in *. lia.
  - apply neg_inf_tail. intros i Hi Hlt. apply Hinf.
    unfold filled. rewrite nth_error_app2 by (rewrite length_firstn; lia).
    apply nth_error_repeat_lt. rewrite length_firstn. lia.
Qed.

Section VocabularyFacts.

Context {rng : Type} {TK : Tokenizer rng} {NW : Network}.
Variables tokens_enc enc_mask : list (list Z).
Variable h : hidden.
Hypothesis Hvocab : (0 < vocab_size)%Z.
Hypothesis Hsoft : keeps_neg_inf NW.

Lemma decode_step_vocabulary (predicted predicted' : list (list Z))
  (lp : list (list logit)) :
  decode_step tokens_enc enc_mask h predicted = Ok (predicted', lp) ->
  forall i row, nth_error predicted i = Some row ->
    exists id, (0 <= id < vocab_size)%Z /\
               nth_error predicted' i = Some (row ++ [id]).
Proof.
  intros H i row Hi.
  apply decode_step_appends in H as (_ & Hrows).
  destruct (Hrows i row Hi) as (positions & v & id & Hp & Hne & Hmax & Hi').
  exists id. split; [|exact Hi'].
  pose proof (last_in [] Hne) as Hin.
  apply nth_error_In in Hp. unfold Tensor.fill_from in Hp.
  apply in_map_iff in Hp as (raw & <- & _).
  apply in_map_iff in Hin as (r & Er & _). rewrite <- Er in Hmax.
  eapply max_filled_row; [exact Hvocab | exact Hsoft | exact Hmax].
Qed.

Lemma decode_loop_vocabulary (n : nat) :
  forall predicted lp0 predicted' lp',
    decode_loop n tokens_enc enc_mask h predicted lp0 = Ok (predicted', lp') ->
    forall i row, nth_error predicted i = Some row ->
      exists gen,
        Forall (fun id => (0 <= id < vocab_size)%Z) gen /\
        nth_error predicted' i = Some (row ++ gen).
Proof.
  induction n as [|n IH]; intros predicted lp0 predicted' lp' H i row Hi;
    simpl in H.
  - inversion H; subst. exists []. rewrite app_nil_r. auto.
  - apply rbind_Ok in H as ([p1 lp1] & Hstep & H). simpl in H.
    destruct (decode_step_vocabulary _ Hstep i Hi) as (id & Hid & Hi1).
    destruct (IH _ _ _ _ H i _ Hi1) as (gen & Hgen & Hi').
    exists (id :: gen). split; [constructor; assumption|].
    rewrite Hi', <- app_assoc. reflexivity.
Qed.

End VocabularyFacts.

(** "Never pick padded tokens".  Where the vocabulary is not empty:
    on logits whose ids from [vocab_size] on were filled with [-inf]
    (as [validation_step] does before the metrics), [torch.max] along
    the vocabulary reports only ids below [vocab_size]; and, with a
    [log_softmax] that keeps [-inf], every id that [decode] appends is
    a vocabulary id. *)
Theorem decode_ids_in_vocabulary
  {rng : Type} {TK : Tokenizer rng} {NW : Network}
  (tokens_enc enc_mask : list (list Z)) :
  (0 < vocab_size)%Z ->
  (forall token_logits values predicted,
     Tensor.max_dim2 (Tensor.fill_from vocab_size token_logits)
     = Ok (values, predicted) ->
     Forall (Forall (fun id => (0 <= id < vocab_size)%Z)) predicted) /\
  (keeps_neg_inf NW ->
   forall n predicted lp,
     decode tokens_enc enc_mask n = Ok (predicted, lp) ->
     Forall (fun row =>
               exists gen,
                 row = bos_id :: gen /\
                 Forall (fun id => (0 <= id < vocab_size)%Z) gen)
            predicted).
Proof.
  intros Hv. split.
  - intros logits values predicted H.
    apply Forall_forall. intros prow Hprow. apply Forall_forall. intros id Hid.
    apply In_nth_error in Hprow as (i & Hi).
    apply In_nth_error in Hid as (j & Hj).
    assert (He : entry predicted i j = Some id)
      by (unfold entry; rewrite Hi; exact Hj).
    destruct (proj2 (max_dim2_entries _ H) i j id He) as (row & v & Hrow & Hm).
    unfold entry in Hrow.
    destruct (nth_error (Tensor.fill_from vocab_size logits) i)
      as [positions|] eqn:Ep; [|discriminate].
    apply nth_error_In in Ep, Hrow. unfold Tensor.fill_from in Ep.
    apply in_map_iff in Ep as (raw & <- & _).
    apply in_map_iff in Hrow as (r & <- & _).
    apply (@max_filled_row (fun x => x) vocab_size r v id Hv); [|exact Hm].
    intros r0. auto.
  - intros Hsoft n predicted lp H. unfold decode in H.
    apply rbind_Ok in H as ([p l] & Hloop & H). simpl in H.
    destruct l as [l|]; [|discriminate]. inversion H; subst; clear H.
    pose proof (decode_loop_grows _ _ _ _ _ _ Hloop) as (Hlen & _).
    apply Forall_forall. intros row Hin.
    apply In_nth_error in Hin as (i & Hi).
    assert (Hlt : i < length (decode_init tokens_enc))
      by (rewrite <- Hlen; apply nth_error_Some; congruence).
    destruct (nth_error (decode_init tokens_enc) i) as [r0|] eqn:E0;
      [|apply nth_error_None in E0; lia].
    assert (r0 = [bos_id]) as ->.
    { unfold decode_init in E0. apply nth_error_In in E0.
      apply in_map_iff in E0 as (e & <- & _). reflexivity. }
    destruct (decode_loop_vocabulary _ _ _ Hv Hsoft _ _ _ Hloop i E0)
      as (gen & Hgen & Hi').
    rewrite Hi in Hi'. inversion Hi'; subst. exists gen. auto.
Qed.

Lemma decode_ids_in_vocabulary_witness :
  Forall (Forall (fun id => (0 <= id < 8)%Z)) [[0; 0]%Z].
Proof.
  apply (proj1 (@decode_ids_in_vocabulary nat Toy.tokenizer Toy.degenerate
                  [[4; 4; 5]%Z] [[1; 1; 1]%Z] ltac:(simpl; lia))
               [[[Fin 5; Fin 1; Fin 0; Fin 2; Fin 0;
                  Fin 0; Fin 0; Fin 0; Fin 9; Fin 9];
                 [Fin 5; Fin 1; Fin 0; Fin 2; Fin 0;
                  Fin 0; Fin 0; Fin 0; Fin 9; Fin 9]]]
               [[Fin 5; Fin 5]] [[0; 0]%Z] eq_refl).
Defined.

(** ** Trimming only deletes *)

Lemma sublist_refl {A} (l : list A) : sublist l l.
Proof.
  induction l; constructor; assumption.
Qed.

Lemma sublist_nil_l {A} (l : list A) : sublist [] l.
Proof.
  induction l; constructor; assumption.
Qed.

Lemma sublist_firstn {A} (n : nat) (l : list A) : sublist (firstn n l) l.
Proof.
  revert n. induction l as [|x l IH]; intros [|n]; simpl;
    try constructor; try apply sublist_nil_l; apply IH.
Qed.

Lemma sublist_filter {A} (f : A -> bool) (l : list A) : sublist (filter f l) l.
Proof.
  induction l as [|x l IH]; simpl; [constructor|].
  destruct (f x); constructor; exact IH.
Qed.

Lemma sublist_length {A} (l l' : list A) : sublist l l' -> length l <= length l'.
Proof.
  induction 1; simpl; lia.
Qed.

Lemma sublist_In {A} (l l' : list A) (x : A) : sublist l l' -> In x l -> In x l'.
Proof.
  induction 1; simpl; intros Hin; [contradiction | | right; auto].
  destruct Hin as [->|Hin]; [left; reflexivity | right; auto].
Qed.

Lemma prune_sublist {rng : Type} {TK : Tokenizer rng} (l : list Z) :
  exists r, prune l = Ok r /\ sublist r l.
Proof.
  unfold prune. destruct (Py.contains eos_id l) eqn:E.
  - apply contains_In in E.
    destruct (index_first_occurrence _ _ E) as (pre & post & _ & _ & ->).
    simpl. eexists. split; [reflexivity | apply sublist_firstn].
  - eexists. split; [reflexivity | apply sublist_filter].
Qed.

(** Trimming never raises (the [index] call is made only when the
    [in] test has found the id) and only deletes: its result is the
    decoded sequence with some entries removed, in the same order, so
    it is no longer than the sequence and holds no id that the
    sequence did not hold. *)
Theorem prune_only_deletes {rng : Type} {TK : Tokenizer rng} (l : list Z) :
  exists r,
    prune l = Ok r /\
    sublist r l /\
    length r <= length l /\
    forall id, In id r -> In id l.
Proof.
  destruct (prune_sublist l) as (r & Hr & Hs). exists r. split; [exact Hr|].
  split; [exact Hs|]. split; [apply sublist_length, Hs|].
  intros id. apply sublist_In, Hs.
Qed.

(** Every sequence that [sample_molecules] passes to the tokenizer
    comes from the row of [decode] at the same place by deleting
    entries; it holds at most [max_position_embeddings + 1] ids, and
    [max_position_embeddings] is positive whenever the call returns. *)
Theorem sampled_sequences_bounded
  {rng : Type} {TK : Tokenizer rng} {NW : Network}
  (self : MegaMolBARTModel) (tokens_enc enc_mask : list (list Z))
  (seqs : list (list Z)) :
  sample_token_ids self tokens_enc enc_mask = Ok seqs ->
  (0 < max_position_embeddings self)%Z /\
  exists predicted lp,
    decode tokens_enc enc_mask (max_position_embeddings self)
    = Ok (predicted, lp) /\
    Forall2 (fun row r => sublist r row) predicted seqs /\
    Forall (fun r => length r <= S (Z.to_nat (max_position_embeddings self)))
           seqs.
Proof.
  intros H. unfold sample_token_ids in H.
  apply rbind_Ok in H as ([predicted lp] & Hd & H). simpl in H.
  assert (Hn : (0 < max_position_embeddings self)%Z).
  { destruct (Z.lt_ge_cases 0 (max_position_embeddings self)) as [|Hle];
      [assumption|].
    unfold decode in Hd.
    replace (Z.to_nat (max_position_embeddings self)) with 0 in Hd by lia.
    simpl in Hd. discriminate Hd. }
  split; [exact Hn|]. exists predicted, lp. split; [exact Hd|].
  assert (Hsub : Forall2 (fun row r => sublist r row) predicted seqs).
  { apply rmap_Ok_Forall2 in H. clear Hd.
    induction H as [|row r rows rs Hr _ IH]; [constructor|].
    constructor; [|exact IH].
    destruct (prune_sublist row) as (r' & Hr' & Hs).
    rewrite Hr in Hr'. inversion Hr'; subst. exact Hs. }
  split; [exact Hsub|].
  unfold decode in Hd. apply rbind_Ok in Hd as ([p l] & Hloop & Hd).
  simpl in Hd. destruct l as [l|]; [|discriminate]. inversion Hd; subst.
  apply decode_loop_from_init in Hloop as (_ & Hrows).
  clear - Hsub Hrows.
  induction Hsub as [|row r rows rs Hs _ IH]; [constructor|]. constructor.
  - inversion Hrows as [|? ? (gen & -> & Hg) _]; subst.
    apply sublist_length in Hs. simpl in Hs. lia.
  - apply IH. inversion Hrows; assumption.
Qed.

Lemma sampled_sequences_bounded_witness :
  (0 < max_position_embeddings Toy.model)%Z.
Proof.
  apply (proj1 (@sampled_sequences_bounded nat Toy.tokenizer Toy.speller
                  Toy.model [[4; 4; 5]%Z; [4]%Z] [[1; 1; 1]%Z; [1; 0; 0]%Z]
                  [[2; 4; 4; 5]%Z; [2; 4; 4; 5]%Z] eq_refl)).
Defined.

Lemma prune_only_deletes_witness :
  exists r, @prune nat Toy.tokenizer [2; 4; 0; 3]%Z = Ok r /\ length r <= 4.
Proof.
  destruct (@prune_only_deletes nat Toy.tokenizer [2; 4; 0; 3]%Z)
    as (r & Hr & _ & Hl & _).
  exists r. split; [exact Hr | exact Hl].
Defined.

(** ** [calculate_character_accuracy]: range, division, masked positions *)

(** The value of a returned accuracy, as a quotient of two counts. *)
Lemma character_accuracy_value
  (token_logits : list (list (list logit))) (loss_mask labels : list (list Z))
  (acc : Q) :
  binary loss_mask ->
  calculate_character_accuracy token_logits loss_mask labels = Ok acc ->
  exists values predicted,
    Tensor.max_dim2 token_logits = Ok (values, predicted) /\
    same_shape labels predicted /\
    same_shape predicted loss_mask /\
    0 < active_count loss_mask /\
    acc = (inject_Z (Z.of_nat (correct_count predicted labels loss_mask))
           / inject_Z (Z.of_nat (active_count loss_mask)))%Q.
Proof.
  intros Hb H. unfold calculate_character_accuracy in H.
  apply rbind_Ok in H as ([values predicted] & Hmax & H). simpl in H.
  apply rbind_Ok in H as (eqs & He & H).
  apply rbind_Ok in H as (c & Hc & H).
  rewrite (sum_correct_tokens _ _ Hb He Hc), (sum_loss_mask Hb) in H.
  destruct (Z.eqb_spec (Z.of_nat (active_count loss_mask)) 0) as [|Hne];
    [discriminate|].
  inversion H; subst acc; clear H.
  destruct (map2_entries _ _ _ He) as (S1 & S2 & _).
  destruct (map2_entries _ _ _ Hc) as (S3 & S4 & _).
  exists values, predicted. split; [exact Hmax|].
  split; [eapply same_shape_trans; [exact S1 | apply same_shape_sym, S2]|].
  split; [eapply same_shape_trans;
          [exact S2 | eapply same_shape_trans;
                      [exact S3 | apply same_shape_sym, S4]]|].
  split; [lia | reflexivity].
Qed.

(** The outcome on inputs of one shape: a quotient, or
    [ZeroDivisionError] when no position is active. *)
Lemma character_accuracy_outcome
  (token_logits : list (list (list logit))) (loss_mask labels : list (list Z))
  (values : list (list logit)) (predicted : list (list Z)) :
  binary loss_mask ->
  Tensor.max_dim2 token_logits = Ok (values, predicted) ->
  same_shape labels predicted ->
  same_shape predicted loss_mask ->
  calculate_character_accuracy token_logits loss_mask labels
  = if active_count loss_mask =? 0 then Raise ZeroDivisionError
    else Ok (inject_Z (Z.of_nat (correct_count predicted labels loss_mask))
             / inject_Z (Z.of_nat (active_count loss_mask)))%Q.
Proof.
  intros Hb Hmax Hlp Hpm. unfold calculate_character_accuracy.
  rewrite Hmax. simpl.
  destruct (map2_total (fun l p => if (l =? p)%Z then 1%Z else 0%Z) Hlp)
    as (eqs & He).
  rewrite He. simpl.
  destruct (map2_entries _ _ _ He) as (_ & Hs & _).
  destruct (map2_total Z.mul
              (same_shape_trans (same_shape_sym Hs) Hpm)) as (c & Hc).
  rewrite Hc. simpl.
  rewrite (sum_correct_tokens _ _ Hb He Hc), (sum_loss_mask Hb).
  destruct (Nat.eqb_spec (active_count loss_mask) 0) as [E|E].
  - rewrite E. reflexivity.
  - destruct (Z.eqb_spec (Z.of_nat (active_count loss_mask)) 0); [lia|].
    reflexivity.
Qed.

Lemma correct_count_le (predicted labels loss_mask : list (list Z)) :
  correct_count predicted labels loss_mask <= active_count loss_mask.
Proof.
  unfold correct_count, active_count.
  induction (positions loss_mask) as [|p l IH]; simpl; [lia|].
  destruct (active loss_mask p); simpl; [|exact IH].
  destruct (correct predicted labels p); simpl; lia.
Qed.

Lemma quotient_range (n d : nat) :
  0 < d -> n <= d ->
  (0 <= inject_Z (Z.of_nat n) / inject_Z (Z.of_nat d))%Q /\
  (inject_Z (Z.of_nat n) / inject_Z (Z.of_nat d) <= 1)%Q.
Proof.
  intros Hd Hn. destruct d as [|d]; [lia|].
  unfold Qdiv, Qmult, Qinv, Qle, inject_Z. simpl Qnum. simpl Qden.
  rewrite Zpos_P_of_succ_nat. lia.
Qed.

(** On logits, labels and a 0/1 loss mask of one shape (one row of
    logits for each label, one mask entry for each label), a returned
    character accuracy lies between 0 and 1.  Operands of different
    shapes, which torch would broadcast, are outside this statement. *)
Theorem character_accuracy_range
  (token_logits : list (list (list logit))) (loss_mask labels : list (list Z))
  (acc : Q) :
  binary loss_mask ->
  same_shape token_logits labels ->
  same_shape labels loss_mask ->
  calculate_character_accuracy token_logits loss_mask labels = Ok acc ->
  (0 <= acc)%Q /\ (acc <= 1)%Q.
Proof.
  intros Hb _ _ H.
  apply character_accuracy_value in H as (v & p & _ & _ & _ & Hpos & ->);
    [|exact Hb].
  apply quotient_range; [exact Hpos | apply correct_count_le].
Qed.

Lemma character_accuracy_range_witness :
  (0 <= 9 # 10)%Q /\ (9 # 10 <= 1)%Q.
Proof.
  apply (@character_accuracy_range Toy.accuracy_logits Toy.accuracy_mask
           Toy.accuracy_labels (9 # 10)%Q toy_accuracy_mask_binary
           eq_refl eq_refl eq_refl).
Defined.

(** On logits, labels and a 0/1 mask of one shape, the division by the
    number of active positions is the only step that can fail: the call
    raises [ZeroDivisionError] exactly when no position is active (a
    batch that is padding only, or an empty one) and returns otherwise. *)
Theorem character_accuracy_zero_division
  (token_logits : list (list (list logit))) (loss_mask labels : list (list Z))
  (values : list (list logit)) (predicted : list (list Z)) :
  binary loss_mask ->
  Tensor.max_dim2 token_logits = Ok (values, predicted) ->
  same_shape labels predicted ->
  same_shape predicted loss_mask ->
  (active_count loss_mask = 0 <->
   calculate_character_accuracy token_logits loss_mask labels
   = Raise ZeroDivisionError) /\
  (0 < active_count loss_mask <->
   exists acc,
     calculate_character_accuracy token_logits loss_mask labels = Ok acc).
Proof.
  intros Hb Hmax Hlp Hpm.
  rewrite (@character_accuracy_outcome token_logits loss_mask labels
             values predicted Hb Hmax Hlp Hpm).
  destruct (Nat.eqb_spec (active_count loss_mask) 0) as [E|E]; split; split;
    intros H; try reflexivity; try lia; try discriminate; eauto.
  - destruct H as (acc & H). discriminate H.
Qed.

Lemma character_accuracy_zero_division_witness :
  calculate_character_accuracy [[Toy.one_hot 4; Toy.one_hot 5]]
                               [[0; 0]%Z] [[4; 5]%Z]
  = Raise ZeroDivisionError.
Proof.
  apply (proj1 (proj1 (@character_accuracy_zero_division
                         [[Toy.one_hot 4; Toy.one_hot 5]] [[0; 0]%Z] [[4; 5]%Z]
                         [[Fin 1; Fin 1]] [[4; 5]%Z]
                         ltac:(repeat constructor)
                         eq_refl eq_refl eq_refl))).
  reflexivity.
Defined.

Lemma accuracy_transfer
  (token_logits token_logits' : list (list (list logit)))
  (loss_mask labels labels' : list (list Z))
  (values values' : list (list logit)) (predicted predicted' : list (list Z))
  (acc : Q) :
  binary loss_mask ->
  Tensor.max_dim2 token_logits = Ok (values, predicted) ->
  Tensor.max_dim2 token_logits' = Ok (values', predicted') ->
  same_shape predicted predicted' ->
  same_shape labels labels' ->
  (forall p, active loss_mask p = true ->
             correct predicted labels p = correct predicted' labels' p) ->
  calculate_character_accuracy token_logits loss_mask labels = Ok acc ->
  calculate_character_accuracy token_logits' loss_mask labels' = Ok acc.
Proof.
  intros Hb Hmax Hmax' Hpp Hll Hagree H.
  apply character_accuracy_value in H
    as (v & p & Hm & Hlp & Hpm & Hpos & ->); [|exact Hb].
  rewrite Hmax in Hm. inversion Hm; subst v p; clear Hm.
  rewrite (@character_accuracy_outcome token_logits' loss_mask labels'
             values' predicted' Hb Hmax').
  - destruct (Nat.eqb_spec (active_count loss_mask) 0); [lia|].
    assert (E : correct_count predicted' labels' loss_mask
                = correct_count predicted labels loss_mask).
    { unfold correct_count. f_equal. apply filter_ext. intros q.
      destruct (active loss_mask q) eqn:Ea; [|reflexivity].
      rewrite (Hagree q Ea). reflexivity. }
    rewrite E. reflexivity.
  - eapply same_shape_trans; [apply same_shape_sym, Hll|].
    eapply same_shape_trans; [exact Hlp | exact Hpp].
  - eapply same_shape_trans; [apply same_shape_sym, Hpp | exact Hpm].
Qed.

(** Positions outside the loss mask never influence the accuracy:
    two calls whose predictions and labels agree wherever the mask is 1
    (and have the same shapes) return the same value, whatever the
    logits and the labels at the masked positions. *)
Theorem character_accuracy_ignores_masked
  (token_logits token_logits' : list (list (list logit)))
  (loss_mask labels labels' : list (list Z))
  (values values' : list (list logit)) (predicted predicted' : list (list Z)) :
  binary loss_mask ->
  Tensor.max_dim2 token_logits = Ok (values, predicted) ->
  Tensor.max_dim2 token_logits' = Ok (values', predicted') ->
  same_shape predicted predicted' ->
  same_shape labels labels' ->
  (forall i j,
     entry loss_mask i j = Some 1%Z ->
     entry predicted i j = entry predicted' i j /\
     entry labels i j = entry labels' i j) ->
  forall acc,
    calculate_character_accuracy token_logits loss_mask labels = Ok acc <->
    calculate_character_accuracy token_logits' loss_mask labels' = Ok acc.
Proof.
  intros Hb Hmax Hmax' Hpp Hll Hagree acc.
  assert (Hc : forall p, active loss_mask p = true ->
                         correct predicted labels p
                         = correct predicted' labels' p).
  { intros [i j] Ha. unfold active in Ha. simpl in Ha.
    destruct (entry loss_mask i j) as [m|] eqn:Em; [|discriminate].
    apply Z.eqb_eq in Ha. subst m.
    destruct (Hagree i j Em) as (Ep & El).
    unfold correct. simpl. rewrite Ep, El. reflexivity. }
  split; intros H.
  - exact (@accuracy_transfer token_logits token_logits' loss_mask labels
             labels' values values' predicted predicted' acc
             Hb Hmax Hmax' Hpp Hll Hc H).
  - apply (@accuracy_transfer token_logits' token_logits loss_mask labels'
             labels values' values predicted' predicted acc
             Hb Hmax' Hmax (same_shape_sym Hpp) (same_shape_sym Hll));
      [|exact H].
    intros p Ha. symmetry. apply Hc, Ha.
Qed.

Lemma character_accuracy_ignores_masked_witness :
  calculate_character_accuracy Toy.accuracy_logits Toy.accuracy_mask
    [[4; 4; 5; 3; 3; 77]; [6; 7; 6; 3; 3; 78]]%Z = Ok (9 # 10)%Q.
Proof.
  apply (proj1 (@character_accuracy_ignores_masked
                  Toy.accuracy_logits Toy.accuracy_logits Toy.accuracy_mask
                  Toy.accuracy_labels
                  [[4; 4; 5; 3; 3; 77]; [6; 7; 6; 3; 3; 78]]%Z
                  _ _ _ _ toy_accuracy_mask_binary eq_refl eq_refl
                  eq_refl eq_refl
                  ltac:(intros [|[|i]] [|[|[|[|[|[|j]]]]]] H;
                        try discriminate H; split; reflexivity)
                  (9 # 10)%Q)).
  reflexivity.
Defined.

Lemma mask_rows_binary (W : nat) (seqs : list (list Z)) :
  binary (map (mask_row W) seqs).
Proof.
  unfold binary. apply Forall_forall. intros row Hin.
  apply in_map_iff in Hin as (seq & <- & _). unfold mask_row.
  apply Forall_app. split; apply Forall_forall; intros z Hz;
    apply repeat_spec in Hz; auto.
Qed.

Lemma character_accuracy_ignores_masked_aux
  (token_logits : list (list (list logit))) (loss_mask labels labels' : list (list Z))
  (values : list (list logit)) (predicted : list (list Z)) :
  binary loss_mask ->
  Tensor.max_dim2 token_logits = Ok (values, predicted) ->
  same_shape labels labels' ->
  (forall i j, entry loss_mask i j = Some 1%Z ->
               entry labels i j = entry labels' i j) ->
  forall acc,
    calculate_character_accuracy token_logits loss_mask labels = Ok acc <->
    calculate_character_accuracy token_logits loss_mask labels' = Ok acc.
Proof.
  intros Hb Hmax Hll Hagree acc.
  assert (Hc : forall p, active loss_mask p = true ->
                         correct predicted labels p
                         = correct predicted labels' p).
  { intros [i j] Ha. unfold active in Ha. simpl in Ha.
    destruct (entry loss_mask i j) as [m|] eqn:Em; [|discriminate].
    apply Z.eqb_eq in Ha. subst m.
    unfold correct. simpl. rewrite (Hagree i j Em). reflexivity. }
  assert (Hpp : same_shape predicted predicted) by reflexivity.
  split; intros H.
  - exact (@accuracy_transfer token_logits token_logits loss_mask labels
             labels' values values predicted predicted acc
             Hb Hmax Hmax Hpp Hll Hc H).
  - apply (@accuracy_transfer token_logits token_logits loss_mask labels'
             labels values values predicted predicted acc
             Hb Hmax Hmax Hpp (same_shape_sym Hll)); [|exact H].
    intros p Ha. symmetry. apply Hc, Ha.
Qed.

(** The sentinel is invisible to the accuracy: collating one batch with
    two different values of [label_pad] gives batches that differ in
    [labels] only, and on those two batches
    [calculate_character_accuracy] returns the same value for any
    logits. *)
Theorem collate_label_pad_irrelevant
  {rng : Type} {RS : RandomSource rng} {SC : StructureCodec}
  {TK : Tokenizer rng} (self : MoleculeEnumeration) (batch : list string)
  (label_pad label_pad' : Z) (s s1 s2 : rng)
  (encoder_dict decoder_dict : prepared token) :
  _prepare_tokens self batch (encoder_augment self) (encoder_mask self) s
  = Ok (encoder_dict, s1) ->
  _prepare_tokens self batch (decoder_augment self) (decoder_mask self) s1
  = Ok (decoder_dict, s2) ->
  int64_ids TK ->
  Torch.int64_ok label_pad = true ->
  Torch.int64_ok label_pad' = true ->
  exists out out',
    collate_fn self batch label_pad s = Ok (out, s2) /\
    collate_fn self batch label_pad' s = Ok (out', s2) /\
    text_enc out = text_enc out' /\ enc_mask out = enc_mask out' /\
    text_dec out = text_dec out' /\ dec_mask out = dec_mask out' /\
    loss_mask out = loss_mask out' /\
    batch_target_smiles out = batch_target_smiles out' /\
    forall token_logits acc,
      calculate_character_accuracy token_logits (loss_mask out) (labels out)
      = Ok acc <->
      calculate_character_accuracy token_logits (loss_mask out') (labels out')
      = Ok acc.
Proof.
  intros Henc Hdec Hids Hlp Hlp'.
  exists (collated self label_pad encoder_dict decoder_dict),
         (collated self label_pad' encoder_dict decoder_dict).
  split; [eapply collate_fn_eq; eassumption|].
  split; [eapply collate_fn_eq; eassumption|].
  unfold collated. simpl. repeat (split; [reflexivity|]).
  set (label_ids := map (fun example => example ++ [eos_id])
                        (convert_tokens_to_ids (tokens decoder_dict))).
  set (W := pad_width self label_ids).
  assert (Hsh : same_shape (map (pad_row W label_pad) label_ids)
                           (map (pad_row W label_pad') label_ids)).
  { unfold same_shape. rewrite !map_map. apply map_ext_in. intros seq Hin.
    rewrite !pad_row_length by (apply pad_width_ge, Hin). reflexivity. }
  assert (Hag : forall i j,
             entry (map (mask_row W) label_ids) i j = Some 1%Z ->
             entry (map (pad_row W label_pad) label_ids) i j
             = entry (map (pad_row W label_pad') label_ids) i j).
  { intros i j. rewrite !entry_map.
    destruct (nth_error label_ids i) as [seq|]; [|discriminate].
    intros Hm. apply mask_row_entry in Hm as [[Hlt _]|[_ Hm]];
      [|discriminate].
    rewrite !pad_row_entry_seq by assumption. reflexivity. }
  intros logits acc. split; intros H.
  - pose proof H as H0.
    apply character_accuracy_value in H0 as (v & p & Hm & _);
      [|apply mask_rows_binary].
    eapply (proj1 (@character_accuracy_ignores_masked_aux
                     logits _ _ _ _ _ (mask_rows_binary W label_ids)
                     Hm Hsh Hag acc)). exact H.
  - pose proof H as H0.
    apply character_accuracy_value in H0 as (v & p & Hm & _);
      [|apply mask_rows_binary].
    eapply (proj2 (@character_accuracy_ignores_masked_aux
                     logits _ _ _ _ _ (mask_rows_binary W label_ids)
                     Hm Hsh Hag acc)). exact H.
Qed.

Lemma collate_label_pad_irrelevant_witness :
  exists out out',
    @collate_fn nat Toy.random Toy.codec Toy.tokenizer Toy.enumeration
                ["OCC"; "C"]%string (-1)%Z 0 = Ok (out, 2) /\
    @collate_fn nat Toy.random Toy.codec Toy.tokenizer Toy.enumeration
                ["OCC"; "C"]%string (-100)%Z 0 = Ok (out', 2) /\
    loss_mask out = loss_mask out'.
Proof.
  edestruct (@collate_label_pad_irrelevant nat Toy.random Toy.codec
               Toy.tokenizer Toy.enumeration ["OCC"; "C"]%string
               (-1)%Z (-100)%Z 0)
    as (out & out' & H & H' & _ & _ & _ & _ & Hm & _);
    [ cbv; reflexivity | cbv; reflexivity | exact toy_int64_ids
    | reflexivity | reflexivity | ].
  exists out, out'. split; [exact H|]. split; [exact H' | exact Hm].
Defined.

(** ** [calculate_molecular_accuracy] and [calculate_metrics] *)

Lemma count_true_le (flags : list bool) : count_true flags <= length flags.
Proof.
  unfold count_true. apply filter_length_le.
Qed.

(** Index by index, a sampled string that does not parse is compared
    as ["Unknown"], so it is counted correct only against a target that
    is that very string. *)
Lemma correct_and_invalid {SC : StructureCodec} (targets : list string)
  (mols : list (option Mol)) :
  forall (k : nat) (canonical : list string) (correct_flags : list bool),
    rmap (fun mol : option Mol =>
            match mol with
            | None => Ok "Unknown"%string
            | Some _ => render mol true
            end) mols = Ok canonical ->
    rmap (fun item : nat * string =>
            match nth_error targets (fst item) with
            | Some target => Ok (String.eqb target (snd item))
            | None => Raise IndexError
            end) (combine (seq k (length canonical)) canonical)
    = Ok correct_flags ->
    length correct_flags = length mols /\
    (mols = [] \/ k + length mols <= length targets) /\
    ((forall i t, k <= i -> i < k + length mols ->
                  nth_error targets i = Some t -> t <> "Unknown"%string) ->
     count_true correct_flags
     + count_true (map (fun mol : option Mol =>
                          match mol with None => true | Some _ => false end)
                       mols)
     <= length mols).
Proof.
  induction mols as [|mol mols IH]; intros k canonical flags Hc Hf.
  - simpl in Hc. inversion Hc; subst. simpl in Hf. inversion Hf; subst.
    simpl. split; [reflexivity|].
    split; [left; reflexivity | intros _; unfold count_true; simpl; lia].
  - simpl in Hc. apply rbind_Ok in Hc as (c & Hcm & Hc).
    apply rbind_Ok in Hc as (cs & Hcs & Hc). inversion Hc; subst; clear Hc.
    simpl in Hf. apply rbind_Ok in Hf as (b & Hb & Hf).
    apply rbind_Ok in Hf as (bs & Hbs & Hf). inversion Hf; subst; clear Hf.
    simpl in Hb.
    destruct (nth_error targets k) as [t|] eqn:Et; [|discriminate].
    inversion Hb; subst b; clear Hb.
    destruct (IH (S k) cs bs Hcs Hbs) as (Hlen & Hbound & Hcount).
    assert (Hk : k < length targets) by (apply nth_error_Some; congruence).
    simpl length. split; [congruence|].
    split; [right; destruct Hbound as [->|Hbound]; simpl; lia|].
    intros Hunk.
    assert (Hrest : count_true bs
                    + count_true
                        (map (fun mol : option Mol =>
                                match mol with
                                | None => true
                                | Some _ => false
                                end) mols)
                    <= length mols).
    { apply Hcount. intros i t' Hi Hlt. apply Hunk; lia. }
    unfold count_true in *. simpl.
    destruct mol as [m|].
    + destruct (String.eqb t c); simpl; lia.
    + inversion Hcm; subst c.
      assert (Hne : t <> "Unknown"%string) by (apply (Hunk k); [lia | lia | exact Et]).
      destruct (String.eqb_spec t "Unknown"); [contradiction|]. simpl. lia.
Qed.

Lemma quotient_sum_range (a b d : nat) :
  0 < d -> a + b <= d ->
  (inject_Z (Z.of_nat a) / inject_Z (Z.of_nat d)
   + inject_Z (Z.of_nat b) / inject_Z (Z.of_nat d) <= 1)%Q.
Proof.
  intros Hd Hab. destruct d as [|d]; [lia|].
  unfold Qdiv, Qmult, Qinv, Qplus, Qle, inject_Z. simpl Qnum. simpl Qden.
  rewrite Pos2Z.inj_mul, Zpos_P_of_succ_nat. nia.
Qed.

(** What a returned molecular accuracy guarantees.  [sample_molecules]
    returned at least one string and there is a target for each; both
    numbers lie between 0 and 1; [percent_invalid] is the share of the
    sampled strings that do not parse; and if none of the targets in
    use is the string ["Unknown"], a sample that does not parse is
    never counted as correct, so the two numbers add up to at most 1. *)
Theorem molecular_accuracy_range
  {rng : Type} {SC : StructureCodec} {TK : Tokenizer rng} {NW : Network}
  (self : MegaMolBARTModel) (tokens_enc enc_mask : list (list Z))
  (target_smiles : list string) (accuracy invalid : Q) :
  calculate_molecular_accuracy self tokens_enc enc_mask target_smiles
  = Ok (accuracy, invalid) ->
  exists sampled,
    sample_molecules self tokens_enc enc_mask = Ok sampled /\
    sampled <> [] /\
    length sampled <= length target_smiles /\
    (0 <= accuracy)%Q /\ (accuracy <= 1)%Q /\
    (0 <= invalid)%Q /\ (invalid <= 1)%Q /\
    invalid
    = (inject_Z (Z.of_nat
         (length (filter (fun smi => match MolFromSmiles smi with
                                     | None => true
                                     | Some _ => false
                                     end) sampled)))
       / inject_Z (Z.of_nat (length sampled)))%Q /\
    (~ In "Unknown"%string (firstn (length sampled) target_smiles) ->
     (accuracy + invalid <= 1)%Q).
Proof.
  unfold calculate_molecular_accuracy. intros H.
  apply rbind_Ok in H as (sampled & Hs & H).
  apply rbind_Ok in H as (canonical & Hc & H).
  apply rbind_Ok in H as (flags & Hf & H).
  unfold enumerate in Hf.
  destruct (correct_and_invalid target_smiles _ 0 Hc Hf)
    as (Hlen & Hbound & Hcount).
  rewrite length_map in Hlen, Hbound, Hcount.
  destruct (Nat.eqb_spec (length flags) 0) as [|Hne]; [discriminate|].
  inversion H; subst accuracy invalid; clear H.
  exists sampled. split; [exact Hs|].
  split; [intros ->; simpl in Hlen; lia|].
  split; [destruct Hbound as [E|Hbound];
          [apply map_eq_nil in E; subst; simpl in Hlen; lia | lia]|].
  pose proof (count_true_le flags) as Hcf.
  pose proof (count_true_le
                (map (fun mol : option Mol =>
                        match mol with None => true | Some _ => false end)
                     (map MolFromSmiles sampled))) as Hci.
  rewrite !length_map in Hci.
  destruct (@quotient_range (count_true flags) (length flags)) as (A0 & A1);
    [lia | lia |].
  destruct (@quotient_range
              (count_true
                 (map (fun mol : option Mol =>
                         match mol with None => true | Some _ => false end)
                      (map MolFromSmiles sampled))) (length flags))
    as (I0 & I1); [lia | lia |].
  split; [exact A0|]. split; [exact A1|]. split; [exact I0|].
  split; [exact I1|]. split.
  - rewrite Hlen. do 4 f_equal. unfold count_true. clear.
    induction sampled as [|smi l IH]; simpl; [reflexivity|].
    destruct (MolFromSmiles smi); simpl; rewrite IH; reflexivity.
  - intros Hunk. apply quotient_sum_range; [lia|].
    rewrite Hlen. apply Hcount. intros i t _ Hi Ht Heq. apply Hunk.
    subst t. apply nth_error_In with (n := i).
    rewrite nth_error_firstn.
    destruct (Nat.ltb_spec i (length sampled)); [exact Ht | lia].
Qed.

Lemma molecular_accuracy_range_witness :
  (0 <= 1 # 2)%Q /\ (1 # 2 <= 1)%Q.
Proof.
  destruct (@molecular_accuracy_range nat Toy.codec Toy.tokenizer Toy.speller
              Toy.model [[4; 4; 5]%Z; [4]%Z] [[1; 1; 1]%Z; [1; 0; 0]%Z]
              ["?CCO"; "CCO"]%string (1 # 2)%Q (0 # 2)%Q eq_refl)
    as (sampled & _ & _ & _ & H0 & H1 & _).
  split; [exact H0 | exact H1].
Defined.

Lemma rmap_raises {A B} (f : A -> result B) (e : exn) (l : list A) :
  (forall x, In x l -> (exists y, f x = Ok y) \/ f x = Raise e) ->
  (exists x, In x l /\ f x = Raise e) ->
  rmap f l = Raise e.
Proof.
  induction l as [|a l IH]; intros Hall (x & Hin & Hx); [contradiction|].
  simpl. destruct (Hall a (or_introl eq_refl)) as [(y & Hy)|Hr].
  - rewrite Hy. simpl.
    assert (Hl : rmap f l = Raise e).
    { apply IH; [intros z Hz; apply Hall; right; exact Hz|].
      destruct Hin as [->|Hin]; [congruence | eauto]. }
    rewrite Hl. reflexivity.
  - rewrite Hr. reflexivity.
Qed.

Lemma combine_seq_In {A} (l : list A) (i k : nat) (x : A) :
  nth_error l i = Some x -> In (k + i, x) (combine (seq k (length l)) l).
Proof.
  revert i k. induction l as [|a l IH]; intros [|i] k H; simpl in *;
    try discriminate.
  - inversion H. left. f_equal. lia.
  - right. replace (k + S i) with (S k + i) by lia. apply IH, H.
Qed.

Lemma enumerate_In {A} (l : list A) (i : nat) (x : A) :
  nth_error l i = Some x -> In (i, x) (enumerate l).
Proof.
  intros H. apply (combine_seq_In l i 0 H).
Qed.

(** How [calculate_molecular_accuracy] fails.  If [sample_molecules]
    returns no string (an empty batch), the division by the number of
    samples raises [ZeroDivisionError].  If it returns more strings
    than there are targets (and every sample that parses has a
    canonical rendering), indexing the targets raises [IndexError];
    nothing is truncated to the shorter list. *)
Theorem molecular_accuracy_errors
  {rng : Type} {SC : StructureCodec} {TK : Tokenizer rng} {NW : Network}
  (self : MegaMolBARTModel) (tokens_enc enc_mask : list (list Z))
  (target_smiles : list string) :
  (sample_molecules self tokens_enc enc_mask = Ok [] ->
   calculate_molecular_accuracy self tokens_enc enc_mask target_smiles
   = Raise ZeroDivisionError) /\
  (forall sampled,
     sample_molecules self tokens_enc enc_mask = Ok sampled ->
     (forall smi mol, In smi sampled -> MolFromSmiles smi = Some mol ->
                      MolToSmiles mol true <> None) ->
     length target_smiles < length sampled ->
     calculate_molecular_accuracy self tokens_enc enc_mask target_smiles
     = Raise IndexError).
Proof.
  split.
  - intros Hs. unfold calculate_molecular_accuracy. rewrite Hs. reflexivity.
  - intros sampled Hs Hrender Hshort.
    unfold calculate_molecular_accuracy. rewrite Hs. simpl.
    destruct (@rmap_returns _ _
                (fun mol : option Mol =>
                   match mol with
                   | None => Ok "Unknown"%string
                   | Some _ => render mol true
                   end) (map MolFromSmiles sampled)) as (canonical & Hc).
    { intros mol Hin. apply in_map_iff in Hin as (smi & <- & Hsmi).
      destruct (MolFromSmiles smi) as [m|] eqn:Em; [|eauto].
      simpl. specialize (Hrender smi m Hsmi Em).
      destruct (MolToSmiles m true); [eauto | contradiction]. }
    rewrite Hc. simpl.
    assert (Hlen : length canonical = length sampled)
      by (apply rmap_Ok_length in Hc; rewrite length_map in Hc; exact Hc).
    rewrite rmap_raises with (e := IndexError); [reflexivity| |].
    + intros [i c] _. simpl.
      destruct (nth_error target_smiles i); [left; eauto | right; reflexivity].
    + destruct (nth_error canonical (length target_smiles)) as [c|] eqn:Ec;
        [|apply nth_error_None in Ec; lia].
      exists (length target_smiles, c). split; [apply enumerate_In, Ec|].
      simpl.
      replace (nth_error target_smiles (length target_smiles)) with (@None string)
        by (symmetry; apply nth_error_None; lia).
      reflexivity.
Qed.

Lemma molecular_accuracy_errors_witness :
  @calculate_molecular_accuracy nat Toy.codec Toy.tokenizer Toy.speller
    Toy.model [[4; 4; 5]%Z; [4]%Z] [[1; 1; 1]%Z; [1; 0; 0]%Z]
    ["?CCO"]%string = Raise IndexError.
Proof.
  apply (proj2 (@molecular_accuracy_errors nat Toy.codec Toy.tokenizer
                  Toy.speller Toy.model [[4; 4; 5]%Z; [4]%Z]
                  [[1; 1; 1]%Z; [1; 0; 0]%Z] ["?CCO"]%string)
               ["?CCO"; "?CCO"]%string eq_refl).
  - intros smi mol _ _. simpl. discriminate.
  - simpl. lia.
Defined.

(** A returned pair of molecular metrics: two quotients with one
    positive denominator. *)
Lemma molecular_accuracy_value
  {rng : Type} {SC : StructureCodec} {TK : Tokenizer rng} {NW : Network}
  (self : MegaMolBARTModel) (tokens_enc enc_mask : list (list Z))
  (target_smiles : list string) (accuracy invalid : Q) :
  calculate_molecular_accuracy self tokens_enc enc_mask target_smiles
  = Ok (accuracy, invalid) ->
  exists num_correct num_invalid total,
    0 < total /\ num_correct <= total /\ num_invalid <= total /\
    accuracy = (inject_Z (Z.of_nat num_correct)
                / inject_Z (Z.of_nat total))%Q /\
    invalid = (inject_Z (Z.of_nat num_invalid)
               / inject_Z (Z.of_nat total))%Q.
Proof.
  unfold calculate_molecular_accuracy. intros H.
  apply rbind_Ok in H as (sampled & Hs & H).
  apply rbind_Ok in H as (canonical & Hc & H).
  apply rbind_Ok in H as (flags & Hf & H).
  destruct (Nat.eqb_spec (length flags) 0) as [|Hne]; [discriminate|].
  inversion H; subst accuracy invalid; clear H.
  apply rmap_Ok_length in Hc, Hf. unfold enumerate in Hf.
  rewrite length_combine, length_seq, Nat.min_id in Hf.
  rewrite !length_map in Hc.
  do 3 eexists. split; [|split; [|split; [|split; reflexivity]]].
  - lia.
  - apply count_true_le.
  - etransitivity; [apply count_true_le|]. rewrite !length_map. lia.
Qed.

(** [calculate_metrics] returns exactly when both calculations return,
    with their values; for logits, labels and a 0/1 loss mask of one
    shape the three metrics lie between 0 and 1.  The character
    accuracy is computed first: when it raises, that exception is the
    outcome, whatever the decoder would do. *)
Theorem metrics_in_range
  {rng : Type} {SC : StructureCodec} {TK : Tokenizer rng} {NW : Network}
  (self : MegaMolBARTModel) (token_logits : list (list (list logit)))
  (loss_mask labels tokens_enc enc_mask : list (list Z))
  (target_smiles : list string) :
  (forall m,
     calculate_metrics self token_logits loss_mask labels
                       tokens_enc enc_mask target_smiles = Ok m <->
     calculate_character_accuracy token_logits loss_mask labels
     = Ok (character_accuracy m) /\
     calculate_molecular_accuracy self tokens_enc enc_mask target_smiles
     = Ok (molecular_accuracy m, percent_invalid m)) /\
  (forall m,
     binary loss_mask ->
     same_shape token_logits labels ->
     same_shape labels loss_mask ->
     calculate_metrics self token_logits loss_mask labels
                       tokens_enc enc_mask target_smiles = Ok m ->
     (0 <= character_accuracy m)%Q /\ (character_accuracy m <= 1)%Q /\
     (0 <= molecular_accuracy m)%Q /\ (molecular_accuracy m <= 1)%Q /\
     (0 <= percent_invalid m)%Q /\ (percent_invalid m <= 1)%Q) /\
  (forall e,
     calculate_character_accuracy token_logits loss_mask labels = Raise e ->
     calculate_metrics self token_logits loss_mask labels
                       tokens_enc enc_mask target_smiles = Raise e).
Proof.
  assert (Hiff : forall m,
    calculate_metrics self token_logits loss_mask labels
                      tokens_enc enc_mask target_smiles = Ok m <->
    calculate_character_accuracy token_logits loss_mask labels
    = Ok (character_accuracy m) /\
    calculate_molecular_accuracy self tokens_enc enc_mask target_smiles
    = Ok (molecular_accuracy m, percent_invalid m)).
  { intros m. unfold calculate_metrics. split.
    - intros H. apply rbind_Ok in H as (c & Hc & H).
      apply rbind_Ok in H as ([a i] & Hm & H). inversion H; subst. simpl. auto.
    - intros (Hc & Hm). rewrite Hc. simpl. rewrite Hm. simpl.
      destruct m; reflexivity. }
  split; [exact Hiff|]. split.
  - intros m Hb _ _ H. apply Hiff in H as (Hc & Hm).
    apply character_accuracy_value in Hc
      as (v & p & _ & _ & _ & Hpos & Ec); [|exact Hb].
    apply molecular_accuracy_value in Hm
      as (nc & ni & total & Ht & Hnc & Hni & Ea & Ei).
    rewrite Ec, Ea, Ei.
    destruct (@quotient_range (correct_count p labels loss_mask)
                              (active_count loss_mask) Hpos
                              (correct_count_le p labels loss_mask))
      as (C0 & C1).
    destruct (@quotient_range nc total Ht Hnc) as (A0 & A1).
    destruct (@quotient_range ni total Ht Hni) as (I0 & I1).
    repeat split; assumption.
  - intros e He. unfold calculate_metrics. rewrite He. reflexivity.
Qed.

Lemma metrics_in_range_witness :
  (0 <= 9 # 10)%Q /\ (9 # 10 <= 1)%Q /\ (0 <= 1 # 2)%Q /\ (1 # 2 <= 1)%Q /\
  (0 <= 0 # 2)%Q /\ (0 # 2 <= 1)%Q.
Proof.
  apply (proj1 (proj2 (@metrics_in_range nat Toy.codec Toy.tokenizer
                         Toy.speller Toy.model Toy.accuracy_logits
                         Toy.accuracy_mask Toy.accuracy_labels
                         [[4; 4; 5]%Z; [4]%Z] [[1; 1; 1]%Z; [1; 0; 0]%Z]
                         ["?CCO"; "CCO"]%string))
               {| character_accuracy := (9 # 10)%Q;
                  molecular_accuracy := (1 # 2)%Q;
                  percent_invalid := (0 # 2)%Q |}
               toy_accuracy_mask_binary eq_refl eq_refl eq_refl).
Defined.

(** ** Sequences that trimming leaves alone *)

(** Trimming returns a decoded sequence unchanged exactly when the
    sequence holds neither the end-of-sequence id nor the pad id; every
    other sequence comes back strictly shorter. *)
Theorem prune_fixed_points {rng : Type} {TK : Tokenizer rng} (l : list Z) :
  (prune l = Ok l <-> ~ In eos_id l /\ ~ In pad_id l) /\
  (forall r, prune l = Ok r -> r <> l -> length r < length l).
Proof.
  assert (Hshort : forall r, prune l = Ok r -> r = l \/ length r < length l).
  { intros r Hr. destruct (in_dec Z.eq_dec eos_id l) as [Hin|Hnin].
    - destruct (index_first_occurrence _ _ Hin) as (pre & post & E & Hpre & _).
      rewrite E in Hr. rewrite prune_with_eos in Hr by assumption.
      inversion Hr; subst r. right. rewrite E, length_app. simpl. lia.
    - rewrite prune_without_eos in Hr by assumption. inversion Hr; subst r.
      destruct (in_dec Z.eq_dec pad_id l) as [Hp|Hp].
      + right. apply remove_length_lt, Hp.
      + left. apply remove_absent, Hp. }
  split.
  - split.
    + intros H. pose proof (prune_no_eos _ H) as Heos.
      split; [exact Heos|].
      rewrite prune_without_eos in H by assumption.
      injection H as H. apply remove_fixpoint, H.
    + intros (Heos & Hpad). rewrite prune_without_eos by assumption.
      rewrite remove_absent by assumption. reflexivity.
  - intros r Hr Hne. destruct (Hshort r Hr); [contradiction | assumption].
Qed.

Lemma prune_fixed_points_witness :
  length [2; 4; 0]%Z < length [2; 4; 0; 3]%Z.
Proof.
  apply (proj2 (@prune_fixed_points nat Toy.tokenizer [2; 4; 0; 3]%Z)
               [2; 4; 0]%Z eq_refl).
  discriminate.
Defined.
